(** * combine-sqm-tables.py: a shallow embedding and its properties

    The script [utils/combine-sqm-tables.py] merges the tables of several
    SqueezeMeta projects.  This file embeds [main], [parse_table] and
    [write_feature_dict] as executable Rocq functions and proves the
    properties its specification states about them.

    Conventions.
    - A Python [str] is the list of its code points ([pystr]); string
      comparison is the lexicographic order of the code points, as in
      Python.
    - A Python [dict] is an association list in insertion order with
      unique keys ([Dict.t]): iteration order is insertion order, and an
      assignment to an existing key keeps the key's position.
    - The file system, the standard output and the files written are an
      explicit part of the state; an exception aborts the computation and
      leaves the state as it was when it was raised.
    - [write_feature_dict] is followed up to the frame it hands to
      [to_csv]; the text [to_csv] makes of it is left to pandas.

    The definitions come first: the Python and pandas operations the script
    uses, the script itself, the notions the properties speak of, and a
    small file system of example projects.  The properties follow, each
    with the lemmas it rests on. *)

From Stdlib Require Import String.
From Stdlib Require Import List NArith ZArith Bool Ascii Lia.
From Stdlib Require Import Sorting.Sorted Sorting.Permutation Sorting.Mergesort.
Import ListNotations.

Local Open Scope list_scope.

(* ================================================================== *)
(** * Python strings *)

Definition pychar := N.
Definition pystr := list pychar.

(** A literal of the source. *)
Definition lit (s : String.string) : pystr :=
  map (fun a => N_of_ascii a) (String.list_ascii_of_string s).
Arguments lit s%_string.

Definition TAB : pychar := 9%N.
Definition NL : pychar := 10%N.
Definition DOT : pychar := 46%N.
Definition SLASH : pychar := 47%N.

Fixpoint str_eqb (a b : pystr) : bool :=
  match a, b with
  | [], [] => true
  | x :: a', y :: b' => N.eqb x y && str_eqb a' b'
  | _, _ => false
  end.

(** [x in (a, b, ...)] on strings. *)
Definition str_in (x : pystr) (l : list pystr) : bool :=
  existsb (str_eqb x) l.

(** [str.isspace] on one code point: the characters [str.strip()]
    removes. *)
Definition is_space (c : pychar) : bool :=
  ((9 <=? c) && (c <=? 13) || (28 <=? c) && (c <=? 32)
   || (c =? 133) || (c =? 160) || (c =? 5760)
   || (8192 <=? c) && (c <=? 8202) || (c =? 8232) || (c =? 8233)
   || (c =? 8239) || (c =? 8287) || (c =? 12288))%N.

Fixpoint lstrip (p : pychar -> bool) (s : pystr) : pystr :=
  match s with
  | [] => []
  | c :: s' => if p c then lstrip p s' else s
  end.

Definition rstrip (p : pychar -> bool) (s : pystr) : pystr :=
  rev (lstrip p (rev s)).

(** [s.strip()] *)
Definition strip (s : pystr) : pystr := rstrip is_space (lstrip is_space s).

(** [s.strip(c)] for a one-character argument. *)
Definition strip_char (c : pychar) (s : pystr) : pystr :=
  rstrip (N.eqb c) (lstrip (N.eqb c) s).

(** [s.split(sep)] for a one-character separator: never empty. *)
Fixpoint split (sep : pychar) (s : pystr) : list pystr :=
  match s with
  | [] => [[]]
  | c :: s' =>
      if N.eqb c sep then [] :: split sep s'
      else match split sep s' with
           | [] => [[c]]
           | w :: ws => (c :: w) :: ws
           end
  end.

(** [l[i]] for [i >= 0]; [None] stands for [IndexError]. *)
Definition index_pos {A} (l : list A) (i : nat) : option A := nth_error l i.

(** [l[-k]] for [k >= 1]; [None] stands for [IndexError]. *)
Definition index_neg {A} (l : list A) (k : nat) : option A :=
  if (Nat.leb k (List.length l) && Nat.leb 1 k)%bool
  then nth_error l (List.length l - k) else None.

(** Python's [<=] on strings. *)
Fixpoint str_leb (a b : pystr) : bool :=
  match a, b with
  | [], _ => true
  | _ :: _, [] => false
  | x :: a', y :: b' =>
      if N.ltb x y then true
      else if N.eqb x y then str_leb a' b' else false
  end.

(* ================================================================== *)
(** * Python dictionaries with string keys *)

Module Dict.

Definition t (V : Type) := list (pystr * V).

Definition empty {V} : t V := [].

Fixpoint get {V} (k : pystr) (d : t V) : option V :=
  match d with
  | [] => None
  | (k', v) :: d' => if str_eqb k k' then Some v else get k d'
  end.

(** [k in d] *)
Definition mem {V} (k : pystr) (d : t V) : bool :=
  match get k d with Some _ => true | None => false end.

(** [d[k] = v] *)
Fixpoint set {V} (k : pystr) (v : V) (d : t V) : t V :=
  match d with
  | [] => [(k, v)]
  | (k', v') :: d' =>
      if str_eqb k k' then (k', v) :: d' else (k', v') :: set k v d'
  end.

Definition keys {V} (d : t V) : list pystr := map fst d.
Definition items {V} (d : t V) : list (pystr * V) := d.

End Dict.

(** A feature map: sample -> (feature -> value as text). *)
Definition fdict := Dict.t (Dict.t pystr).

(* ================================================================== *)
(** * Exceptions *)

Inductive exn :=
| Exception (msg : pystr)               (* raise Exception(msg) *)
| SystemExit (code : Z)                 (* exit(code) *)
| FileNotFoundError (path : pystr)      (* open or listdir of a missing path *)
| OSError (errno : Z) (path : pystr)    (* mkdir *)
| IndexError                            (* l[i] out of range *)
| KeyError (keys : list pystr).         (* d[k] or df[[...]] with missing labels *)

Inductive result (A : Type) :=
| Ok (a : A)
| Raise (e : exn).
Arguments Ok {A} a.
Arguments Raise {A} e.

(** [d[k]] *)
Definition getitem {V} (d : Dict.t V) (k : pystr) : result V :=
  match Dict.get k d with
  | Some v => Ok v
  | None => Raise (KeyError [k])
  end.

(* ================================================================== *)
(** * The part of pandas that [write_feature_dict] uses

    A frame has an index of row labels and labelled columns; the cells of
    a column are aligned with the index.  A cell holds a stored string, a
    missing value or a number. *)

Inductive cell :=
| Text (v : pystr)
| NaN
| Num (z : Z).

Record DataFrame := {
  df_index : list pystr;
  df_columns : list (pystr * list cell)
}.

Definition col_labels (df : DataFrame) : list pystr := map fst (df_columns df).

Definition add_label (l : list pystr) (k : pystr) : list pystr :=
  if str_in k l then l else l ++ [k].

(** The union of the inner dictionaries' keys, each label once. *)
Definition union_keys (d : fdict) : list pystr :=
  fold_left (fun acc kv => fold_left add_label (Dict.keys (snd kv)) acc) d [].

Definition column_of (idx : list pystr) (inner : Dict.t pystr) : list cell :=
  map (fun f => match Dict.get f inner with Some v => Text v | None => NaN end) idx.

(** [DataFrame.from_dict(d)] for a dict of dicts: one column per outer key,
    one row per inner key, [NaN] where an inner dict has no entry. *)
Definition from_dict (d : fdict) : DataFrame :=
  let idx := union_keys d in
  {| df_index := idx;
     df_columns := map (fun kv => (fst kv, column_of idx (snd kv))) d |}.

(** [df.fillna(z)] *)
Definition fillna (z : Z) (df : DataFrame) : DataFrame :=
  {| df_index := df_index df;
     df_columns :=
       map (fun c => (fst c, map (fun x => match x with NaN => Num z | _ => x end)
                                 (snd c)))
           (df_columns df) |}.

(** The cell of a column at row label [f]. *)
Fixpoint cell_at (idx : list pystr) (cells : list cell) (f : pystr) : option cell :=
  match idx, cells with
  | i :: idx', c :: cells' => if str_eqb f i then Some c else cell_at idx' cells' f
  | _, _ => None
  end.

Module StrOrder <: Orders.TotalLeBool.
Definition t := pystr.
Definition leb := str_leb.
Lemma leb_total : forall a b, leb a b = true \/ leb b a = true.
Proof.
  unfold leb. induction a as [|x a IH]; intros [|y b]; simpl; auto.
  destruct (N.ltb_spec x y) as [Hxy|Hxy]; auto.
  destruct (N.ltb_spec y x) as [Hyx|Hyx]; auto.
  assert (x = y) by lia. subst y. rewrite N.eqb_refl. apply IH.
Qed.
End StrOrder.

Module StrSort := Sort StrOrder.

(** [df.sort_index()]: the rows in ascending order of their labels. *)
Definition sort_index (df : DataFrame) : DataFrame :=
  let idx := StrSort.sort (df_index df) in
  {| df_index := idx;
     df_columns :=
       map (fun c => (fst c,
                      map (fun f => match cell_at (df_index df) (snd c) f with
                                    | Some x => x
                                    | None => NaN
                                    end) idx))
           (df_columns df) |}.

Fixpoint find_column (cols : list (pystr * list cell)) (s : pystr)
  : option (list cell) :=
  match cols with
  | [] => None
  | (s', c) :: cols' => if str_eqb s s' then Some c else find_column cols' s
  end.

(** [df[names]]: the named columns in the order of [names]; a [KeyError]
    listing the labels that are not columns of [df]. *)
Definition select_columns (names : list pystr) (df : DataFrame) : result DataFrame :=
  match filter (fun s => match find_column (df_columns df) s with
                         | Some _ => false | None => true end) names with
  | [] =>
      Ok {| df_index := df_index df;
            df_columns :=
              map (fun s => (s, match find_column (df_columns df) s with
                                | Some c => c | None => [] end)) names |}
  | missing => Raise (KeyError missing)
  end.

(** The cell at row [f] and column [s]. *)
Definition df_at (df : DataFrame) (f s : pystr) : option cell :=
  match find_column (df_columns df) s with
  | Some c => cell_at (df_index df) c f
  | None => None
  end.

(** Lines 343-345 of [write_feature_dict]: the frame handed to [to_csv]. *)
Definition feature_frame (sampleNames : list pystr) (featureDict : fdict)
  : result DataFrame :=
  let df := fillna 0 (from_dict featureDict) in
  let df := sort_index df in
  select_columns sampleNames df.

(* ================================================================== *)
(** * Files, effects and the state of a run *)

(** A file is the list of its lines as iteration over the open file yields
    them (each with its newline); a directory is its listing. *)
Record filesystem := {
  fs_file : pystr -> option (list pystr);
  fs_dir : pystr -> option (list pystr)
}.

Definition isfile (fs : filesystem) (p : pystr) : bool :=
  match fs_file fs p with Some _ => true | None => false end.

Definition isdir (fs : filesystem) (p : pystr) : bool :=
  match fs_dir fs p with Some _ => true | None => false end.

(** What the run does to the outside, in order. *)
Inductive event :=
| Warn (msg : pystr)
| Print (msg : pystr)
| Mkdir (path : pystr)
| Call (command : list pystr)
| ToCsv (outName : pystr) (df : DataFrame).

Inductive filter_t := allfilter | prokfilter | nofilter.
Inductive rank_t := superkingdom | phylum | class | order | family | genus | species.
Inductive fmethod := KO | COG | PFAM.
Inductive metric := abund | copyNumber | tpm.

Definition filter_eqb (a b : filter_t) : bool :=
  match a, b with
  | allfilter, allfilter | prokfilter, prokfilter | nofilter, nofilter => true
  | _, _ => false
  end.

Definition rank_eqb (a b : rank_t) : bool :=
  match a, b with
  | superkingdom, superkingdom | phylum, phylum | class, class | order, order
  | family, family | genus, genus | species, species => true
  | _, _ => false
  end.

Definition fmethod_eqb (a b : fmethod) : bool :=
  match a, b with
  | KO, KO | COG, COG | PFAM, PFAM => true
  | _, _ => false
  end.

Definition metric_eqb (a b : metric) : bool :=
  match a, b with
  | abund, abund | copyNumber, copyNumber | tpm, tpm => true
  | _, _ => false
  end.

Definition filter_name (f : filter_t) : pystr :=
  match f with
  | allfilter => lit "allfilter"
  | prokfilter => lit "prokfilter"
  | nofilter => lit "nofilter"
  end.

Definition rank_name (r : rank_t) : pystr :=
  match r with
  | superkingdom => lit "superkingdom"
  | phylum => lit "phylum"
  | class => lit "class"
  | order => lit "order"
  | family => lit "family"
  | genus => lit "genus"
  | species => lit "species"
  end.

Definition fmethod_name (m : fmethod) : pystr :=
  match m with
  | KO => lit "KO"
  | COG => lit "COG"
  | PFAM => lit "PFAM"
  end.

Definition metric_name (c : metric) : pystr :=
  match c with
  | abund => lit "abund"
  | copyNumber => lit "copyNumber"
  | tpm => lit "tpm"
  end.

(** The command line. *)
Record arguments := {
  project_paths : list pystr;
  paths_file : option pystr;
  output_dir : pystr;
  output_prefix : pystr;
  trusted_functions : bool;
  ignore_unclassified : bool;
  sqmreads : bool;
  force_overwrite : bool;
  doc : bool
}.

(** The variables of [main] (lines 90-134) together with the file system
    and the effects so far.  [taxa allfilter superkingdom] is
    [all_superkingdom], [taxa prokfilter phylum] is [prok_phylum],
    [taxa nofilter class] is [no_class], and so on; [funs KO abund] is
    [KOabund], [funs KO copyNumber] is [KOcopy], [funs KO tpm] is [KOtpm],
    and likewise for COG and PFAM. *)
Record state := {
  fs : filesystem;
  log : list event;
  sampleNames : list pystr;
  taxa : filter_t -> rank_t -> fdict;
  funs : fmethod -> metric -> fdict;
  customFunMethods : Dict.t (Dict.t fdict);
  namesInfo : Dict.t fdict;
  hasKEGG : bool;
  hasCOG : bool;
  hasPFAM : bool
}.

Definition set_fs (x : filesystem) (st : state) : state :=
  {| fs := x; log := log st; sampleNames := sampleNames st; taxa := taxa st;
     funs := funs st; customFunMethods := customFunMethods st;
     namesInfo := namesInfo st; hasKEGG := hasKEGG st; hasCOG := hasCOG st;
     hasPFAM := hasPFAM st |}.

Definition set_log (x : list event) (st : state) : state :=
  {| fs := fs st; log := x; sampleNames := sampleNames st; taxa := taxa st;
     funs := funs st; customFunMethods := customFunMethods st;
     namesInfo := namesInfo st; hasKEGG := hasKEGG st; hasCOG := hasCOG st;
     hasPFAM := hasPFAM st |}.

Definition set_sampleNames (x : list pystr) (st : state) : state :=
  {| fs := fs st; log := log st; sampleNames := x; taxa := taxa st;
     funs := funs st; customFunMethods := customFunMethods st;
     namesInfo := namesInfo st; hasKEGG := hasKEGG st; hasCOG := hasCOG st;
     hasPFAM := hasPFAM st |}.

Definition set_taxa (x : filter_t -> rank_t -> fdict) (st : state) : state :=
  {| fs := fs st; log := log st; sampleNames := sampleNames st; taxa := x;
     funs := funs st; customFunMethods := customFunMethods st;
     namesInfo := namesInfo st; hasKEGG := hasKEGG st; hasCOG := hasCOG st;
     hasPFAM := hasPFAM st |}.

Definition set_funs (x : fmethod -> metric -> fdict) (st : state) : state :=
  {| fs := fs st; log := log st; sampleNames := sampleNames st; taxa := taxa st;
     funs := x; customFunMethods := customFunMethods st;
     namesInfo := namesInfo st; hasKEGG := hasKEGG st; hasCOG := hasCOG st;
     hasPFAM := hasPFAM st |}.

Definition set_customFunMethods (x : Dict.t (Dict.t fdict)) (st : state) : state :=
  {| fs := fs st; log := log st; sampleNames := sampleNames st; taxa := taxa st;
     funs := funs st; customFunMethods := x;
     namesInfo := namesInfo st; hasKEGG := hasKEGG st; hasCOG := hasCOG st;
     hasPFAM := hasPFAM st |}.

Definition set_namesInfo (x : Dict.t fdict) (st : state) : state :=
  {| fs := fs st; log := log st; sampleNames := sampleNames st; taxa := taxa st;
     funs := funs st; customFunMethods := customFunMethods st;
     namesInfo := x; hasKEGG := hasKEGG st; hasCOG := hasCOG st;
     hasPFAM := hasPFAM st |}.

Definition set_hasKEGG (x : bool) (st : state) : state :=
  {| fs := fs st; log := log st; sampleNames := sampleNames st; taxa := taxa st;
     funs := funs st; customFunMethods := customFunMethods st;
     namesInfo := namesInfo st; hasKEGG := x; hasCOG := hasCOG st;
     hasPFAM := hasPFAM st |}.

Definition set_hasCOG (x : bool) (st : state) : state :=
  {| fs := fs st; log := log st; sampleNames := sampleNames st; taxa := taxa st;
     funs := funs st; customFunMethods := customFunMethods st;
     namesInfo := namesInfo st; hasKEGG := hasKEGG st; hasCOG := x;
     hasPFAM := hasPFAM st |}.

Definition set_hasPFAM (x : bool) (st : state) : state :=
  {| fs := fs st; log := log st; sampleNames := sampleNames st; taxa := taxa st;
     funs := funs st; customFunMethods := customFunMethods st;
     namesInfo := namesInfo st; hasKEGG := hasKEGG st; hasCOG := hasCOG st;
     hasPFAM := x |}.

(* ================================================================== *)
(** * Computations that change the state and may raise *)

Definition M (A : Type) := state -> state * result A.

Definition ret {A} (a : A) : M A := fun st => (st, Ok a).

Definition raise {A} (e : exn) : M A := fun st => (st, Raise e).

Definition bind {A B} (m : M A) (k : A -> M B) : M B :=
  fun st =>
    match m st with
    | (st', Ok a) => k a st'
    | (st', Raise e) => (st', Raise e)
    end.

Notation "x <- m ;; k" := (bind m (fun x => k))
  (at level 61, m at next level, right associativity).
Notation "m ;; k" := (bind m (fun _ => k))
  (at level 61, right associativity).

Definition lift {A} (r : result A) : M A := fun st => (st, r).

Definition gets {A} (f : state -> A) : M A := fun st => (st, Ok (f st)).

Definition modify (f : state -> state) : M unit := fun st => (f st, Ok tt).

Definition emit (e : event) : M unit :=
  modify (fun st => set_log (log st ++ [e]) st).

(** [print(msg)] *)
Definition print (msg : pystr) : M unit := emit (Print msg).

(** [if c: body] *)
Definition when (c : bool) (body : M unit) : M unit :=
  if c then body else ret tt.

(** [for x in l: body x] *)
Fixpoint for_each {A} (l : list A) (body : A -> M unit) : M unit :=
  match l with
  | [] => ret tt
  | x :: l' => body x ;; for_each l' body
  end.

(** [open(path)] for reading: the lines of the file. *)
Definition open (path : pystr) : M (list pystr) :=
  fun st =>
    match fs_file (fs st) path with
    | Some lines => (st, Ok lines)
    | None => (st, Raise (FileNotFoundError path))
    end.

(** [listdir(path)] *)
Definition listdir (path : pystr) : M (list pystr) :=
  fun st =>
    match fs_dir (fs st) path with
    | Some names => (st, Ok names)
    | None => (st, Raise (FileNotFoundError path))
    end.

(** [result] values used inside [M]. *)
Definition index_or_raise {A} (o : option A) : M A :=
  match o with
  | Some a => ret a
  | None => raise IndexError
  end.

(** A loop that carries a local variable. *)
Fixpoint fold_each {A B} (l : list A) (acc : B) (body : A -> B -> M B) : M B :=
  match l with
  | [] => ret acc
  | x :: l' => acc' <- body x acc ;; fold_each l' acc' body
  end.

(* ================================================================== *)
(** * [parse_table] (lines 322-339) *)

Definition QUOTE : pychar := 34%N.

Definition duplicate_message (path sample : pystr) : pystr :=
  lit "Error where parsing table in " ++ [QUOTE] ++ path ++ [QUOTE]
  ++ lit ". Sample " ++ [QUOTE] ++ sample ++ [QUOTE]
  ++ lit " appears more than once in your input tables.".

(** Lines 330-333.  The dictionary is modified in place: the first
    component is the dictionary as the loop leaves it, also when it
    raises. *)
Fixpoint add_samples (path : pystr) (samples : list pystr) (targetDict : fdict)
  : fdict * result unit :=
  match samples with
  | [] => (targetDict, Ok tt)
  | sample :: rest =>
      if Dict.mem sample targetDict
      then (targetDict, Raise (Exception (duplicate_message path sample)))
      else add_samples path rest (Dict.set sample Dict.empty targetDict)
  end.

(** Lines 337-338: [targetDict[sample][feature] = value] over the zip. *)
Fixpoint add_values (feature : pystr) (pairs : list (pystr * pystr))
  (targetDict : fdict) : fdict * result unit :=
  match pairs with
  | [] => (targetDict, Ok tt)
  | (sample, value) :: rest =>
      match Dict.get sample targetDict with
      | Some inner =>
          add_values feature rest
            (Dict.set sample (Dict.set feature value inner) targetDict)
      | None => (targetDict, Raise (KeyError [sample]))
      end
  end.

(** Lines 334-338.  [line[0]] exists since [split] never returns an empty
    list. *)
Fixpoint add_lines (samples : list pystr) (lines : list pystr)
  (targetDict : fdict) : fdict * result unit :=
  match lines with
  | [] => (targetDict, Ok tt)
  | line :: rest =>
      let line := split TAB (strip line) in
      let feature := hd [] line in
      match add_values feature (combine samples (tl line)) targetDict with
      | (d, Ok _) => add_lines samples rest d
      | (d, Raise e) => (d, Raise e)
      end
  end.

(** The header's sample names (line 329); [readline] gives the empty
    string at the end of the file. *)
Definition header_samples (lines : list pystr) : list pystr :=
  split TAB (strip (hd [] lines)).

Definition parse_table (files : filesystem) (path : pystr) (targetDict : fdict)
  : fdict * result (list pystr) :=
  match fs_file files path with
  | None => (targetDict, Raise (FileNotFoundError path))
  | Some lines =>
      let samples := header_samples lines in
      match add_samples path samples targetDict with
      | (d, Raise e) => (d, Raise e)
      | (d, Ok _) =>
          match add_lines samples (tl lines) d with
          | (d', Ok _) => (d', Ok samples)
          | (d', Raise e) => (d', Raise e)
          end
      end
  end.

(** The dictionaries [main] passes to [parse_table]. *)
Inductive slot :=
| Tax (f : filter_t) (r : rank_t)
| Fun (m : fmethod) (c : metric)
| Custom (method counts : pystr).

Definition slot_get (s : slot) (st : state) : result fdict :=
  match s with
  | Tax f r => Ok (taxa st f r)
  | Fun m c => Ok (funs st m c)
  | Custom method counts =>
      match getitem (customFunMethods st) method with
      | Ok inner => getitem inner counts
      | Raise e => Raise e
      end
  end.

Definition slot_set (s : slot) (d : fdict) (st : state) : state :=
  match s with
  | Tax f r =>
      set_taxa (fun f' r' => if filter_eqb f' f && rank_eqb r' r then d
                             else taxa st f' r') st
  | Fun m c =>
      set_funs (fun m' c' => if fmethod_eqb m' m && metric_eqb c' c then d
                             else funs st m' c') st
  | Custom method counts =>
      match Dict.get method (customFunMethods st) with
      | Some inner =>
          set_customFunMethods
            (Dict.set method (Dict.set counts d inner) (customFunMethods st)) st
      | None => st
      end
  end.

(** [parse_table(path, targetDict)] where [targetDict] is the dictionary
    held in [s], which the call modifies in place. *)
Definition parse_table_in (path : pystr) (s : slot) : M (list pystr) :=
  fun st =>
    match slot_get s st with
    | Raise e => (st, Raise e)
    | Ok d =>
        let (d', r) := parse_table (fs st) path d in
        (slot_set s d' st, r)
    end.

(* ================================================================== *)
(** * [write_feature_dict] (lines 342-346) *)

Definition write_feature_dict (sampleNames : list pystr) (featureDict : fdict)
  (outName : pystr) : M unit :=
  df <- lift (feature_frame sampleNames featureDict) ;;
  emit (ToCsv outName df).

(* ================================================================== *)
(** * [main] (lines 61-316) *)

(** What the script gets from its surroundings: the installation directory
    of SqueezeMeta (line 57); [os.mkdir], which gives an [errno] or the file
    system with the new directory; and what running a command does to the
    file system (the source ignores the command's exit status). *)
Record environment := {
  SQMpath : pystr;
  os_mkdir : pystr -> filesystem -> Z + filesystem;
  os_call : list pystr -> filesystem -> filesystem
}.

Definition mkdir (env : environment) (path : pystr) : M unit :=
  fun st =>
    match os_mkdir env path (fs st) with
    | inl errno => (st, Raise (OSError errno path))
    | inr files => (set_log (log st ++ [Mkdir path]) (set_fs files st), Ok tt)
    end.

Definition call (env : environment) (command : list pystr) : M unit :=
  fun st =>
    (set_log (log st ++ [Call command]) (set_fs (os_call env command (fs st)) st),
     Ok tt).

Definition superseded_warning : pystr :=
  lit "combine-sqm-tables.py has been superseded by the `combineSQMlite` function of the `SQMtools` R package. Please consider using that instead".

(** Truth value of [args.paths_file]: [None] and the empty string are
    false. *)
Definition paths_file_given (args : arguments) : option pystr :=
  match paths_file args with
  | Some (c :: f) => Some (c :: f)
  | _ => None
  end.

(** Lines 66-75. *)
Definition check_arguments (args : arguments) : M (list pystr) :=
  match paths_file_given args with
  | Some f =>
      when (match project_paths args with [] => false | _ => true end)
        (print (lit "Project paths were provided directly as arguments and also in a file.") ;;
         print (lit "Using project paths in the file: " ++ [QUOTE] ++ f ++ [QUOTE])) ;;
      lines <- open f ;;
      ret (map strip (filter (fun line => match strip line with
                                          | [] => false | _ => true end) lines))
  | None =>
      match project_paths args with
      | _ :: _ => ret (project_paths args)
      | [] =>
          print (lit "Project paths were not provided. Exiting...") ;;
          raise (SystemExit 1)
      end
  end.

(** Lines 78-87. *)
Definition create_output_dir (env : environment) (args : arguments) : M unit :=
  fun st =>
    match mkdir env (output_dir args) st with
    | (st', Raise (OSError errno path)) =>
        if negb (errno =? 17)%Z then (st', Raise (OSError errno path))
        else if force_overwrite args then (st', Ok tt)
        else (print ([NL] ++ lit "The directory " ++ output_dir args
                     ++ lit " already exists. Please remove it or use a different output name."
                     ++ [NL]) ;;
              raise (SystemExit 1)) st'
    | other => other
    end.

(** Lines 90-134. *)
Definition define_variables (args : arguments) : M unit :=
  modify (fun st =>
    {| fs := fs st; log := log st;
       sampleNames := [];
       taxa := fun _ _ => Dict.empty;
       funs := fun _ _ => Dict.empty;
       customFunMethods := Dict.empty;
       namesInfo := Dict.empty;
       hasKEGG := true;
       hasCOG := true;
       hasPFAM := negb (sqmreads args) |}).

(** Line 138.  [split] never returns an empty list, so [[-1]] exists. *)
Definition project_name (projPath : pystr) : pystr :=
  last (split SLASH (strip_char SLASH projPath)) [].

(** ['{}/results/tables/{}'.format(projPath, f)] *)
Definition table_path (projPath f : pystr) : pystr :=
  projPath ++ lit "/results/tables/" ++ f.

(** The marker file of a project (lines 140-143). *)
Definition marker_path (args : arguments) (projPath projName : pystr) : pystr :=
  if negb (sqmreads args) then projPath ++ lit "/SqueezeMeta_conf.pl"
  else projPath ++ lit "/" ++ projName ++ lit ".out.mappingstat".

Definition invalid_project_message (projPath : pystr) : pystr :=
  lit "Path " ++ [QUOTE] ++ projPath ++ [QUOTE]
  ++ lit " does not exist, or does not contain a valid SQM project".

(** Lines 139-145. *)
Definition validate_project (args : arguments) (projPath projName : pystr) : M unit :=
  ok <- gets (fun st => isfile (fs st) (marker_path args projPath projName)) ;;
  if negb ok then raise (Exception (invalid_project_message projPath))
  else ret tt.

(** Lines 152-160. *)
Definition table_command (env : environment) (args : arguments) (projPath : pystr)
  : list pystr :=
  let command :=
    if negb (sqmreads args) then
      let command := [SQMpath env ++ lit "/utils/sqm2tables.py"; projPath;
                      projPath ++ lit "/results/tables"] in
      if ignore_unclassified args then command ++ [lit "--ignore_unclassified"]
      else command
    else [SQMpath env ++ lit "/utils/sqmreads2tables.py"; projPath;
          projPath ++ lit "/results/tables"] in
  let command :=
    if trusted_functions args then command ++ [lit "--trusted-functions"]
    else command in
  command ++ [lit "--force-overwrite"].

(** Lines 147-163. *)
Definition create_tables (env : environment) (args : arguments)
  (projPath projName : pystr) : M unit :=
  present <- gets (fun st =>
               isfile (fs st) (table_path projPath (projName ++ lit ".COG.abund.tsv"))) ;;
  if negb present then
    print (lit "Creating tables for project " ++ projName) ;;
    hasResults <- gets (fun st => isdir (fs st) (projPath ++ lit "/results")) ;;
    when (sqmreads args && negb hasResults) (mkdir env (projPath ++ lit "/results")) ;;
    call env (table_command env args projPath)
  else
    print (lit "The " ++ [QUOTE] ++ projPath ++ lit "/results/tables" ++ [QUOTE]
           ++ lit " directory is already present. Skipping...").

Definition metric_suffixes : list pystr :=
  [lit "abund"; lit "tpm"; lit "copyNumber"].

Definition reserved_methods : list pystr :=
  [lit "KO"; lit "COG"; lit "PFAM"; lit "allfilter"; lit "prokfilter";
   lit "nofilter"; lit "orf"; lit "contig"].

(** [d[method][counts] = v] *)
Definition setitem2 {V} (d : Dict.t (Dict.t V)) (method counts : pystr) (v : V)
  : result (Dict.t (Dict.t V)) :=
  match getitem d method with
  | Ok inner => Ok (Dict.set method (Dict.set counts v inner) d)
  | Raise e => Raise e
  end.

(** [customFunMethods[method]] *)
Definition get_method (method : pystr) : M (Dict.t fdict) :=
  fun st => (st, getitem (customFunMethods st) method).

(** [customFunMethods[method][counts] = {}] *)
Definition new_counts (method counts : pystr) : M unit :=
  fun st =>
    match setitem2 (customFunMethods st) method counts Dict.empty with
    | Ok d => (set_customFunMethods d st, Ok tt)
    | Raise e => (st, Raise e)
    end.

(** Line 171. *)
Definition is_custom (method counts : pystr) : bool :=
  str_in counts metric_suffixes && negb (str_in method reserved_methods).

(** Lines 168-178, the body of the loop over the directory listing;
    [custom_thissample] is the loop's local dictionary. *)
Definition discover_file (f : pystr) (custom_thissample : Dict.t (Dict.t pystr))
  : M (Dict.t (Dict.t pystr)) :=
  let fields := split DOT f in
  method <- index_or_raise (index_neg fields 3) ;;
  counts <- index_or_raise (index_neg fields 2) ;;
  if is_custom method counts then
    let custom_thissample :=
      if negb (Dict.mem method custom_thissample)
      then Dict.set method Dict.empty custom_thissample
      else custom_thissample in
    custom_thissample <- lift (setitem2 custom_thissample method counts f) ;;
    known <- gets (fun st => Dict.mem method (customFunMethods st)) ;;
    when (negb known)
      (modify (fun st =>
         set_customFunMethods (Dict.set method Dict.empty (customFunMethods st)) st)) ;;
    inner <- get_method method ;;
    when (negb (Dict.mem counts inner)) (new_counts method counts) ;;
    ret custom_thissample
  else ret custom_thissample.

(** Lines 166-178. *)
Definition discover_custom (projPath : pystr) : M (Dict.t (Dict.t pystr)) :=
  names <- listdir (projPath ++ lit "/results/tables/") ;;
  fold_each names Dict.empty discover_file.

Definition ranks : list rank_t :=
  [superkingdom; phylum; class; order; family; genus; species].

(** The taxonomy tables in the order of lines 181-205 and 262-284. *)
Definition tax_tables : list (filter_t * rank_t) :=
  map (pair allfilter) ranks ++ map (pair prokfilter) ranks
  ++ map (pair nofilter) ranks.

(** ['{rank}.{filter}.abund.tsv'] *)
Definition tax_suffix (k : filter_t * rank_t) : pystr :=
  rank_name (snd k) ++ [DOT] ++ filter_name (fst k) ++ lit ".abund.tsv".

(** ['{method}.{metric}.tsv'] *)
Definition fun_suffix (m : fmethod) (c : metric) : pystr :=
  fmethod_name m ++ [DOT] ++ metric_name c ++ lit ".tsv".

Definition project_table (projPath projName suffix : pystr) : pystr :=
  table_path projPath (projName ++ [DOT] ++ suffix).

Definition parse_tax (projPath projName : pystr) (k : filter_t * rank_t)
  : M (list pystr) :=
  parse_table_in (project_table projPath projName (tax_suffix k))
                 (Tax (fst k) (snd k)).

(** Lines 181-205: the first table gives the project's sample names. *)
Definition parse_taxonomy (projPath projName : pystr) : M unit :=
  samples <- parse_tax projPath projName (allfilter, superkingdom) ;;
  modify (fun st => set_sampleNames (sampleNames st ++ samples) st) ;;
  for_each (tl tax_tables) (fun k => parse_tax projPath projName k ;; ret tt).

Definition parse_fun (projPath projName : pystr) (m : fmethod) (c : metric)
  : M unit :=
  parse_table_in (project_table projPath projName (fun_suffix m c)) (Fun m c) ;;
  ret tt.

Definition missing_message (projPath projName label : pystr) : pystr :=
  lit "Project at " ++ projPath ++ lit "/" ++ projName ++ lit " is missing "
  ++ label
  ++ lit " annotations, so they will be not included in the combined tables".

Definition has_table (projPath projName : pystr) (m : fmethod) (st : state) : bool :=
  isfile (fs st) (project_table projPath projName (fun_suffix m abund)).

(** Lines 207-214. *)
Definition parse_KO (args : arguments) (projPath projName : pystr) : M unit :=
  present <- gets (has_table projPath projName KO) ;;
  if negb present then
    print (missing_message projPath projName (lit "KEGG")) ;;
    modify (set_hasKEGG false)
  else
    parse_fun projPath projName KO abund ;;
    when (negb (sqmreads args))
      (parse_fun projPath projName KO copyNumber ;;
       parse_fun projPath projName KO tpm).

(** Lines 217-224. *)
Definition parse_COG (args : arguments) (projPath projName : pystr) : M unit :=
  present <- gets (has_table projPath projName COG) ;;
  if negb present then
    print (missing_message projPath projName (lit "COG")) ;;
    modify (set_hasCOG false)
  else
    parse_fun projPath projName COG abund ;;
    when (negb (sqmreads args))
      (parse_fun projPath projName COG copyNumber ;;
       parse_fun projPath projName COG tpm).

(** Lines 227-234. *)
Definition parse_PFAM (args : arguments) (projPath projName : pystr) : M unit :=
  when (negb (sqmreads args))
    (present <- gets (has_table projPath projName PFAM) ;;
     if negb present then
       print (missing_message projPath projName (lit "PFAM")) ;;
       modify (set_hasPFAM false)
     else
       parse_fun projPath projName PFAM abund ;;
       parse_fun projPath projName PFAM copyNumber ;;
       parse_fun projPath projName PFAM tpm).

(** Lines 236-238. *)
Definition parse_custom (projPath : pystr) (custom_thissample : Dict.t (Dict.t pystr))
  : M unit :=
  for_each (Dict.items custom_thissample) (fun mi =>
    for_each (Dict.items (snd mi)) (fun cf =>
      parse_table_in (table_path projPath (snd cf)) (Custom (fst mi) (fst cf)) ;;
      ret tt)).

(** Lines 241-244 and 310-313. *)
Definition allMethods (st : state) : list pystr :=
  (if hasKEGG st then [lit "KO"] else [])
  ++ (if hasCOG st then [lit "COG"] else [])
  ++ Dict.keys (customFunMethods st).

Definition has_path (method : pystr) : bool :=
  str_in method [lit "KO"; lit "COG"].

(** [namesInfo[method][column][key] = value] *)
Definition set_name (method column key value : pystr) : M unit :=
  fun st =>
    match getitem (namesInfo st) method with
    | Raise e => (st, Raise e)
    | Ok info =>
        match getitem info column with
        | Raise e => (st, Raise e)
        | Ok d =>
            (set_namesInfo
               (Dict.set method (Dict.set column (Dict.set key value d) info)
                         (namesInfo st)) st,
             Ok tt)
        end
    end.

(** [namesInfo[method]] *)
Definition get_info (method : pystr) : M fdict :=
  fun st => (st, getitem (namesInfo st) method).

(** Lines 251-254, for one line of a names table.  The right-hand side of
    an assignment is evaluated before the subscripts of its target. *)
Definition add_name (method line : pystr) : M unit :=
  let line := split TAB (strip_char NL line) in
  name <- index_or_raise (index_pos line 1) ;;
  key <- index_or_raise (index_pos line 0) ;;
  set_name method (lit "Name") key name ;;
  info <- get_info method ;;
  when (Dict.mem (lit "Path") info)
    (path <- index_or_raise (index_pos line 2) ;;
     key <- index_or_raise (index_pos line 0) ;;
     set_name method (lit "Path") key path).

Definition names_path (projPath projName method : pystr) : pystr :=
  table_path projPath (projName ++ [DOT] ++ method ++ lit ".names.tsv").

(** Lines 246-254, for one method. *)
Definition add_names_of (projPath projName method : pystr) : M unit :=
  known <- gets (fun st => Dict.mem method (namesInfo st)) ;;
  when (negb known)
    (modify (fun st =>
       set_namesInfo
         (Dict.set method
            (if has_path method
             then [(lit "Name", Dict.empty); (lit "Path", Dict.empty)]
             else [(lit "Name", Dict.empty)])
            (namesInfo st)) st)) ;;
  infile <- open (names_path projPath projName method) ;;
  for_each (tl infile) (add_name method).

(** Lines 240-254. *)
Definition add_names (projPath projName : pystr) : M unit :=
  methods <- gets allMethods ;;
  for_each methods (add_names_of projPath projName).

(** Lines 180-254. *)
Definition read_tables (args : arguments) (projPath projName : pystr)
  (custom_thissample : Dict.t (Dict.t pystr)) : M unit :=
  parse_taxonomy projPath projName ;;
  parse_KO args projPath projName ;;
  parse_COG args projPath projName ;;
  parse_PFAM args projPath projName ;;
  parse_custom projPath custom_thissample ;;
  add_names projPath projName.

(** Lines 165-254: everything that reads the project's tables. *)
Definition read_project (args : arguments) (projPath projName : pystr) : M unit :=
  custom_thissample <- discover_custom projPath ;;
  read_tables args projPath projName custom_thissample.

(** Lines 138-254, the body of the loop over the projects. *)
Definition process_project (env : environment) (args : arguments) (projPath : pystr)
  : M unit :=
  let projName := project_name projPath in
  validate_project args projPath projName ;;
  create_tables env args projPath projName ;;
  read_project args projPath projName.

(** Line 260. *)
Definition out_prefix (args : arguments) : pystr :=
  output_dir args ++ lit "/" ++ output_prefix args ++ lit ".".

Definition write_tax (args : arguments) (k : filter_t * rank_t) : M unit :=
  names <- gets sampleNames ;;
  d <- gets (fun st => taxa st (fst k) (snd k)) ;;
  write_feature_dict names d (out_prefix args ++ tax_suffix k).

Definition write_fun (args : arguments) (m : fmethod) (c : metric) : M unit :=
  names <- gets sampleNames ;;
  d <- gets (fun st => funs st m c) ;;
  write_feature_dict names d (out_prefix args ++ fun_suffix m c).

(** Lines 262-301. *)
Definition write_standard (args : arguments) : M unit :=
  for_each tax_tables (write_tax args) ;;
  kegg <- gets hasKEGG ;;
  when kegg
    (write_fun args KO abund ;;
     when (negb (sqmreads args))
       (write_fun args KO copyNumber ;; write_fun args KO tpm)) ;;
  cog <- gets hasCOG ;;
  when cog
    (write_fun args COG abund ;;
     when (negb (sqmreads args))
       (write_fun args COG copyNumber ;; write_fun args COG tpm)) ;;
  pfam <- gets hasPFAM ;;
  when (negb (sqmreads args) && pfam)
    (write_fun args PFAM abund ;;
     write_fun args PFAM copyNumber ;;
     write_fun args PFAM tpm).

(** Line 305: [[s for s in sampleNames if s in d]] *)
Definition custom_sampleNames (names : list pystr) (d : fdict) : list pystr :=
  filter (fun s => Dict.mem s d) names.

(** Lines 303-306. *)
Definition write_custom (args : arguments) : M unit :=
  methods <- gets customFunMethods ;;
  for_each (Dict.items methods) (fun mi =>
    for_each (Dict.items (snd mi)) (fun cd =>
      names <- gets sampleNames ;;
      write_feature_dict (custom_sampleNames names (snd cd)) (snd cd)
        (out_prefix args ++ fst mi ++ [DOT] ++ fst cd ++ lit ".tsv"))).

(** Lines 309-316. *)
Definition write_names (args : arguments) : M unit :=
  methods <- gets allMethods ;;
  for_each methods (fun method =>
    let columns := if has_path method then [lit "Name"; lit "Path"]
                   else [lit "Name"] in
    info <- get_info method ;;
    write_feature_dict columns info (out_prefix args ++ method ++ lit ".names.tsv")).

(** Lines 259-316. *)
Definition write_combined (args : arguments) : M unit :=
  write_standard args ;;
  write_custom args ;;
  write_names args.

(** Lines 137-316, for the project paths [projPaths]. *)
Definition combine_tables (env : environment) (args : arguments)
  (projPaths : list pystr)
  : M unit :=
  for_each projPaths (process_project env args) ;;
  write_combined args.

Definition main (env : environment) (args : arguments) : M unit :=
  emit (Warn superseded_warning) ;;
  projPaths <- check_arguments args ;;
  create_output_dir env args ;;
  define_variables args ;;
  combine_tables env args projPaths.

(** Lines 365-370; [documentation] is the docstring of the module. *)
Definition script (env : environment) (documentation : pystr) (args : arguments)
  : M unit :=
  if doc args then print documentation else main env args.

(* ================================================================== *)
(** * Notions the properties are stated with *)

(** The value stored for sample [s] and feature [f], if any. *)
Definition stored (d : fdict) (s f : pystr) : option pystr :=
  match Dict.get s d with
  | Some inner => Dict.get f inner
  | None => None
  end.

(** [f] is a feature ID of some sample of the map. *)
Definition feature_of (d : fdict) (f : pystr) : Prop :=
  exists kv, In kv d /\ In f (Dict.keys (snd kv)).

Definition str_le (a b : pystr) : Prop := str_leb a b = true.

(** The same command line with other positional project paths. *)
Definition with_project_paths (paths : list pystr) (args : arguments) : arguments :=
  {| project_paths := paths; paths_file := paths_file args;
     output_dir := output_dir args; output_prefix := output_prefix args;
     trusted_functions := trusted_functions args;
     ignore_unclassified := ignore_unclassified args;
     sqmreads := sqmreads args; force_overwrite := force_overwrite args;
     doc := doc args |}.

(** The project paths a paths file gives: its lines stripped, blank lines
    skipped. *)
Definition paths_of_lines (lines : list pystr) : list pystr :=
  map strip (filter (fun line => match strip line with
                                 | [] => false | _ => true end) lines).

(** The COG abundance table, whose absence starts the table generator
    (line 148). *)
Definition cog_table (projPath : pystr) : pystr :=
  table_path projPath (project_name projPath ++ lit ".COG.abund.tsv").

(** The file system once [results] exists (lines 150-151): [None] when
    [mkdir] fails. *)
Definition results_ready (env : environment) (args : arguments) (projPath : pystr)
  (files : filesystem) : option filesystem :=
  if sqmreads args && negb (isdir files (projPath ++ lit "/results")) then
    match os_mkdir env (projPath ++ lit "/results") files with
    | inr files' => Some files'
    | inl _ => None
    end
  else Some files.

(** What is printed and created before the generator is called. *)
Definition generation_prelude (args : arguments) (projPath : pystr)
  (files : filesystem) : list event :=
  Print (lit "Creating tables for project " ++ project_name projPath)
  :: (if sqmreads args && negb (isdir files (projPath ++ lit "/results"))
      then [Mkdir (projPath ++ lit "/results")] else []).

(** The generator's command line, spelled out. *)
Definition generator_command (env : environment) (args : arguments)
  (projPath : pystr) : list pystr :=
  [SQMpath env ++ (if sqmreads args then lit "/utils/sqmreads2tables.py"
                   else lit "/utils/sqm2tables.py");
   projPath; projPath ++ lit "/results/tables"]
  ++ (if negb (sqmreads args) && ignore_unclassified args
      then [lit "--ignore_unclassified"] else [])
  ++ (if trusted_functions args then [lit "--trusted-functions"] else [])
  ++ [lit "--force-overwrite"].

(** The file system a project's tables are read from: the one the project
    is met with when its COG table exists, and else the one the table
    generator leaves. *)
Definition prepare (env : environment) (args : arguments) (projPath : pystr)
  (files : filesystem) : filesystem :=
  if isfile files (cog_table projPath) then files
  else match results_ready env args projPath files with
       | Some files' => os_call env (generator_command env args projPath) files'
       | None => files
       end.

(** The (method, metric suffix) pair of a file name (lines 168-170);
    [None] when the name has fewer than three dot-separated fields. *)
Definition decompose (f : pystr) : option (pystr * pystr) :=
  match index_neg (split DOT f) 3, index_neg (split DOT f) 2 with
  | Some method, Some counts => Some (method, counts)
  | _, _ => None
  end.

(** What lines 175-178 do to [customFunMethods]. *)
Definition register (method counts : pystr) (methods : Dict.t (Dict.t fdict))
  : Dict.t (Dict.t fdict) :=
  let methods :=
    if Dict.mem method methods then methods
    else Dict.set method Dict.empty methods in
  match Dict.get method methods with
  | Some inner =>
      if Dict.mem counts inner then methods
      else Dict.set method (Dict.set counts Dict.empty inner) methods
  | None => methods
  end.

(** The pair (method, counts) is registered in [customFunMethods]. *)
Definition registered (method counts : pystr) (methods : Dict.t (Dict.t fdict))
  : Prop :=
  exists inner, Dict.get method methods = Some inner
                /\ Dict.mem counts inner = true.

(** The sample names a project contributes: the header of its
    [superkingdom.allfilter] table (line 181). *)
Definition project_samples (files : filesystem) (projPath : pystr) : list pystr :=
  match fs_file files (project_table projPath (project_name projPath)
                         (tax_suffix (allfilter, superkingdom))) with
  | Some lines => header_samples lines
  | None => []
  end.

(** The order in which sample names are met: project after project, each
    on the file system its predecessors (and its own table generation)
    left. *)
Fixpoint encounter_order (env : environment) (args : arguments)
  (projPaths : list pystr) (files : filesystem) : list pystr :=
  match projPaths with
  | [] => []
  | p :: rest =>
      let files' := prepare env args p files in
      project_samples files' p ++ encounter_order env args rest files'
  end.

(** Every project has the abundance table of method [m] when it is
    read. *)
Fixpoint all_present (env : environment) (args : arguments) (m : fmethod)
  (projPaths : list pystr) (files : filesystem) : bool :=
  match projPaths with
  | [] => true
  | p :: rest =>
      let files' := prepare env args p files in
      isfile files' (project_table p (project_name p) (fun_suffix m abund))
      && all_present env args m rest files'
  end.

(** The file system after the tables of all the projects were prepared. *)
Fixpoint prepare_all (env : environment) (args : arguments)
  (projPaths : list pystr) (files : filesystem) : filesystem :=
  match projPaths with
  | [] => files
  | p :: rest => prepare_all env args rest (prepare env args p files)
  end.

(** The presence flag of a method. *)
Definition flag (m : fmethod) (st : state) : bool :=
  match m with
  | KO => hasKEGG st
  | COG => hasCOG st
  | PFAM => hasPFAM st
  end.

(** The tables written by a sequence of events. *)
Definition tables_written (evs : list event) : list (pystr * DataFrame) :=
  flat_map (fun e => match e with ToCsv n df => [(n, df)] | _ => [] end) evs.

(** The shape of [customFunMethods]: distinct keys; method names without
    dots and not reserved; metric suffixes among the three. *)
Definition custom_ok (methods : Dict.t (Dict.t fdict)) : Prop :=
  NoDup (Dict.keys methods)
  /\ forall method inner, In (method, inner) methods ->
       ~ In DOT method
       /\ str_in method reserved_methods = false
       /\ NoDup (Dict.keys inner)
       /\ forall counts, In counts (Dict.keys inner) -> In counts metric_suffixes.

(** [preserves I m]: when [I] holds before [m], it holds after, whether
    [m] returns or raises. *)
Definition preserves {A} (I : state -> Prop) (m : M A) : Prop :=
  forall st st' r, I st -> m st = (st', r) -> I st'.

(** [keeps k c p s st0 st]: [st] has the file system of [st0] and, where
    the switch is on, its KEGG, COG and PFAM flags and its sample names. *)
Definition keeps (k c p s : bool) (st0 st : state) : Prop :=
  fs st = fs st0
  /\ (k = true -> hasKEGG st = hasKEGG st0)
  /\ (c = true -> hasCOG st = hasCOG st0)
  /\ (p = true -> hasPFAM st = hasPFAM st0)
  /\ (s = true -> sampleNames st = sampleNames st0).

(** The tables lines 262-316 may write in a state, and the columns they
    come with: a taxonomy table or the table of an annotation whose flag is
    set, with the sample names as columns; the table of a registered custom
    pair, with the sample names of its feature map; a names table of one of
    [allMethods]. *)
Inductive table_of (args : arguments) (st : state) : pystr -> DataFrame -> Prop :=
| T_tax (k : filter_t * rank_t) (df : DataFrame) :
    In k tax_tables ->
    col_labels df = sampleNames st ->
    table_of args st (out_prefix args ++ tax_suffix k) df
| T_fun (m : fmethod) (c : metric) (df : DataFrame) :
    flag m st = true ->
    col_labels df = sampleNames st ->
    table_of args st (out_prefix args ++ fun_suffix m c) df
| T_custom (method : pystr) (inner : Dict.t fdict) (counts : pystr) (d : fdict)
    (df : DataFrame) :
    In (method, inner) (customFunMethods st) ->
    In (counts, d) inner ->
    col_labels df = custom_sampleNames (sampleNames st) d ->
    table_of args st (out_prefix args ++ method ++ [DOT] ++ counts ++ lit ".tsv") df
| T_names (method : pystr) (df : DataFrame) :
    In method (allMethods st) ->
    table_of args st (out_prefix args ++ method ++ lit ".names.tsv") df.

Definition written_by (args : arguments) (st : state) (e : event) : Prop :=
  exists out df, e = ToCsv out df /\ table_of args st out df.

(** [emits args st0 m]: from a state that differs from [st0] in its log
    only, [m] changes nothing but the log, and appends tables of [st0]. *)
Definition emits {A} (args : arguments) (st0 : state) (m : M A) : Prop :=
  forall L st' r, m (set_log L st0) = (st', r) ->
    exists evs, st' = set_log (L ++ evs) st0
                /\ Forall (written_by args st0) evs.

(** The last two fields of the names of a category's output files. *)
Definition category_endings : list pystr :=
  [lit "abund.tsv"; lit "copyNumber.tsv"; lit "tpm.tsv"; lit "names.tsv"].

(** The fields of a data row of a table (line 335). *)
Definition row_fields (line : pystr) : list pystr := split TAB (strip line).

(** The messages of lines 74 and 86. *)
Definition no_paths_message : pystr :=
  lit "Project paths were not provided. Exiting...".

Definition directory_exists_message (args : arguments) : pystr :=
  [NL] ++ lit "The directory " ++ output_dir args
  ++ lit " already exists. Please remove it or use a different output name."
  ++ [NL].

Definition is_print (e : event) : Prop := exists msg, e = Print msg.

(** [quiet st0 st]: [st] has the file system of [st0], and its log is that
    of [st0] followed by printed messages only. *)
Definition quiet (st0 st : state) : Prop :=
  fs st = fs st0
  /\ exists evs, log st = log st0 ++ evs /\ Forall is_print evs.

(** The writing of a table without rows and columns. *)
Definition is_empty_table (e : event) : bool :=
  match e with
  | ToCsv _ df =>
      match df_index df, df_columns df with
      | [], [] => true
      | _, _ => false
      end
  | _ => false
  end.

(** The dictionary of the first table a project is read from,
    [all_superkingdom] (line 181). *)
Definition first_slot (s : slot) : bool :=
  match s with
  | Tax allfilter superkingdom => true
  | _ => false
  end.

(** The sample names are the keys of [all_superkingdom], and distinct. *)
Definition registry (st : state) : Prop :=
  sampleNames st = Dict.keys (taxa st allfilter superkingdom)
  /\ NoDup (sampleNames st).

(** [namesInfo[method][column][key]], when it is there. *)
Definition name_of (st : state) (method column key : pystr) : option pystr :=
  match Dict.get method (namesInfo st) with
  | Some info => stored info column key
  | None => None
  end.

(** The fields of a line of a names table (line 251). *)
Definition name_fields (line : pystr) : list pystr :=
  split TAB (strip_char NL line).

(** The metrics a standard annotation is written with (lines 286-296). *)
Definition metrics_written (args : arguments) : list metric :=
  if sqmreads args then [abund] else [abund; copyNumber; tpm].

(** The names of the files lines 262-316 write in a state, in the order
    they are written. *)
Definition standard_outputs (args : arguments) (st : state) : list pystr :=
  map tax_suffix tax_tables
  ++ (if hasKEGG st then map (fun_suffix KO) (metrics_written args) else [])
  ++ (if hasCOG st then map (fun_suffix COG) (metrics_written args) else [])
  ++ (if negb (sqmreads args) && hasPFAM st
      then map (fun_suffix PFAM) [abund; copyNumber; tpm] else []).

Definition custom_outputs (st : state) : list pystr :=
  flat_map (fun mi => map (fun cd => fst mi ++ [DOT] ++ fst cd ++ lit ".tsv")
                          (Dict.items (snd mi)))
           (Dict.items (customFunMethods st)).

Definition names_outputs (st : state) : list pystr :=
  map (fun method => method ++ lit ".names.tsv") (allMethods st).

Definition outputs (args : arguments) (st : state) : list pystr :=
  map (app (out_prefix args))
      (standard_outputs args st ++ custom_outputs st ++ names_outputs st).

(** The events of writing tables. *)
Definition table_events (tables : list (pystr * DataFrame)) : list event :=
  map (fun t => ToCsv (fst t) (snd t)) tables.

(** [writes st0 m outs]: from a state that differs from [st0] in its log
    only, [m] changes nothing but the log, to which it appends the writing
    of tables named by the first names of [outs], and by all of them when
    it returns. *)
Definition writes {A} (st0 : state) (m : M A) (outs : list pystr) : Prop :=
  forall L st' r, m (set_log L st0) = (st', r) ->
    exists tables,
      st' = set_log (L ++ table_events tables) st0
      /\ (exists rest, outs = map fst tables ++ rest)
      /\ (forall a, r = Ok a -> map fst tables = outs).

(* ================================================================== *)
(** * Example projects

    Projects [A] with sample [S1] and [B] with sample [S2], each with the
    21 taxonomy tables and the KO, COG and PFAM tables; project [A] also
    has a table of the custom method [MyMethod]; project [N] with sample
    [S3] lacks the KO tables. *)

Definition fs_of (files dirs : Dict.t (list pystr)) : filesystem :=
  {| fs_file := fun p => Dict.get p files;
     fs_dir := fun p => Dict.get p dirs |}.

(** A line of a table: tab-separated fields and a newline. *)
Fixpoint tsv_line (fields : list pystr) : pystr :=
  match fields with
  | [] => [NL]
  | [x] => x ++ [NL]
  | x :: rest => x ++ [TAB] ++ tsv_line rest
  end.

(** A table with one sample and one feature. *)
Definition one_sample_table (sample feature value : pystr) : list pystr :=
  [tsv_line [[]; sample]; tsv_line [feature; value]].

Definition example_files (p sample : pystr) (annotations custom : list pystr)
  : Dict.t (list pystr) :=
  [(p ++ lit "/SqueezeMeta_conf.pl", [])]
  ++ map (fun k => (project_table p p (tax_suffix k),
                    one_sample_table sample (lit "Bacteria") (lit "5")))
         tax_tables
  ++ flat_map (fun m =>
       [(project_table p p (m ++ lit ".abund.tsv"),
         one_sample_table sample (m ++ lit "0001") (lit "7"));
        (project_table p p (m ++ lit ".copyNumber.tsv"),
         one_sample_table sample (m ++ lit "0001") (lit "0.5"));
        (project_table p p (m ++ lit ".tpm.tsv"),
         one_sample_table sample (m ++ lit "0001") (lit "12.25"));
        (names_path p p m,
         [tsv_line [[]; lit "Name"; lit "Path"];
          tsv_line [m ++ lit "0001"; lit "some name"; lit "a; b"]])])
       annotations
  ++ flat_map (fun m =>
       [(project_table p p (m ++ lit ".abund.tsv"),
         one_sample_table sample (m ++ lit "0001") (lit "7"));
        (names_path p p m,
         [tsv_line [[]; lit "Name"];
          tsv_line [m ++ lit "0001"; lit "custom name"]])])
       custom.

(** The names of the files of the project's table directory. *)
Definition example_listing (p : pystr) (files : Dict.t (list pystr)) : list pystr :=
  let pre := p ++ lit "/results/tables/" in
  flat_map (fun kv =>
              if str_eqb (firstn (List.length pre) (fst kv)) pre
              then [skipn (List.length pre) (fst kv)] else [])
           files.

(** An environment where [mkdir] fails with [EEXIST] on an existing path
    and the table generator, called for the project at [p], writes the
    tables of a project with the one sample [S_p]. *)
Definition example_env : environment :=
  {| SQMpath := lit "/opt/SqueezeMeta";
     os_mkdir := fun p files =>
       if isdir files p || isfile files p then inl 17%Z
       else inr {| fs_file := fs_file files;
                   fs_dir := fun q => if str_eqb q p then Some []
                                      else fs_dir files q |};
     os_call := fun command files =>
       match command with
       | _ :: p :: _ =>
           let generated :=
             example_files p (lit "S_" ++ p) [lit "KO"; lit "COG"; lit "PFAM"] [] in
           {| fs_file := fun q => match Dict.get q generated with
                                  | Some l => Some l
                                  | None => fs_file files q
                                  end;
              fs_dir := fun q =>
                if str_eqb q (p ++ lit "/results/tables/")
                then Some (example_listing p generated)
                else fs_dir files q |}
       | _ => files
       end |}.

Definition example_A : Dict.t (list pystr) :=
  example_files (lit "A") (lit "S1") [lit "KO"; lit "COG"; lit "PFAM"]
                [lit "MyMethod"].

Definition example_B : Dict.t (list pystr) :=
  example_files (lit "B") (lit "S2") [lit "KO"; lit "COG"; lit "PFAM"] [].

(** Project [N] has no KO tables. *)
Definition example_N : Dict.t (list pystr) :=
  example_files (lit "N") (lit "S3") [lit "COG"; lit "PFAM"] [].

(** [projects.txt] lists the two projects, with a blank line between;
    project [E] has no tables yet; the table directory of [R] holds a
    [README]. *)
Definition example_fs : filesystem :=
  fs_of ((lit "projects.txt", [lit "A" ++ [NL]; [NL]; lit " B " ++ [NL]])
         :: (lit "E/SqueezeMeta_conf.pl", [])
         :: example_A ++ example_B ++ example_N)
        [(lit "A/results/tables/", example_listing (lit "A") example_A);
         (lit "B/results/tables/", example_listing (lit "B") example_B);
         (lit "N/results/tables/", example_listing (lit "N") example_N);
         (lit "R/results/tables/", [lit "README"; lit "R.MyMethod.abund.tsv"])].

Definition example_args (paths : list pystr) (reads : bool) : arguments :=
  {| project_paths := paths; paths_file := None;
     output_dir := lit "combined"; output_prefix := lit "combined";
     trusted_functions := false; ignore_unclassified := false;
     sqmreads := reads; force_overwrite := false; doc := false |}.

Definition example_file_args : arguments :=
  {| project_paths := [lit "C"]; paths_file := Some (lit "projects.txt");
     output_dir := lit "combined"; output_prefix := lit "combined";
     trusted_functions := false; ignore_unclassified := false;
     sqmreads := false; force_overwrite := false; doc := false |}.

(** The state in which the script starts on the file system [files]. *)
Definition start_state (files : filesystem) : state :=
  {| fs := files; log := []; sampleNames := [];
     taxa := fun _ _ => Dict.empty; funs := fun _ _ => Dict.empty;
     customFunMethods := Dict.empty; namesInfo := Dict.empty;
     hasKEGG := true; hasCOG := true; hasPFAM := true |}.

(* ================================================================== *)
(** * Strings and dictionaries: basic facts *)

Lemma str_eqb_eq (a b : pystr) : str_eqb a b = true <-> a = b.
Proof.
  revert b. induction a as [|x a IH]; intros [|y b]; simpl; split;
    try congruence; try discriminate.
  - intros H. apply andb_true_iff in H as [Hx Hab].
    apply N.eqb_eq in Hx. apply IH in Hab. congruence.
  - intros H. injection H as -> ->. rewrite N.eqb_refl. simpl. now apply IH.
Qed.

Lemma str_eqb_refl (a : pystr) : str_eqb a a = true.
Proof. now apply str_eqb_eq. Qed.

Lemma str_eqb_neq (a b : pystr) : str_eqb a b = false <-> a <> b.
Proof.
  split.
  - intros H E. apply str_eqb_eq in E. congruence.
  - intros H. destruct (str_eqb a b) eqn:E; auto.
    apply str_eqb_eq in E. contradiction.
Qed.

Lemma str_eqb_sym (a b : pystr) : str_eqb a b = str_eqb b a.
Proof.
  destruct (str_eqb a b) eqn:E.
  - apply str_eqb_eq in E. subst. now rewrite str_eqb_refl.
  - symmetry. apply str_eqb_neq. apply str_eqb_neq in E. congruence.
Qed.

Lemma str_in_In (x : pystr) (l : list pystr) : str_in x l = true <-> In x l.
Proof.
  unfold str_in. rewrite existsb_exists. split.
  - intros [y [Hy E]]. apply str_eqb_eq in E. now subst.
  - intros H. exists x. split; auto. apply str_eqb_refl.
Qed.

Lemma str_in_false (x : pystr) (l : list pystr) : str_in x l = false <-> ~ In x l.
Proof.
  rewrite <- str_in_In. destruct (str_in x l); split; congruence.
Qed.

Lemma split_not_nil (sep : pychar) (s : pystr) : split sep s <> [].
Proof.
  destruct s as [|c s]; simpl; try discriminate.
  destruct (N.eqb c sep); try discriminate.
  destruct (split sep s); discriminate.
Qed.

(** No field of a split contains the separator. *)
Lemma split_fields_free (sep : pychar) (s : pystr) :
  Forall (fun w => ~ In sep w) (split sep s).
Proof.
  induction s as [|c s IH]; simpl.
  - constructor; auto.
  - destruct (N.eqb_spec c sep) as [E|E].
    + constructor; auto.
    + destruct (split sep s) as [|w ws].
      * constructor; auto. simpl. intros [H|[]]. congruence.
      * inversion IH; subst. constructor; auto.
        simpl. intros [H|H]; [congruence | contradiction].
Qed.

(** A separator-free prefix is the first field. *)
Lemma split_app_sep (sep : pychar) (m r : pystr) :
  ~ In sep m -> split sep (m ++ sep :: r) = m :: split sep r.
Proof.
  induction m as [|c m IH]; simpl; intros H.
  - now rewrite N.eqb_refl.
  - destruct (N.eqb_spec c sep) as [E|E].
    + exfalso. apply H. now left.
    + rewrite IH; auto.
Qed.

Lemma split_free (sep : pychar) (m : pystr) :
  ~ In sep m -> split sep m = [m].
Proof.
  induction m as [|c m IH]; simpl; intros H; auto.
  destruct (N.eqb_spec c sep) as [E|E].
  - exfalso. apply H. now left.
  - rewrite IH; auto.
Qed.

Lemma index_neg_In {A} (l : list A) (k : nat) (x : A) :
  index_neg l k = Some x -> In x l.
Proof.
  unfold index_neg. destruct (_ && _); try discriminate.
  apply nth_error_In.
Qed.

Lemma index_neg_some {A} (l : list A) (k : nat) :
  1 <= k <= List.length l -> exists x, index_neg l k = Some x.
Proof.
  intros [H1 H2]. unfold index_neg.
  assert (Nat.leb k (List.length l) && Nat.leb 1 k = true) as ->.
  { apply andb_true_iff. split; now apply Nat.leb_le. }
  destruct (nth_error l (List.length l - k)) eqn:E; eauto.
  apply nth_error_None in E. lia.
Qed.

Lemma index_neg_none {A} (l : list A) (k : nat) :
  List.length l < k -> index_neg l k = None.
Proof.
  intros H. unfold index_neg.
  destruct (Nat.leb_spec k (List.length l)); auto. lia.
Qed.

Module DictFacts.

Lemma get_set_same {V} (k : pystr) (v : V) (d : Dict.t V) :
  Dict.get k (Dict.set k v d) = Some v.
Proof.
  induction d as [|[k' v'] d IH]; simpl.
  - now rewrite str_eqb_refl.
  - destruct (str_eqb k k') eqn:E; simpl; rewrite E; auto.
Qed.

Lemma get_set_other {V} (k k' : pystr) (v : V) (d : Dict.t V) :
  k <> k' -> Dict.get k' (Dict.set k v d) = Dict.get k' d.
Proof.
  intros Hne. induction d as [|[k0 v0] d IH]; simpl.
  - assert (str_eqb k' k = false) as -> by (apply str_eqb_neq; congruence).
    reflexivity.
  - destruct (str_eqb k k0) eqn:E; simpl.
    + apply str_eqb_eq in E. subst k0.
      assert (str_eqb k' k = false) as -> by (apply str_eqb_neq; congruence).
      reflexivity.
    + destruct (str_eqb k' k0); auto.
Qed.

Lemma mem_get {V} (k : pystr) (d : Dict.t V) :
  Dict.mem k d = true <-> exists v, Dict.get k d = Some v.
Proof.
  unfold Dict.mem. destruct (Dict.get k d); split; eauto; try discriminate.
  intros [v H]. discriminate.
Qed.

Lemma mem_false_get {V} (k : pystr) (d : Dict.t V) :
  Dict.mem k d = false <-> Dict.get k d = None.
Proof.
  unfold Dict.mem. destruct (Dict.get k d); split; congruence.
Qed.

Lemma mem_keys {V} (k : pystr) (d : Dict.t V) :
  Dict.mem k d = true <-> In k (Dict.keys d).
Proof.
  unfold Dict.mem, Dict.keys. induction d as [|[k' v'] d IH]; simpl.
  - split; [discriminate | tauto].
  - destruct (str_eqb k k') eqn:E.
    + apply str_eqb_eq in E. subst. split; auto.
    + apply str_eqb_neq in E. rewrite IH. split; auto.
      intros [H|H]; auto. congruence.
Qed.

Lemma mem_set {V} (k k' : pystr) (v : V) (d : Dict.t V) :
  Dict.mem k' (Dict.set k v d) = str_eqb k' k || Dict.mem k' d.
Proof.
  unfold Dict.mem. destruct (str_eqb k' k) eqn:E; simpl.
  - apply str_eqb_eq in E. subst. now rewrite get_set_same.
  - apply str_eqb_neq in E. rewrite get_set_other; auto.
Qed.

Lemma keys_set {V} (k : pystr) (v : V) (d : Dict.t V) :
  Dict.keys (Dict.set k v d)
  = if Dict.mem k d then Dict.keys d else Dict.keys d ++ [k].
Proof.
  unfold Dict.mem, Dict.keys. induction d as [|[k' v'] d IH]; simpl; auto.
  destruct (str_eqb k k') eqn:E; simpl; auto.
  rewrite IH. destruct (Dict.get k d); auto.
Qed.

Lemma get_In {V} (k : pystr) (v : V) (d : Dict.t V) :
  Dict.get k d = Some v -> In (k, v) d.
Proof.
  induction d as [|[k' v'] d IH]; simpl; try discriminate.
  destruct (str_eqb k k') eqn:E; auto.
  apply str_eqb_eq in E. subst. intros H. injection H as ->. now left.
Qed.

Lemma In_get {V} (k : pystr) (v : V) (d : Dict.t V) :
  NoDup (Dict.keys d) -> In (k, v) d -> Dict.get k d = Some v.
Proof.
  unfold Dict.keys. induction d as [|[k' v'] d IH]; simpl; intros Hnd Hin.
  - contradiction.
  - inversion Hnd as [|? ? Hk' Hnd']; subst.
    destruct Hin as [H|H].
    + injection H as -> ->. now rewrite str_eqb_refl.
    + destruct (str_eqb k k') eqn:E; auto.
      apply str_eqb_eq in E. subst. exfalso. apply Hk'.
      change k' with (fst (k', v)). now apply in_map.
Qed.

Lemma NoDup_keys_set {V} (k : pystr) (v : V) (d : Dict.t V) :
  NoDup (Dict.keys d) -> NoDup (Dict.keys (Dict.set k v d)).
Proof.
  intros H. rewrite keys_set. destruct (Dict.mem k d) eqn:E; auto.
  apply NoDup_app; auto.
  - constructor; auto. constructor.
  - intros x Hx [<-|[]]. apply mem_keys in Hx. congruence.
Qed.

End DictFacts.

(* ================================================================== *)
(** * [parse_table]: duplicate samples *)

Lemma add_samples_keeps (path : pystr) (samples : list pystr) (d : fdict)
  (k : pystr) (v : Dict.t pystr) :
  Dict.get k d = Some v ->
  Dict.get k (fst (add_samples path samples d)) = Some v.
Proof.
  revert d. induction samples as [|s samples IH]; simpl; intros d H; auto.
  destruct (Dict.mem s d) eqn:E; simpl; auto.
  apply IH. rewrite DictFacts.get_set_other; auto.
  intros ->. apply DictFacts.mem_false_get in E. congruence.
Qed.

Lemma add_samples_ok (path : pystr) (samples : list pystr) (d d' : fdict) :
  add_samples path samples d = (d', Ok tt) ->
  (forall s, In s samples -> Dict.mem s d = false)
  /\ (forall s, In s samples -> Dict.mem s d' = true)
  /\ (forall k, Dict.mem k d = true -> Dict.mem k d' = true).
Proof.
  revert d. induction samples as [|s samples IH]; simpl; intros d H.
  - injection H as ->. repeat split; auto. intros s [].
  - destruct (Dict.mem s d) eqn:E; try discriminate.
    apply IH in H as (H1 & H2 & H3).
    assert (Hs : Dict.mem s d' = true).
    { apply H3. rewrite DictFacts.mem_set, str_eqb_refl. reflexivity. }
    repeat split.
    + intros x [<-|Hx]; auto. specialize (H1 x Hx).
      rewrite DictFacts.mem_set in H1. apply orb_false_iff in H1. tauto.
    + intros x [<-|Hx]; auto.
    + intros k Hk. apply H3. rewrite DictFacts.mem_set, Hk. apply orb_true_r.
Qed.

Lemma add_samples_duplicate (path : pystr) (samples : list pystr) (d : fdict) :
  (exists s, In s samples /\ Dict.mem s d = true) ->
  exists pre sample post,
    samples = pre ++ sample :: post
    /\ (Dict.mem sample d = true \/ In sample pre)
    /\ (forall x, In x pre -> Dict.mem x d = false)
    /\ snd (add_samples path samples d)
       = Raise (Exception (duplicate_message path sample)).
Proof.
  revert d. induction samples as [|s0 samples IH]; intros d [s [Hin Hmem]].
  - destruct Hin.
  - simpl. destruct (Dict.mem s0 d) eqn:E.
    + exists [], s0, samples. simpl. repeat split; auto. intros x [].
    + destruct Hin as [<-|Hin]; [congruence|].
      destruct (IH (Dict.set s0 Dict.empty d)) as (pre & sample & post & Hs & Ho & Hp & Hr).
      { exists s. split; auto. rewrite DictFacts.mem_set, Hmem. apply orb_true_r. }
      exists (s0 :: pre), sample, post. subst samples. repeat split; auto.
      * rewrite DictFacts.mem_set in Ho. destruct Ho as [Ho|Ho].
        -- apply orb_true_iff in Ho as [Ho|Ho]; auto.
           apply str_eqb_eq in Ho. subst. right. now left.
        -- right. now right.
      * intros x [<-|Hx]; auto. specialize (Hp x Hx).
        rewrite DictFacts.mem_set in Hp. apply orb_false_iff in Hp. tauto.
Qed.

Lemma add_values_other (feature : pystr) (pairs : list (pystr * pystr))
  (d : fdict) (k : pystr) :
  ~ In k (map fst pairs) ->
  Dict.get k (fst (add_values feature pairs d)) = Dict.get k d.
Proof.
  revert d. induction pairs as [|[s v] pairs IH]; simpl; intros d H; auto.
  destruct (Dict.get s d) eqn:E; simpl; auto.
  rewrite IH by tauto. apply DictFacts.get_set_other. tauto.
Qed.

Lemma In_fst_combine {A B} (a : list A) (b : list B) (x : A) :
  In x (map fst (combine a b)) -> In x a.
Proof.
  intros H. apply in_map_iff in H as [[x' y] [<- H]].
  now apply in_combine_l in H.
Qed.

Lemma add_lines_other (samples lines : list pystr) (d : fdict) (k : pystr) :
  ~ In k samples ->
  Dict.get k (fst (add_lines samples lines d)) = Dict.get k d.
Proof.
  intros Hk. revert d. induction lines as [|line lines IH]; simpl; intros d; auto.
  pose proof (add_values_other (hd [] (split TAB (strip line)))
                (combine samples (tl (split TAB (strip line)))) d k) as Hv.
  destruct (add_values _ _ d) as [d1 [[]|e]]; simpl in *.
  - rewrite IH. apply Hv. intros H. now apply In_fst_combine in H.
  - apply Hv. intros H. now apply In_fst_combine in H.
Qed.

Lemma duplicate_message_names (path sample : pystr) :
  exists a b c, duplicate_message path sample = a ++ path ++ b ++ sample ++ c.
Proof.
  exists (lit "Error where parsing table in " ++ [QUOTE]),
         ([QUOTE] ++ lit ". Sample " ++ [QUOTE]),
         ([QUOTE] ++ lit " appears more than once in your input tables.").
  unfold duplicate_message. repeat rewrite <- app_assoc. reflexivity.
Qed.

(** Whatever [parse_table] does, the entries the dictionary had before
    the call are still there, unchanged. *)
Lemma parse_table_keeps (files : filesystem) (path : pystr) (d : fdict)
  (k : pystr) (v : Dict.t pystr) :
  Dict.get k d = Some v ->
  Dict.get k (fst (parse_table files path d)) = Some v.
Proof.
  intros H. unfold parse_table. destruct (fs_file files path) as [lines|]; auto.
  pose proof (add_samples_keeps path (header_samples lines) d k v H) as Hk.
  destruct (add_samples path (header_samples lines) d) as [d1 [[]|e]] eqn:E;
    simpl in *; auto.
  apply add_samples_ok in E as (Hfresh & _ & _).
  pose proof (add_lines_other (header_samples lines) (tl lines) d1 k) as Hl.
  assert (Hn : ~ In k (header_samples lines)).
  { intros Hin. apply Hfresh in Hin. apply DictFacts.mem_false_get in Hin.
    congruence. }
  destruct (add_lines _ _ d1) as [d2 [[]|e]]; simpl in *; rewrite Hl; auto.
Qed.

(** C1.  When a sample name of the header row is already a key of
    [targetDict], [parse_table] raises an exception whose message contains
    the path and the offending sample: the first name of the header that is
    a key of the dictionary or repeats an earlier name of the header.  In
    every case the entries the dictionary had before the call keep their
    values. *)
Theorem parse_table_duplicate_sample :
  forall (files : filesystem) (path : pystr) (lines : list pystr)
         (targetDict : fdict),
    fs_file files path = Some lines ->
    (forall k v, Dict.get k targetDict = Some v ->
                 Dict.get k (fst (parse_table files path targetDict)) = Some v)
    /\ ((exists s, In s (header_samples lines) /\ Dict.mem s targetDict = true) ->
        exists pre sample post,
          header_samples lines = pre ++ sample :: post
          /\ (Dict.mem sample targetDict = true \/ In sample pre)
          /\ (forall x, In x pre -> Dict.mem x targetDict = false)
          /\ snd (parse_table files path targetDict)
             = Raise (Exception (duplicate_message path sample))
          /\ exists a b c,
               duplicate_message path sample = a ++ path ++ b ++ sample ++ c).
Proof.
  intros files path lines d Hfile. split.
  - intros k v. apply parse_table_keeps.
  - intros Hdup.
    destruct (add_samples_duplicate path _ d Hdup)
      as (pre & sample & post & Hs & Ho & Hp & Hr).
    exists pre, sample, post. repeat split; auto.
    + unfold parse_table. rewrite Hfile.
      destruct (add_samples path (header_samples lines) d) as [d1 r].
      simpl in Hr. subst r. reflexivity.
    + apply duplicate_message_names.
Qed.

Lemma parse_table_duplicate_sample_witness :
  let path := lit "A/results/tables/A.superkingdom.allfilter.abund.tsv" in
  let d : fdict := [(lit "S1", Dict.empty)] in
  (forall k v, Dict.get k d = Some v ->
     Dict.get k (fst (parse_table example_fs path d)) = Some v)
  /\ exists pre sample post,
       [lit "S1"] = pre ++ sample :: post
       /\ (Dict.mem sample d = true \/ In sample pre)
       /\ (forall x, In x pre -> Dict.mem x d = false)
       /\ snd (parse_table example_fs path d)
          = Raise (Exception (duplicate_message path sample))
       /\ exists a b c, duplicate_message path sample = a ++ path ++ b ++ sample ++ c.
Proof.
  intros path d.
  destruct (parse_table_duplicate_sample example_fs path
              (one_sample_table (lit "S1") (lit "Bacteria") (lit "5"))
              d eq_refl) as [Hkeep Hdup].
  split; [exact Hkeep|].
  apply Hdup. exists (lit "S1"). split; [left; reflexivity | reflexivity].
Defined.

(* ================================================================== *)
(** * [write_feature_dict]: the emitted frame *)

Lemma str_leb_refl (a : pystr) : str_leb a a = true.
Proof.
  induction a as [|x a IH]; simpl; auto.
  rewrite N.ltb_irrefl, N.eqb_refl. exact IH.
Qed.

Lemma str_leb_trans (a b c : pystr) :
  str_leb a b = true -> str_leb b c = true -> str_leb a c = true.
Proof.
  revert b c. induction a as [|x a IH]; intros [|y b] [|z c]; simpl; auto;
    try discriminate.
  destruct (N.ltb_spec x y) as [Hxy|Hxy].
  - intros _. destruct (N.ltb_spec y z) as [Hyz|Hyz].
    + intros _. destruct (N.ltb_spec x z); auto. lia.
    + destruct (N.eqb_spec y z) as [->|]; try discriminate.
      intros _. destruct (N.ltb_spec x z); auto. lia.
  - destruct (N.eqb_spec x y) as [->|]; try discriminate.
    intros Hab. destruct (N.ltb_spec y z) as [Hyz|Hyz]; auto.
    destruct (N.eqb_spec y z) as [->|]; try discriminate.
    apply IH. exact Hab.
Qed.

Lemma str_leb_antisym (a b : pystr) :
  str_leb a b = true -> str_leb b a = true -> a = b.
Proof.
  revert b. induction a as [|x a IH]; intros [|y b]; simpl; auto;
    try discriminate.
  destruct (N.ltb_spec x y) as [Hxy|Hxy].
  - intros _. destruct (N.ltb_spec y x); try lia.
    destruct (N.eqb_spec y x); try lia; try discriminate.
  - destruct (N.eqb_spec x y) as [->|]; try discriminate.
    rewrite N.ltb_irrefl, N.eqb_refl. intros H1 H2. f_equal. now apply IH.
Qed.

Lemma In_add_labels (ks acc : list pystr) (f : pystr) :
  In f (fold_left add_label ks acc) <-> In f acc \/ In f ks.
Proof.
  revert acc. induction ks as [|k ks IH]; simpl; intros acc.
  - tauto.
  - rewrite IH. unfold add_label. destruct (str_in k acc) eqn:E.
    + apply str_in_In in E. split; [tauto|].
      intros [H|[<-|H]]; auto.
    + rewrite in_app_iff. simpl. tauto.
Qed.

Lemma NoDup_add_labels (ks acc : list pystr) :
  NoDup acc -> NoDup (fold_left add_label ks acc).
Proof.
  revert acc. induction ks as [|k ks IH]; simpl; intros acc H; auto.
  apply IH. unfold add_label. destruct (str_in k acc) eqn:E; auto.
  apply str_in_false in E. apply NoDup_app; auto.
  - constructor; auto. constructor.
  - intros x Hx [<-|[]]. contradiction.
Qed.

Lemma In_union_keys_acc (d : fdict) (acc : list pystr) (f : pystr) :
  In f (fold_left (fun acc kv => fold_left add_label (Dict.keys (snd kv)) acc) d acc)
  <-> In f acc \/ feature_of d f.
Proof.
  revert acc. induction d as [|kv d IH]; simpl; intros acc.
  - split; auto. intros [H|[kv [[] _]]]. exact H.
  - rewrite IH, In_add_labels. unfold feature_of. split.
    + intros [[H|H]|[kv' [H1 H2]]]; auto.
      * right. exists kv. simpl. auto.
      * right. exists kv'. simpl. auto.
    + intros [H|[kv' [[<-|H1] H2]]]; auto.
      right. exists kv'. auto.
Qed.

Lemma In_union_keys (d : fdict) (f : pystr) :
  In f (union_keys d) <-> feature_of d f.
Proof.
  unfold union_keys. rewrite In_union_keys_acc. simpl. tauto.
Qed.

Lemma NoDup_union_keys (d : fdict) : NoDup (union_keys d).
Proof.
  unfold union_keys. generalize (@NoDup_nil pystr).
  generalize (@nil pystr). induction d as [|kv d IH]; simpl; intros acc H; auto.
  apply IH. now apply NoDup_add_labels.
Qed.

Lemma cell_at_map (g : pystr -> cell) (idx : list pystr) (f : pystr) :
  cell_at idx (map g idx) f = if str_in f idx then Some (g f) else None.
Proof.
  induction idx as [|i idx IH]; simpl; auto.
  destruct (str_eqb f i) eqn:E; simpl.
  - apply str_eqb_eq in E. now subst.
  - exact IH.
Qed.

Lemma find_column_map {V} (g : V -> list cell) (d : Dict.t V) (s : pystr) :
  find_column (map (fun kv => (fst kv, g (snd kv))) d) s
  = option_map g (Dict.get s d).
Proof.
  induction d as [|[k v] d IH]; simpl; auto.
  destruct (str_eqb s k); auto.
Qed.

Lemma find_column_names (h : pystr -> list cell) (names : list pystr) (s : pystr) :
  find_column (map (fun x => (x, h x)) names) s
  = if str_in s names then Some (h s) else None.
Proof.
  induction names as [|n names IH]; simpl; auto.
  destruct (str_eqb s n) eqn:E; simpl; auto.
  apply str_eqb_eq in E. now subst.
Qed.

(** The columns of the sorted, filled frame. *)
Lemma sorted_filled_column (d : fdict) (s : pystr) :
  find_column (df_columns (sort_index (fillna 0 (from_dict d)))) s
  = option_map
      (fun inner =>
         map (fun f => match Dict.get f inner with
                       | Some v => Text v
                       | None => Num 0
                       end)
             (StrSort.sort (union_keys d)))
      (Dict.get s d).
Proof.
  unfold sort_index, fillna, from_dict. simpl.
  rewrite !map_map. simpl.
  rewrite (find_column_map
             (fun inner =>
                map (fun f =>
                       match cell_at (union_keys d)
                               (map (fun x => match x with NaN => Num 0 | _ => x end)
                                    (column_of (union_keys d) inner)) f with
                       | Some x => x
                       | None => NaN
                       end)
                    (StrSort.sort (union_keys d))) d s).
  destruct (Dict.get s d) as [inner|] eqn:E; simpl; auto.
  f_equal. apply map_ext_in. intros f Hf.
  unfold column_of. rewrite map_map, cell_at_map.
  assert (In f (union_keys d)) as Hin.
  { eapply Permutation_in; [apply Permutation_sym, StrSort.Permuted_sort|exact Hf]. }
  apply str_in_In in Hin. rewrite Hin.
  destruct (Dict.get f inner); reflexivity.
Qed.

Lemma select_columns_ok (names : list pystr) (df df' : DataFrame) :
  select_columns names df = Ok df' ->
  df_index df' = df_index df
  /\ df_columns df'
     = map (fun s => (s, match find_column (df_columns df) s with
                         | Some c => c | None => [] end)) names
  /\ forall s, In s names -> find_column (df_columns df) s <> None.
Proof.
  unfold select_columns.
  destruct (filter _ names) as [|m ms] eqn:E; try discriminate.
  intros H. injection H as <-. simpl. repeat split.
  intros s Hs Hnone.
  assert (In s (filter (fun s => match find_column (df_columns df) s with
                                 | Some _ => false | None => true end) names)).
  { apply filter_In. split; auto. now rewrite Hnone. }
  rewrite E in H. destruct H.
Qed.

Lemma select_columns_total (names : list pystr) (df : DataFrame) :
  (forall s, In s names -> find_column (df_columns df) s <> None) ->
  exists df', select_columns names df = Ok df'.
Proof.
  intros H. unfold select_columns.
  destruct (filter _ names) as [|m ms] eqn:E; eauto.
  assert (In m (m :: ms)) as Hm by now left.
  rewrite <- E in Hm. apply filter_In in Hm as [Hin Hm].
  specialize (H m Hin). destruct (find_column (df_columns df) m); congruence.
Qed.

(** What [feature_frame] returns when it returns a frame. *)
Lemma feature_frame_ok (names : list pystr) (d : fdict) (df : DataFrame) :
  feature_frame names d = Ok df ->
  df_index df = StrSort.sort (union_keys d)
  /\ col_labels df = names
  /\ (forall s, In s names -> Dict.mem s d = true)
  /\ Forall (fun c => List.length (snd c) = List.length (df_index df))
            (df_columns df)
  /\ forall f s, In f (df_index df) -> In s names ->
       df_at df f s = Some (match stored d s f with
                            | Some v => Text v
                            | None => Num 0
                            end).
Proof.
  unfold feature_frame. intros H.
  apply select_columns_ok in H as (Hidx & Hcols & Hall).
  assert (Hmem : forall s, In s names -> Dict.mem s d = true).
  { intros s Hs. specialize (Hall s Hs). rewrite sorted_filled_column in Hall.
    unfold Dict.mem. destruct (Dict.get s d); auto. }
  repeat split; auto.
  - unfold col_labels. rewrite Hcols, map_map. simpl. apply map_id.
  - rewrite Hcols, Hidx. apply Forall_forall. intros c Hc.
    apply in_map_iff in Hc as [s [<- Hs]]. cbn [snd].
    rewrite sorted_filled_column.
    specialize (Hmem s Hs). apply DictFacts.mem_get in Hmem as [inner ->].
    simpl. now rewrite length_map.
  - intros f s Hf Hs. unfold df_at. rewrite Hcols, Hidx.
    rewrite (find_column_names
               (fun s => match find_column
                                 (df_columns (sort_index (fillna 0 (from_dict d)))) s with
                         | Some c => c | None => [] end) names s).
    apply str_in_In in Hs. rewrite Hs.
    rewrite sorted_filled_column. unfold stored.
    specialize (Hmem s (proj1 (str_in_In _ _) Hs)).
    apply DictFacts.mem_get in Hmem as [inner Hinner]. rewrite Hinner. simpl.
    rewrite cell_at_map. rewrite Hidx in Hf. simpl in Hf.
    apply str_in_In in Hf. rewrite Hf. reflexivity.
Qed.

(** [feature_frame] returns a frame exactly when every requested column is
    a sample of the map. *)
Lemma feature_frame_total (names : list pystr) (d : fdict) :
  (forall s, In s names -> Dict.mem s d = true) ->
  exists df, feature_frame names d = Ok df.
Proof.
  intros H. unfold feature_frame. apply select_columns_total.
  intros s Hs. rewrite sorted_filled_column.
  apply H in Hs. apply DictFacts.mem_get in Hs as [inner ->]. discriminate.
Qed.

Lemma write_feature_dict_ok (names : list pystr) (d : fdict) (out : pystr)
  (st st' : state) :
  write_feature_dict names d out st = (st', Ok tt) ->
  exists df, feature_frame names d = Ok df
             /\ st' = set_log (log st ++ [ToCsv out df]) st.
Proof.
  unfold write_feature_dict, bind, lift, emit, modify.
  destruct (feature_frame names d) as [df|e]; try discriminate.
  intros H. injection H as <-. eauto.
Qed.

Lemma feature_frame_index (names : list pystr) (d : fdict) (df : DataFrame) :
  feature_frame names d = Ok df ->
  (forall f, In f (df_index df) <-> feature_of d f)
  /\ NoDup (df_index df)
  /\ StronglySorted str_le (df_index df).
Proof.
  intros H. apply feature_frame_ok in H as (Hidx & _). rewrite Hidx.
  pose proof (StrSort.Permuted_sort (union_keys d)) as Hperm.
  repeat split.
  - intros Hf. apply In_union_keys.
    eapply Permutation_in; [apply Permutation_sym, Hperm|exact Hf].
  - intros Hf. apply In_union_keys in Hf.
    eapply Permutation_in; [apply Hperm|exact Hf].
  - eapply Permutation_NoDup; [apply Hperm|apply NoDup_union_keys].
  - apply StrSort.StronglySorted_sort.
    intros a b c Hab Hbc. exact (str_leb_trans a b c Hab Hbc).
Qed.

(** C2.  The frame [write_feature_dict] writes is dense: its columns are
    the requested samples, its rows are all the features of the map, every
    column has one cell per row, every (feature, sample) cell exists, and a
    cell whose (sample, feature) pair is not in the map is the number
    zero. *)
Theorem write_feature_dict_zero_fill :
  forall (names : list pystr) (d : fdict) (out : pystr) (st st' : state),
    write_feature_dict names d out st = (st', Ok tt) ->
    exists df,
      log st' = log st ++ [ToCsv out df]
      /\ col_labels df = names
      /\ (forall f, In f (df_index df) <-> feature_of d f)
      /\ Forall (fun c => List.length (snd c) = List.length (df_index df))
                (df_columns df)
      /\ forall f s, feature_of d f -> In s names ->
           exists c, df_at df f s = Some c
                     /\ (stored d s f = None -> c = Num 0).
Proof.
  intros names d out st st' H.
  apply write_feature_dict_ok in H as (df & Hdf & ->).
  exists df. destruct (feature_frame_index names d df Hdf) as (Hin & _ & _).
  destruct (feature_frame_ok names d df Hdf) as (_ & Hcols & _ & Hlen & Hat).
  repeat split; auto; try apply Hin.
  intros f s Hf Hs. eexists. split.
  - apply Hat; auto. now apply Hin.
  - intros ->. reflexivity.
Qed.

Lemma write_feature_dict_zero_fill_witness :
  let d : fdict := [(lit "S1", [(lit "b", lit "1"); (lit "a", lit "2")]);
                    (lit "S2", [(lit "c", lit "3")])] in
  let names := [lit "S2"; lit "S1"] in
  let st := start_state example_fs in
  let st' := fst (write_feature_dict names d (lit "out.tsv") st) in
  exists df,
    log st' = log st ++ [ToCsv (lit "out.tsv") df]
    /\ col_labels df = names
    /\ (forall f, In f (df_index df) <-> feature_of d f)
    /\ Forall (fun c => List.length (snd c) = List.length (df_index df))
              (df_columns df)
    /\ forall f s, feature_of d f -> In s names ->
         exists c, df_at df f s = Some c
                   /\ (stored d s f = None -> c = Num 0).
Proof.
  intros d names st st'.
  apply (write_feature_dict_zero_fill names d (lit "out.tsv") st st').
  reflexivity.
Defined.

(** C4.  The rows of the frame [write_feature_dict] writes are exactly the
    feature IDs of the map, each once, in ascending order of their code
    points; its columns are the [sampleNames] argument as given; a stored
    value is written as the stored string. *)
Theorem write_feature_dict_rows_columns :
  forall (names : list pystr) (d : fdict) (out : pystr) (st st' : state),
    write_feature_dict names d out st = (st', Ok tt) ->
    exists df,
      log st' = log st ++ [ToCsv out df]
      /\ (forall f, In f (df_index df) <-> feature_of d f)
      /\ NoDup (df_index df)
      /\ StronglySorted str_le (df_index df)
      /\ col_labels df = names
      /\ forall f s v, In s names -> stored d s f = Some v ->
           df_at df f s = Some (Text v).
Proof.
  intros names d out st st' H.
  apply write_feature_dict_ok in H as (df & Hdf & ->).
  exists df. destruct (feature_frame_index names d df Hdf) as (Hin & Hnd & Hs).
  destruct (feature_frame_ok names d df Hdf) as (_ & Hcols & _ & _ & Hat).
  repeat split; auto; try apply Hin.
  intros f s v Hsn Hv. rewrite Hat; auto.
  - now rewrite Hv.
  - apply Hin. unfold stored in Hv.
    destruct (Dict.get s d) as [inner|] eqn:E; try discriminate.
    exists (s, inner). split.
    + now apply DictFacts.get_In.
    + simpl. apply DictFacts.mem_keys. apply DictFacts.mem_get. eauto.
Qed.

Lemma write_feature_dict_rows_columns_witness :
  let d : fdict := [(lit "S1", [(lit "b", lit "1"); (lit "a", lit "2")]);
                    (lit "S2", [(lit "c", lit "3")])] in
  let names := [lit "S2"; lit "S1"] in
  let st := start_state example_fs in
  let st' := fst (write_feature_dict names d (lit "out.tsv") st) in
  exists df,
    log st' = log st ++ [ToCsv (lit "out.tsv") df]
    /\ (forall f, In f (df_index df) <-> feature_of d f)
    /\ NoDup (df_index df)
    /\ StronglySorted str_le (df_index df)
    /\ col_labels df = names
    /\ forall f s v, In s names -> stored d s f = Some v ->
         df_at df f s = Some (Text v).
Proof.
  intros d names st st'.
  apply (write_feature_dict_rows_columns names d (lit "out.tsv") st st').
  reflexivity.
Defined.

(* ================================================================== *)
(** * Reasoning about [M] *)

Lemma bind_ok {A B} (m : M A) (k : A -> M B) (st st' : state) (b : B) :
  bind m k st = (st', Ok b) ->
  exists st1 a, m st = (st1, Ok a) /\ k a st1 = (st', Ok b).
Proof.
  unfold bind. destruct (m st) as [st1 [a|e]]; try discriminate. eauto.
Qed.

Lemma bind_step {A B} (m : M A) (k : A -> M B) (st st1 : state) (a : A) :
  m st = (st1, Ok a) -> bind m k st = k a st1.
Proof. unfold bind. now intros ->. Qed.

Lemma bind_raise {A B} (m : M A) (k : A -> M B) (st st1 : state) (e : exn) :
  m st = (st1, Raise e) -> bind m k st = (st1, Raise e).
Proof. unfold bind. now intros ->. Qed.

Lemma for_each_app {A} (l1 l2 : list A) (body : A -> M unit) (st : state) :
  for_each (l1 ++ l2) body st
  = match for_each l1 body st with
    | (st1, Ok _) => for_each l2 body st1
    | (st1, Raise e) => (st1, Raise e)
    end.
Proof.
  revert st. induction l1 as [|x l1 IH]; simpl; intros st; auto.
  unfold bind. destruct (body x st) as [st1 [[]|e]]; auto.
Qed.

(* ================================================================== *)
(** * The command line *)

Lemma check_arguments_file (args : arguments) (f : pystr) (st : state) :
  paths_file args = Some f -> f <> [] ->
  snd (check_arguments args st)
  = match fs_file (fs st) f with
    | Some lines => Ok (paths_of_lines lines)
    | None => Raise (FileNotFoundError f)
    end.
Proof.
  intros Hf Hne. unfold check_arguments, paths_file_given. rewrite Hf.
  destruct f as [|c f]; [congruence|].
  unfold bind, when, print, emit, modify, open, ret.
  destruct (project_paths args); simpl;
    destruct (fs_file (fs st) (c :: f)); reflexivity.
Qed.

(** C10.  With a (non-empty) [--paths-file], the project paths are those of
    the file: its lines stripped, blank lines skipped.  The positional
    paths do not enter the result, whatever they are; a paths file that
    cannot be opened is an error, not a fall-back to them. *)
Theorem paths_file_precedence :
  forall (args : arguments) (f : pystr) (st : state),
    paths_file args = Some f -> f <> [] ->
    snd (check_arguments args st)
    = match fs_file (fs st) f with
      | Some lines => Ok (paths_of_lines lines)
      | None => Raise (FileNotFoundError f)
      end
    /\ forall paths,
         snd (check_arguments (with_project_paths paths args) st)
         = snd (check_arguments args st).
Proof.
  intros args f st Hf Hne. split.
  - now apply check_arguments_file.
  - intros paths.
    rewrite (check_arguments_file (with_project_paths paths args) f st Hf Hne).
    now rewrite (check_arguments_file args f st Hf Hne).
Qed.

Lemma paths_file_precedence_witness :
  snd (check_arguments example_file_args (start_state example_fs))
  = Ok [lit "A"; lit "B"]
  /\ forall paths,
       snd (check_arguments (with_project_paths paths example_file_args)
                            (start_state example_fs))
       = snd (check_arguments example_file_args (start_state example_fs)).
Proof.
  apply (paths_file_precedence example_file_args (lit "projects.txt")
           (start_state example_fs)).
  - reflexivity.
  - discriminate.
Defined.

(* ================================================================== *)
(** * Project validation *)

Lemma validate_project_run (args : arguments) (projPath projName : pystr)
  (st : state) :
  validate_project args projPath projName st
  = (st, if isfile (fs st) (marker_path args projPath projName) then Ok tt
         else Raise (Exception (invalid_project_message projPath))).
Proof.
  unfold validate_project, bind, gets.
  destruct (isfile (fs st) (marker_path args projPath projName)); reflexivity.
Qed.

Lemma process_project_invalid (env : environment) (args : arguments)
  (projPath : pystr) (st : state) :
  isfile (fs st) (marker_path args projPath (project_name projPath)) = false ->
  process_project env args projPath st
  = (st, Raise (Exception (invalid_project_message projPath))).
Proof.
  intros H. unfold process_project.
  apply bind_raise. rewrite validate_project_run, H. reflexivity.
Qed.

(** C9.  A project passes validation exactly when its marker file exists:
    [SqueezeMeta_conf.pl] in standard mode, [<basename>.out.mappingstat] in
    reads mode.  When the marker of a project is missing, the run ends there
    with an exception: the state is the one the earlier projects left, so no
    later project is looked at and no table is written. *)
Theorem invalid_project_aborts :
  forall (env : environment) (args : arguments) (ps1 ps2 : list pystr)
         (p : pystr) (st st1 : state),
    for_each ps1 (process_project env args) st = (st1, Ok tt) ->
    isfile (fs st1) (marker_path args p (project_name p)) = false ->
    combine_tables env args (ps1 ++ p :: ps2) st
    = (st1, Raise (Exception (invalid_project_message p)))
    /\ marker_path args p (project_name p)
       = (if sqmreads args
          then p ++ lit "/" ++ project_name p ++ lit ".out.mappingstat"
          else p ++ lit "/SqueezeMeta_conf.pl")
    /\ forall st0,
         snd (validate_project args p (project_name p) st0) = Ok tt
         <-> isfile (fs st0) (marker_path args p (project_name p)) = true.
Proof.
  intros env args ps1 ps2 p st st1 Hloop Hmarker. repeat split.
  - unfold combine_tables. apply bind_raise.
    rewrite for_each_app, Hloop. simpl.
    apply bind_raise. now apply process_project_invalid.
  - unfold marker_path. destruct (sqmreads args); reflexivity.
  - rewrite validate_project_run. simpl.
    destruct (isfile (fs st0) _); [reflexivity | discriminate].
  - rewrite validate_project_run. simpl. now intros ->.
Qed.

Lemma invalid_project_aborts_witness :
  let args := example_args [] false in
  let st := start_state example_fs in
  let st1 := fst (for_each [lit "A"] (process_project example_env args) st) in
  combine_tables example_env args ([lit "A"] ++ lit "C" :: [lit "B"]) st
  = (st1, Raise (Exception (invalid_project_message (lit "C"))))
  /\ marker_path args (lit "C") (project_name (lit "C"))
     = lit "C/SqueezeMeta_conf.pl"
  /\ forall st0,
       snd (validate_project args (lit "C") (project_name (lit "C")) st0) = Ok tt
       <-> isfile (fs st0) (marker_path args (lit "C") (project_name (lit "C")))
           = true.
Proof.
  intros args st st1.
  apply (invalid_project_aborts example_env args [lit "A"] [lit "B"] (lit "C")
           st st1).
  - vm_compute. reflexivity.
  - reflexivity.
Defined.

(* ================================================================== *)
(** * Table generation *)

Lemma table_command_spelled (env : environment) (args : arguments) (p : pystr) :
  table_command env args p = generator_command env args p.
Proof.
  unfold table_command, generator_command.
  destruct (sqmreads args), (ignore_unclassified args), (trusted_functions args);
    reflexivity.
Qed.

Lemma create_tables_absent (env : environment) (args : arguments) (p : pystr)
  (st : state) (files : filesystem) :
  isfile (fs st) (cog_table p) = false ->
  results_ready env args p (fs st) = Some files ->
  create_tables env args p (project_name p) st
  = (set_log (log st ++ generation_prelude args p (fs st)
              ++ [Call (generator_command env args p)])
             (set_fs (os_call env (generator_command env args p) files) st),
     Ok tt).
Proof.
  intros Hcog Hready. unfold create_tables, cog_table in *.
  unfold bind at 1. unfold gets at 1. rewrite Hcog. simpl negb. cbv iota.
  rewrite table_command_spelled.
  unfold results_ready in Hready. unfold generation_prelude.
  unfold bind, print, emit, modify, gets, when, mkdir, call, ret. simpl.
  destruct (sqmreads args && negb (isdir (fs st) (p ++ lit "/results"))).
  - simpl. destruct (os_mkdir env (p ++ lit "/results") (fs st)) as [e|files'];
      try discriminate.
    injection Hready as <-. unfold set_log, set_fs. simpl.
    repeat rewrite <- app_assoc. reflexivity.
  - injection Hready as <-. unfold set_log, set_fs. simpl.
    repeat rewrite <- app_assoc. reflexivity.
Qed.

(** C8.  For a valid project whose COG abundance table is absent, the table
    generator is called before anything is read from the project: all the
    reading happens in the state the call leaves.  The command names the
    generator of the mode, the project and its table directory, passes
    [--ignore_unclassified] in standard mode when the flag is set,
    [--trusted-functions] when that flag is set, and [--force-overwrite].
    (In reads mode the [results] directory is created first when it is
    missing; the statement assumes that this [mkdir] succeeds.) *)
Theorem missing_tables_are_generated :
  forall (env : environment) (args : arguments) (p : pystr) (st : state)
         (files : filesystem),
    isfile (fs st) (marker_path args p (project_name p)) = true ->
    isfile (fs st) (cog_table p) = false ->
    results_ready env args p (fs st) = Some files ->
    process_project env args p st
    = read_project args p (project_name p)
        (set_log (log st ++ generation_prelude args p (fs st)
                  ++ [Call (generator_command env args p)])
                 (set_fs (os_call env (generator_command env args p) files) st))
    /\ table_command env args p = generator_command env args p
    /\ Forall (fun e => forall c, e <> Call c) (generation_prelude args p (fs st)).
Proof.
  intros env args p st files Hmarker Hcog Hready. repeat split.
  - unfold process_project.
    rewrite (bind_step _ _ st st tt)
      by (rewrite validate_project_run, Hmarker; reflexivity).
    now rewrite (bind_step _ _ _ _ tt (create_tables_absent env args p st files
                                          Hcog Hready)).
  - apply table_command_spelled.
  - unfold generation_prelude. constructor; [discriminate|].
    destruct (_ && _); repeat constructor. discriminate.
Qed.

Lemma missing_tables_are_generated_witness :
  let args := example_args [] false in
  let st := start_state example_fs in
  let command := [lit "/opt/SqueezeMeta/utils/sqm2tables.py"; lit "E";
                  lit "E/results/tables"; lit "--force-overwrite"] in
  process_project example_env args (lit "E") st
  = read_project args (lit "E") (lit "E")
      (set_log [Print (lit "Creating tables for project E"); Call command]
               (set_fs (os_call example_env command example_fs) st))
  /\ table_command example_env args (lit "E") = command
  /\ Forall (fun e => forall c, e <> Call c)
            [Print (lit "Creating tables for project E")].
Proof.
  intros args st command.
  apply (missing_tables_are_generated example_env args (lit "E") st example_fs);
    reflexivity.
Defined.

(* ================================================================== *)
(** * Invariants of the computations *)

Lemma state_eta (st : state) :
  st = {| fs := fs st; log := log st; sampleNames := sampleNames st;
          taxa := taxa st; funs := funs st;
          customFunMethods := customFunMethods st;
          namesInfo := namesInfo st; hasKEGG := hasKEGG st;
          hasCOG := hasCOG st; hasPFAM := hasPFAM st |}.
Proof. destruct st; reflexivity. Qed.

Lemma set_customFunMethods_same (st : state) :
  set_customFunMethods (customFunMethods st) st = st.
Proof. destruct st; reflexivity. Qed.

Lemma decompose_some (f method counts : pystr) :
  decompose f = Some (method, counts) ->
  index_neg (split DOT f) 3 = Some method
  /\ index_neg (split DOT f) 2 = Some counts.
Proof.
  unfold decompose.
  destruct (index_neg (split DOT f) 3); try discriminate.
  destruct (index_neg (split DOT f) 2); try discriminate.
  intros H. injection H as -> ->. auto.
Qed.

Lemma decompose_none (f : pystr) (cts : Dict.t (Dict.t pystr)) (st : state) :
  decompose f = None -> discover_file f cts st = (st, Raise IndexError).
Proof.
  unfold decompose, discover_file, bind, index_or_raise, ret, raise.
  destruct (index_neg (split DOT f) 3); auto.
  destruct (index_neg (split DOT f) 2); auto. discriminate.
Qed.

Lemma discover_file_other (f method counts : pystr)
  (cts : Dict.t (Dict.t pystr)) (st : state) :
  decompose f = Some (method, counts) -> is_custom method counts = false ->
  discover_file f cts st = (st, Ok cts).
Proof.
  intros Hd Hc. apply decompose_some in Hd as [H3 H2].
  unfold discover_file, bind, index_or_raise, ret.
  rewrite H3, H2, Hc. reflexivity.
Qed.

Lemma discover_file_custom (f method counts : pystr)
  (cts : Dict.t (Dict.t pystr)) (st : state) :
  decompose f = Some (method, counts) -> is_custom method counts = true ->
  exists cts',
    discover_file f cts st
    = (set_customFunMethods (register method counts (customFunMethods st)) st,
       Ok cts').
Proof.
  intros Hd Hc. apply decompose_some in Hd as [H3 H2].
  unfold discover_file. rewrite H3, H2. unfold index_or_raise.
  unfold bind at 1. unfold ret at 1. unfold bind at 1. unfold ret at 1.
  rewrite Hc.
  assert (Hcts : exists cts',
             setitem2 (if negb (Dict.mem method cts)
                       then Dict.set method Dict.empty cts else cts)
                      method counts f = Ok cts').
  { unfold setitem2, getitem. destruct (Dict.mem method cts) eqn:E; simpl.
    - apply DictFacts.mem_get in E as [inner ->]. eauto.
    - rewrite DictFacts.get_set_same. eauto. }
  destruct Hcts as [cts' Hcts]. exists cts'.
  unfold bind, lift, gets, when, modify, get_method, new_counts, ret.
  rewrite Hcts. unfold register, setitem2, getitem.
  destruct (Dict.mem method (customFunMethods st)) eqn:E; simpl.
  - apply DictFacts.mem_get in E as [inner Hinner]. rewrite Hinner.
    destruct (Dict.mem counts inner); simpl.
    + now rewrite set_customFunMethods_same.
    + rewrite Hinner. reflexivity.
  - repeat (rewrite DictFacts.get_set_same; simpl). reflexivity.
Qed.

Lemma parse_table_in_ok (path : pystr) (s : slot) (st st' : state)
  (samples : list pystr) :
  parse_table_in path s st = (st', Ok samples) ->
  exists d lines,
    slot_get s st = Ok d
    /\ fs_file (fs st) path = Some lines
    /\ samples = header_samples lines
    /\ st' = slot_set s (fst (parse_table (fs st) path d)) st.
Proof.
  unfold parse_table_in. destruct (slot_get s st) as [d|e]; try discriminate.
  destruct (parse_table (fs st) path d) as [d' r] eqn:E.
  intros H. injection H as Hst Hr. subst st' r. exists d.
  assert (Hl : exists lines, fs_file (fs st) path = Some lines
                             /\ samples = header_samples lines).
  { unfold parse_table in E.
    destruct (fs_file (fs st) path) as [lines|]; try discriminate.
    exists lines. split; auto.
    destruct (add_samples path (header_samples lines) d) as [d1 [[]|e]];
      try discriminate.
    destruct (add_lines (header_samples lines) (tl lines) d1) as [d2 [[]|e]];
      try discriminate.
    now injection E as _ <-. }
  destruct Hl as (lines & Hf & Hs). exists lines. rewrite E.
  repeat split; auto.
Qed.

Section Frame.

Variable I : state -> Prop.

Lemma pres_unchanged {A} (m : M A) :
  (forall st, fst (m st) = st) -> preserves I m.
Proof.
  intros H st st' r HI E. specialize (H st). rewrite E in H. simpl in H.
  now subst.
Qed.

Lemma pres_ret {A} (a : A) : preserves I (ret a).
Proof. now apply pres_unchanged. Qed.

Lemma pres_raise {A} (e : exn) : preserves I (@raise A e).
Proof. now apply pres_unchanged. Qed.

Lemma pres_lift {A} (r : result A) : preserves I (lift r).
Proof. now apply pres_unchanged. Qed.

Lemma pres_gets {A} (f : state -> A) : preserves I (gets f).
Proof. now apply pres_unchanged. Qed.

Lemma pres_index_or_raise {A} (o : option A) : preserves I (index_or_raise o).
Proof. destruct o; now apply pres_unchanged. Qed.

Lemma pres_open (path : pystr) : preserves I (open path).
Proof.
  apply pres_unchanged. intros st. unfold open.
  now destruct (fs_file (fs st) path).
Qed.

Lemma pres_listdir (path : pystr) : preserves I (listdir path).
Proof.
  apply pres_unchanged. intros st. unfold listdir.
  now destruct (fs_dir (fs st) path).
Qed.

Lemma pres_get_method (method : pystr) : preserves I (get_method method).
Proof. now apply pres_unchanged. Qed.

Lemma pres_get_info (method : pystr) : preserves I (get_info method).
Proof. now apply pres_unchanged. Qed.

Lemma pres_bind {A B} (m : M A) (k : A -> M B) :
  preserves I m -> (forall a, preserves I (k a)) -> preserves I (bind m k).
Proof.
  intros Hm Hk st st' r HI. unfold bind.
  destruct (m st) as [st1 [a|e]] eqn:E.
  - apply (Hk a). eapply Hm; eauto.
  - intros H. injection H as <- <-. eapply Hm; eauto.
Qed.

Lemma pres_when (c : bool) (body : M unit) :
  preserves I body -> preserves I (when c body).
Proof. destruct c; simpl; auto. intros _. apply pres_ret. Qed.

Lemma pres_for_each {A} (l : list A) (body : A -> M unit) :
  (forall x, In x l -> preserves I (body x)) -> preserves I (for_each l body).
Proof.
  induction l as [|x l IH]; simpl; intros H.
  - apply pres_ret.
  - apply pres_bind; auto.
Qed.

Lemma pres_fold_each {A B} (l : list A) (acc : B) (body : A -> B -> M B) :
  (forall x b, In x l -> preserves I (body x b)) ->
  preserves I (fold_each l acc body).
Proof.
  revert acc. induction l as [|x l IH]; simpl; intros acc H.
  - apply pres_ret.
  - apply pres_bind; auto.
Qed.

Lemma pres_modify (f : state -> state) :
  (forall st, I st -> I (f st)) -> preserves I (modify f).
Proof.
  intros H st st' r HI E. unfold modify in E. injection E as <- _. auto.
Qed.

(** How the invariant meets the assignments of the loop over the projects. *)
Hypothesis I_print :
  forall st msg, I st -> I (set_log (log st ++ [Print msg]) st).
Hypothesis I_mkdir :
  forall st files path,
    I st -> I (set_log (log st ++ [Mkdir path]) (set_fs files st)).
Hypothesis I_call :
  forall st files command,
    I st -> I (set_log (log st ++ [Call command]) (set_fs files st)).
Hypothesis I_slot :
  forall st s d0 d, slot_get s st = Ok d0 -> I st -> I (slot_set s d st).
Hypothesis I_samples :
  forall st x, I st -> I (set_sampleNames (sampleNames st ++ x) st).
Hypothesis I_kegg : forall st, I st -> I (set_hasKEGG false st).
Hypothesis I_cog : forall st, I st -> I (set_hasCOG false st).
Hypothesis I_pfam : forall st, I st -> I (set_hasPFAM false st).
Hypothesis I_register :
  forall st f method counts,
    decompose f = Some (method, counts) -> is_custom method counts = true ->
    I st ->
    I (set_customFunMethods (register method counts (customFunMethods st)) st).
Hypothesis I_names : forall st x, I st -> I (set_namesInfo x st).

Lemma pres_print (msg : pystr) : preserves I (print msg).
Proof. apply pres_modify. intros st. apply I_print. Qed.

Lemma pres_parse_table_in (path : pystr) (s : slot) :
  preserves I (parse_table_in path s).
Proof.
  intros st st' r HI. unfold parse_table_in.
  destruct (slot_get s st) as [d|e] eqn:E.
  - destruct (parse_table (fs st) path d) as [d' r'].
    intros H. injection H as <- _. eapply I_slot; eauto.
  - intros H. now injection H as <- _.
Qed.

Lemma pres_discover_file (f : pystr) (cts : Dict.t (Dict.t pystr)) :
  preserves I (discover_file f cts).
Proof.
  intros st st' r HI.
  destruct (decompose f) as [[method counts]|] eqn:Hd.
  - destruct (is_custom method counts) eqn:Hc.
    + destruct (discover_file_custom f method counts cts st Hd Hc) as [cts' ->].
      intros H. injection H as <- _. eapply I_register; eauto.
    + rewrite (discover_file_other f method counts cts st Hd Hc).
      intros H. now injection H as <- _.
  - rewrite (decompose_none f cts st Hd). intros H. now injection H as <- _.
Qed.

Lemma pres_discover_custom (projPath : pystr) :
  preserves I (discover_custom projPath).
Proof.
  apply pres_bind; [apply pres_listdir|]. intros names.
  apply pres_fold_each. intros. apply pres_discover_file.
Qed.

Lemma pres_parse_tax (projPath projName : pystr) (k : filter_t * rank_t) :
  preserves I (parse_tax projPath projName k).
Proof. apply pres_parse_table_in. Qed.

Lemma pres_tax_rest (projPath projName : pystr) (l : list (filter_t * rank_t)) :
  preserves I (for_each l (fun k => parse_tax projPath projName k ;; ret tt)).
Proof.
  apply pres_for_each. intros k _.
  apply pres_bind; [apply pres_parse_tax | intros; apply pres_ret].
Qed.

Lemma pres_parse_taxonomy (projPath projName : pystr) :
  preserves I (parse_taxonomy projPath projName).
Proof.
  apply pres_bind; [apply pres_parse_tax|]. intros samples.
  apply pres_bind; [|intros; apply pres_tax_rest].
  apply pres_modify. intros st. apply I_samples.
Qed.

Lemma pres_parse_fun (projPath projName : pystr) (m : fmethod) (c : metric) :
  preserves I (parse_fun projPath projName m c).
Proof.
  apply pres_bind; [apply pres_parse_table_in | intros; apply pres_ret].
Qed.

Lemma pres_parse_KO (args : arguments) (projPath projName : pystr) :
  preserves I (parse_KO args projPath projName).
Proof.
  apply pres_bind; [apply pres_gets|]. intros [|]; simpl.
  - apply pres_bind; [apply pres_parse_fun|]. intros _. apply pres_when.
    apply pres_bind; [apply pres_parse_fun | intros; apply pres_parse_fun].
  - apply pres_bind; [apply pres_print|]. intros _. now apply pres_modify.
Qed.

Lemma pres_parse_COG (args : arguments) (projPath projName : pystr) :
  preserves I (parse_COG args projPath projName).
Proof.
  apply pres_bind; [apply pres_gets|]. intros [|]; simpl.
  - apply pres_bind; [apply pres_parse_fun|]. intros _. apply pres_when.
    apply pres_bind; [apply pres_parse_fun | intros; apply pres_parse_fun].
  - apply pres_bind; [apply pres_print|]. intros _. now apply pres_modify.
Qed.

Lemma pres_parse_PFAM (args : arguments) (projPath projName : pystr) :
  preserves I (parse_PFAM args projPath projName).
Proof.
  apply pres_when.
  apply pres_bind; [apply pres_gets|]. intros [|]; simpl.
  - apply pres_bind; [apply pres_parse_fun|]. intros _.
    apply pres_bind; [apply pres_parse_fun | intros; apply pres_parse_fun].
  - apply pres_bind; [apply pres_print|]. intros _. now apply pres_modify.
Qed.

Lemma pres_parse_custom (projPath : pystr) (cts : Dict.t (Dict.t pystr)) :
  preserves I (parse_custom projPath cts).
Proof.
  apply pres_for_each. intros mi _. apply pres_for_each. intros cf _.
  apply pres_bind; [apply pres_parse_table_in | intros; apply pres_ret].
Qed.

Lemma pres_set_name (method column key value : pystr) :
  preserves I (set_name method column key value).
Proof.
  intros st st' r HI. unfold set_name.
  destruct (getitem (namesInfo st) method) as [info|e].
  - destruct (getitem info column) as [d|e].
    + intros H. injection H as <- _. now apply I_names.
    + intros H. now injection H as <- _.
  - intros H. now injection H as <- _.
Qed.

Lemma pres_add_name (method line : pystr) : preserves I (add_name method line).
Proof.
  unfold add_name.
  apply pres_bind; [apply pres_index_or_raise|]. intros name.
  apply pres_bind; [apply pres_index_or_raise|]. intros key.
  apply pres_bind; [apply pres_set_name|]. intros _.
  apply pres_bind; [apply pres_get_info|]. intros info.
  apply pres_when.
  apply pres_bind; [apply pres_index_or_raise|]. intros path.
  apply pres_bind; [apply pres_index_or_raise|]. intros key'.
  apply pres_set_name.
Qed.

Lemma pres_add_names_of (projPath projName method : pystr) :
  preserves I (add_names_of projPath projName method).
Proof.
  unfold add_names_of.
  apply pres_bind; [apply pres_gets|]. intros known.
  apply pres_bind.
  - apply pres_when. apply pres_modify. intros st. apply I_names.
  - intros _. apply pres_bind; [apply pres_open|]. intros infile.
    apply pres_for_each. intros line _. apply pres_add_name.
Qed.

Lemma pres_add_names (projPath projName : pystr) :
  preserves I (add_names projPath projName).
Proof.
  apply pres_bind; [apply pres_gets|]. intros methods.
  apply pres_for_each. intros m _. apply pres_add_names_of.
Qed.

Lemma pres_read_tables (args : arguments) (projPath projName : pystr)
  (cts : Dict.t (Dict.t pystr)) :
  preserves I (read_tables args projPath projName cts).
Proof.
  unfold read_tables.
  apply pres_bind; [apply pres_parse_taxonomy|]. intros _.
  apply pres_bind; [apply pres_parse_KO|]. intros _.
  apply pres_bind; [apply pres_parse_COG|]. intros _.
  apply pres_bind; [apply pres_parse_PFAM|]. intros _.
  apply pres_bind; [apply pres_parse_custom|]. intros _.
  apply pres_add_names.
Qed.

Lemma pres_read_project (args : arguments) (projPath projName : pystr) :
  preserves I (read_project args projPath projName).
Proof.
  apply pres_bind; [apply pres_discover_custom|]. intros cts.
  apply pres_read_tables.
Qed.

Lemma pres_validate_project (args : arguments) (projPath projName : pystr) :
  preserves I (validate_project args projPath projName).
Proof.
  apply pres_unchanged. intros st. now rewrite validate_project_run.
Qed.

Lemma pres_mkdir (env : environment) (path : pystr) :
  preserves I (mkdir env path).
Proof.
  intros st st' r HI. unfold mkdir.
  destruct (os_mkdir env path (fs st)) as [e|files].
  - intros H. now injection H as <- _.
  - intros H. injection H as <- _. now apply I_mkdir.
Qed.

Lemma pres_create_tables (env : environment) (args : arguments)
  (projPath projName : pystr) :
  preserves I (create_tables env args projPath projName).
Proof.
  apply pres_bind; [apply pres_gets|]. intros [|]; simpl.
  - apply pres_print.
  - apply pres_bind; [apply pres_print|]. intros _.
    apply pres_bind; [apply pres_gets|]. intros hasResults.
    apply pres_bind; [apply pres_when, pres_mkdir|]. intros _.
    intros st st' r HI H. unfold call in H. injection H as <- _.
    now apply I_call.
Qed.

Lemma pres_process_project (env : environment) (args : arguments)
  (projPath : pystr) :
  preserves I (process_project env args projPath).
Proof.
  unfold process_project.
  apply pres_bind; [apply pres_validate_project|]. intros _.
  apply pres_bind; [apply pres_create_tables|]. intros _.
  apply pres_read_project.
Qed.

Lemma pres_projects (env : environment) (args : arguments)
  (projPaths : list pystr) :
  preserves I (for_each projPaths (process_project env args)).
Proof. apply pres_for_each. intros p _. apply pres_process_project. Qed.

End Frame.

(* ================================================================== *)
(** * What one project does to the sample names and the flags *)

Lemma slot_set_frame (s : slot) (d : fdict) (st : state) :
  fs (slot_set s d st) = fs st
  /\ log (slot_set s d st) = log st
  /\ sampleNames (slot_set s d st) = sampleNames st
  /\ hasKEGG (slot_set s d st) = hasKEGG st
  /\ hasCOG (slot_set s d st) = hasCOG st
  /\ hasPFAM (slot_set s d st) = hasPFAM st
  /\ namesInfo (slot_set s d st) = namesInfo st.
Proof.
  destruct s as [f r|m c|method counts]; simpl; try tauto.
  destruct (Dict.get method (customFunMethods st)); simpl; tauto.
Qed.

Lemma keeps_refl (k c p s : bool) (st : state) : keeps k c p s st st.
Proof. unfold keeps. tauto. Qed.

Lemma keeps_print (k c p s : bool) (st0 : state) :
  forall st msg, keeps k c p s st0 st ->
                 keeps k c p s st0 (set_log (log st ++ [Print msg]) st).
Proof. unfold keeps. simpl. tauto. Qed.

Lemma keeps_slot (k c p s : bool) (st0 : state) :
  forall st sl (d0 d : fdict), slot_get sl st = Ok d0 ->
    keeps k c p s st0 st -> keeps k c p s st0 (slot_set sl d st).
Proof.
  unfold keeps. intros st sl d0 d _ H.
  destruct (slot_set_frame sl d st) as (-> & _ & -> & -> & -> & -> & _).
  exact H.
Qed.

Lemma keeps_samples (k c p : bool) (st0 : state) :
  forall st x, keeps k c p false st0 st ->
               keeps k c p false st0 (set_sampleNames (sampleNames st ++ x) st).
Proof. unfold keeps. simpl. intuition discriminate. Qed.

Lemma keeps_kegg (c p s : bool) (st0 : state) :
  forall st, keeps false c p s st0 st -> keeps false c p s st0 (set_hasKEGG false st).
Proof. unfold keeps. simpl. intuition discriminate. Qed.

Lemma keeps_cog (k p s : bool) (st0 : state) :
  forall st, keeps k false p s st0 st -> keeps k false p s st0 (set_hasCOG false st).
Proof. unfold keeps. simpl. intuition discriminate. Qed.

Lemma keeps_pfam (k c s : bool) (st0 : state) :
  forall st, keeps k c false s st0 st -> keeps k c false s st0 (set_hasPFAM false st).
Proof. unfold keeps. simpl. intuition discriminate. Qed.

Lemma keeps_register (k c p s : bool) (st0 : state) :
  forall st f method counts,
    decompose f = Some (method, counts) -> is_custom method counts = true ->
    keeps k c p s st0 st ->
    keeps k c p s st0
      (set_customFunMethods (register method counts (customFunMethods st)) st).
Proof. unfold keeps. simpl. tauto. Qed.

Lemma keeps_names (k c p s : bool) (st0 : state) :
  forall st x, keeps k c p s st0 st -> keeps k c p s st0 (set_namesInfo x st).
Proof. unfold keeps. simpl. tauto. Qed.

Lemma keeps_trans (k c p s : bool) (st0 st1 st2 : state) :
  keeps k c p s st0 st1 -> keeps k c p s st1 st2 -> keeps k c p s st0 st2.
Proof.
  unfold keeps. intros (H1 & H2 & H3 & H4 & H5) (G1 & G2 & G3 & G4 & G5).
  repeat split; intros; try congruence.
  - rewrite G2, H2; auto.
  - rewrite G3, H3; auto.
  - rewrite G4, H4; auto.
  - rewrite G5, H5; auto.
Qed.

Lemma keeps_weaken (k c p s : bool) (st0 st : state) :
  keeps true true true true st0 st -> keeps k c p s st0 st.
Proof. unfold keeps. intuition. Qed.

Lemma discover_custom_keeps (projPath : pystr) (st st' : state)
  (r : result (Dict.t (Dict.t pystr))) :
  discover_custom projPath st = (st', r) -> keeps true true true true st st'.
Proof.
  intros H.
  eapply (pres_discover_custom (keeps true true true true st)
            (keeps_register _ _ _ _ st)); eauto using keeps_refl.
Qed.

Lemma parse_fun_keeps (projPath projName : pystr) (m : fmethod) (c : metric)
  (st st' : state) (r : result unit) :
  parse_fun projPath projName m c st = (st', r) ->
  keeps true true true true st st'.
Proof.
  intros H.
  eapply (pres_parse_fun (keeps true true true true st)
            (keeps_slot _ _ _ _ st)); eauto using keeps_refl.
Qed.

Lemma parse_KO_keeps (args : arguments) (projPath projName : pystr)
  (st st' : state) (r : result unit) :
  parse_KO args projPath projName st = (st', r) ->
  keeps false true true true st st'.
Proof.
  intros H.
  eapply (pres_parse_KO (keeps false true true true st)
            (keeps_print _ _ _ _ st) (keeps_slot _ _ _ _ st)
            (keeps_kegg _ _ _ st)); eauto using keeps_refl.
Qed.

Lemma parse_COG_keeps (args : arguments) (projPath projName : pystr)
  (st st' : state) (r : result unit) :
  parse_COG args projPath projName st = (st', r) ->
  keeps true false true true st st'.
Proof.
  intros H.
  eapply (pres_parse_COG (keeps true false true true st)
            (keeps_print _ _ _ _ st) (keeps_slot _ _ _ _ st)
            (keeps_cog _ _ _ st)); eauto using keeps_refl.
Qed.

Lemma parse_PFAM_keeps (args : arguments) (projPath projName : pystr)
  (st st' : state) (r : result unit) :
  parse_PFAM args projPath projName st = (st', r) ->
  keeps true true false true st st'.
Proof.
  intros H.
  eapply (pres_parse_PFAM (keeps true true false true st)
            (keeps_print _ _ _ _ st) (keeps_slot _ _ _ _ st)
            (keeps_pfam _ _ _ st)); eauto using keeps_refl.
Qed.

Lemma parse_custom_keeps (projPath : pystr) (cts : Dict.t (Dict.t pystr))
  (st st' : state) (r : result unit) :
  parse_custom projPath cts st = (st', r) -> keeps true true true true st st'.
Proof.
  intros H.
  eapply (pres_parse_custom (keeps true true true true st)
            (keeps_slot _ _ _ _ st)); eauto using keeps_refl.
Qed.

Lemma add_names_keeps (projPath projName : pystr) (st st' : state)
  (r : result unit) :
  add_names projPath projName st = (st', r) -> keeps true true true true st st'.
Proof.
  intros H.
  eapply (pres_add_names (keeps true true true true st)
            (keeps_names _ _ _ _ st)); eauto using keeps_refl.
Qed.

Lemma tax_rest_keeps (projPath projName : pystr) (l : list (filter_t * rank_t))
  (st st' : state) (r : result unit) :
  for_each l (fun k => parse_tax projPath projName k ;; ret tt) st = (st', r) ->
  keeps true true true true st st'.
Proof.
  intros H.
  eapply (pres_tax_rest (keeps true true true true st)
            (keeps_slot _ _ _ _ st)); eauto using keeps_refl.
Qed.

(** The first taxonomy table gives the project's sample names. *)
Lemma parse_taxonomy_ok (p : pystr) (st st' : state) :
  parse_taxonomy p (project_name p) st = (st', Ok tt) ->
  keeps true true true false st st'
  /\ sampleNames st' = sampleNames st ++ project_samples (fs st) p.
Proof.
  unfold parse_taxonomy. intros H.
  apply bind_ok in H as (st1 & samples & H1 & H).
  apply bind_ok in H as (st2 & [] & H2 & H3).
  apply parse_table_in_ok in H1 as (d & lines & _ & Hfile & -> & ->).
  unfold modify in H2. injection H2 as <-.
  apply tax_rest_keeps in H3. destruct H3 as (F & K & C & P & S).
  destruct (slot_set_frame (Tax (fst (allfilter, superkingdom))
                                (snd (allfilter, superkingdom)))
              (fst (parse_table (fs st)
                      (project_table p (project_name p)
                         (tax_suffix (allfilter, superkingdom)))
                      (taxa st allfilter superkingdom))) st)
    as (Ef & _ & Es & Ek & Ec & Ep & _).
  simpl in F, K, C, P, S. simpl in Ef, Es, Ek, Ec, Ep.
  split.
  - unfold keeps. repeat split; intros; try discriminate; try congruence.
    + now rewrite K.
    + now rewrite C.
    + now rewrite P.
  - rewrite S by reflexivity. unfold project_samples. rewrite Hfile. reflexivity.
Qed.

Lemma parse_KO_flag (args : arguments) (p n : pystr) (st st' : state)
  (r : result unit) :
  parse_KO args p n st = (st', r) ->
  hasKEGG st' = hasKEGG st && has_table p n KO st.
Proof.
  unfold parse_KO. unfold bind at 1. unfold gets at 1.
  destruct (has_table p n KO st) eqn:E; simpl negb; cbv iota.
  - intros H. rewrite andb_true_r.
    assert (keeps true true true true st st') as (_ & K & _); auto.
    eapply (pres_bind (keeps true true true true st)); [| |apply keeps_refl|exact H].
    + intros s1 s2 r' HI H'. apply parse_fun_keeps in H'.
      eapply keeps_trans; eauto.
    + intros ?. apply pres_when. apply pres_bind.
      * intros s1 s2 r' HI H'. apply parse_fun_keeps in H'.
        eapply keeps_trans; eauto.
      * intros ? s1 s2 r' HI H'. apply parse_fun_keeps in H'.
        eapply keeps_trans; eauto.
  - unfold bind, print, emit, modify. intros H. injection H as <- _.
    simpl. now rewrite andb_false_r.
Qed.

Lemma parse_COG_flag (args : arguments) (p n : pystr) (st st' : state)
  (r : result unit) :
  parse_COG args p n st = (st', r) ->
  hasCOG st' = hasCOG st && has_table p n COG st.
Proof.
  unfold parse_COG. unfold bind at 1. unfold gets at 1.
  destruct (has_table p n COG st) eqn:E; simpl negb; cbv iota.
  - intros H. rewrite andb_true_r.
    assert (keeps true true true true st st') as (_ & _ & C & _); auto.
    eapply (pres_bind (keeps true true true true st)); [| |apply keeps_refl|exact H].
    + intros s1 s2 r' HI H'. apply parse_fun_keeps in H'.
      eapply keeps_trans; eauto.
    + intros ?. apply pres_when. apply pres_bind.
      * intros s1 s2 r' HI H'. apply parse_fun_keeps in H'.
        eapply keeps_trans; eauto.
      * intros ? s1 s2 r' HI H'. apply parse_fun_keeps in H'.
        eapply keeps_trans; eauto.
  - unfold bind, print, emit, modify. intros H. injection H as <- _.
    simpl. now rewrite andb_false_r.
Qed.

Lemma parse_PFAM_flag (args : arguments) (p n : pystr) (st st' : state)
  (r : result unit) :
  parse_PFAM args p n st = (st', r) ->
  hasPFAM st' = hasPFAM st && (sqmreads args || has_table p n PFAM st).
Proof.
  unfold parse_PFAM. destruct (sqmreads args); simpl.
  - unfold ret. intros H. injection H as <- _. now rewrite andb_true_r.
  - unfold bind at 1. unfold gets at 1.
    destruct (has_table p n PFAM st) eqn:E; simpl negb; cbv iota.
    + intros H. rewrite andb_true_r.
      assert (keeps true true true true st st') as (_ & _ & _ & P & _); auto.
      eapply (pres_bind (keeps true true true true st));
        [| |apply keeps_refl|exact H].
      * intros s1 s2 r' HI H'. apply parse_fun_keeps in H'.
        eapply keeps_trans; eauto.
      * intros ?. apply pres_bind.
        -- intros s1 s2 r' HI H'. apply parse_fun_keeps in H'.
           eapply keeps_trans; eauto.
        -- intros ? s1 s2 r' HI H'. apply parse_fun_keeps in H'.
           eapply keeps_trans; eauto.
    + unfold bind, print, emit, modify. intros H. injection H as <- _.
      simpl. now rewrite andb_false_r.
Qed.

Lemma create_tables_ok (env : environment) (args : arguments) (p : pystr)
  (st st1 : state) :
  create_tables env args p (project_name p) st = (st1, Ok tt) ->
  fs st1 = prepare env args p (fs st)
  /\ sampleNames st1 = sampleNames st
  /\ hasKEGG st1 = hasKEGG st
  /\ hasCOG st1 = hasCOG st
  /\ hasPFAM st1 = hasPFAM st
  /\ customFunMethods st1 = customFunMethods st.
Proof.
  unfold create_tables, prepare, cog_table, results_ready.
  unfold bind at 1. unfold gets at 1.
  destruct (isfile (fs st) _) eqn:E; simpl negb; cbv iota.
  - unfold print, emit, modify. intros H. injection H as <-. simpl. tauto.
  - rewrite table_command_spelled.
    unfold bind, print, emit, modify, gets, when, mkdir, call, ret. simpl.
    destruct (sqmreads args && negb (isdir (fs st) (p ++ lit "/results"))); simpl.
    + destruct (os_mkdir env (p ++ lit "/results") (fs st)) as [e|files];
        try discriminate.
      intros H. injection H as <-. simpl. tauto.
    + intros H. injection H as <-. simpl. tauto.
Qed.

(** One project, when it is processed without an exception: its tables
    are read from the prepared file system; the header of its first table
    is appended to the sample names; each flag stays set only if the
    project has the table. *)
Lemma process_project_step (env : environment) (args : arguments) (p : pystr)
  (st st' : state) :
  process_project env args p st = (st', Ok tt) ->
  fs st' = prepare env args p (fs st)
  /\ sampleNames st' = sampleNames st ++ project_samples (fs st') p
  /\ hasKEGG st'
     = hasKEGG st && isfile (fs st') (project_table p (project_name p)
                                        (fun_suffix KO abund))
  /\ hasCOG st'
     = hasCOG st && isfile (fs st') (project_table p (project_name p)
                                       (fun_suffix COG abund))
  /\ hasPFAM st'
     = hasPFAM st && (sqmreads args
                      || isfile (fs st') (project_table p (project_name p)
                                            (fun_suffix PFAM abund))).
Proof.
  unfold process_project. intros H.
  apply bind_ok in H as (s0 & [] & Hv & H).
  rewrite validate_project_run in Hv.
  assert (s0 = st) as -> by (now injection Hv as <-).
  apply bind_ok in H as (s1 & [] & Hc & H).
  apply create_tables_ok in Hc as (F1 & S1 & K1 & C1 & P1 & _).
  unfold read_project in H. apply bind_ok in H as (s2 & cts & Hd & H).
  apply discover_custom_keeps in Hd as (F2 & K2 & C2 & P2 & S2).
  unfold read_tables in H.
  apply bind_ok in H as (s3 & [] & Ht & H).
  apply parse_taxonomy_ok in Ht as ((F3 & K3 & C3 & P3 & _) & S3).
  apply bind_ok in H as (s4 & [] & Hk & H).
  pose proof (parse_KO_flag _ _ _ _ _ _ Hk) as Kf.
  apply parse_KO_keeps in Hk as (F4 & _ & C4 & P4 & S4).
  apply bind_ok in H as (s5 & [] & Hg & H).
  pose proof (parse_COG_flag _ _ _ _ _ _ Hg) as Cf.
  apply parse_COG_keeps in Hg as (F5 & K5 & _ & P5 & S5).
  apply bind_ok in H as (s6 & [] & Hp & H).
  pose proof (parse_PFAM_flag _ _ _ _ _ _ Hp) as Pf.
  apply parse_PFAM_keeps in Hp as (F6 & K6 & C6 & _ & S6).
  apply bind_ok in H as (s7 & [] & Hu & H).
  apply parse_custom_keeps in Hu as (F7 & K7 & C7 & P7 & S7).
  apply add_names_keeps in H as (F8 & K8 & C8 & P8 & S8).
  unfold has_table in Kf, Cf, Pf.
  assert (E4 : fs s4 = fs st') by congruence.
  assert (E3 : fs s3 = fs st') by congruence.
  assert (E5 : fs s5 = fs st') by congruence.
  assert (E2 : fs s2 = fs st') by congruence.
  rewrite E3 in Kf. rewrite E4 in Cf. rewrite E5 in Pf. rewrite E2 in S3.
  repeat split.
  - congruence.
  - rewrite S8, S7, S6, S5, S4, S3, S2, S1 by reflexivity. reflexivity.
  - rewrite K8, K7, K6, K5, Kf, K3, K2, K1 by reflexivity. reflexivity.
  - rewrite C8, C7, C6, Cf, C4, C3, C2, C1 by reflexivity. reflexivity.
  - rewrite P8, P7, Pf, P5, P4, P3, P2, P1 by reflexivity. reflexivity.
Qed.

(** The loop over the projects, when it ends without an exception. *)
Lemma projects_loop (env : environment) (args : arguments) (ps : list pystr)
  (st st' : state) :
  for_each ps (process_project env args) st = (st', Ok tt) ->
  fs st' = prepare_all env args ps (fs st)
  /\ sampleNames st' = sampleNames st ++ encounter_order env args ps (fs st)
  /\ hasKEGG st' = hasKEGG st && all_present env args KO ps (fs st)
  /\ hasCOG st' = hasCOG st && all_present env args COG ps (fs st)
  /\ hasPFAM st'
     = hasPFAM st && (sqmreads args || all_present env args PFAM ps (fs st)).
Proof.
  revert st. induction ps as [|p ps IH]; simpl; intros st H.
  - unfold ret in H. injection H as <-.
    rewrite app_nil_r, !andb_true_r, orb_true_r, andb_true_r. tauto.
  - apply bind_ok in H as (s1 & [] & Hp & H).
    apply process_project_step in Hp as (F & S & K & C & P).
    apply IH in H as (F' & S' & K' & C' & P').
    rewrite <- F. repeat split.
    + exact F'.
    + rewrite S', S, app_assoc. reflexivity.
    + rewrite K', K, andb_assoc. reflexivity.
    + rewrite C', C, andb_assoc. reflexivity.
    + rewrite P', P. destruct (sqmreads args); simpl.
      * now rewrite !andb_true_r.
      * now rewrite andb_assoc.
Qed.

(* ================================================================== *)
(** * The registry of custom methods *)

Lemma In_set {V} (k k0 : pystr) (v v0 : V) (d : Dict.t V) :
  In (k, v) (Dict.set k0 v0 d) -> (k = k0 /\ v = v0) \/ In (k, v) d.
Proof.
  induction d as [|[k1 v1] d IH]; simpl.
  - intros [H|[]]. injection H as -> ->. auto.
  - destruct (str_eqb k0 k1) eqn:E; simpl.
    + apply str_eqb_eq in E. subst k1. intros [H|H]; auto.
      injection H as -> ->. auto.
    + intros [H|H]; auto. apply IH in H. tauto.
Qed.

Lemma registered_set_iff (m m' c' : pystr) (inner : Dict.t fdict)
  (d : Dict.t (Dict.t fdict)) :
  registered m' c' (Dict.set m inner d)
  <-> (m' = m /\ Dict.mem c' inner = true) \/ (m' <> m /\ registered m' c' d).
Proof.
  unfold registered. destruct (str_eqb m' m) eqn:E.
  - apply str_eqb_eq in E. subst m'. rewrite DictFacts.get_set_same. split.
    + intros [x [H1 H2]]. injection H1 as <-. auto.
    + intros [[_ H]|[H _]]; [eauto | congruence].
  - apply str_eqb_neq in E. rewrite DictFacts.get_set_other by congruence.
    split; [tauto|]. intros [[H _]|[_ H]]; [congruence | exact H].
Qed.

(** What registering a pair changes: that pair, and nothing else. *)
Lemma registered_register (m c m' c' : pystr) (d : Dict.t (Dict.t fdict)) :
  registered m' c' (register m c d)
  <-> registered m' c' d \/ (m' = m /\ c' = c).
Proof.
  unfold register. destruct (Dict.mem m d) eqn:Em.
  - apply DictFacts.mem_get in Em as [inner Hinner]. rewrite Hinner.
    destruct (Dict.mem c inner) eqn:Ec.
    + split; auto. intros [H|[-> ->]]; auto. exists inner. auto.
    + rewrite registered_set_iff, DictFacts.mem_set. split.
      * intros [[-> H]|[_ H]]; auto.
        apply orb_true_iff in H as [H|H].
        -- apply str_eqb_eq in H. auto.
        -- left. exists inner. auto.
      * intros [H|[-> ->]].
        -- destruct (str_eqb m' m) eqn:E.
           ++ apply str_eqb_eq in E. subst. left. split; auto.
              destruct H as [x [H1 H2]]. rewrite Hinner in H1.
              injection H1 as <-. rewrite H2. apply orb_true_r.
           ++ apply str_eqb_neq in E. auto.
        -- left. split; auto. now rewrite str_eqb_refl.
  - rewrite DictFacts.get_set_same. simpl.
    rewrite registered_set_iff. simpl.
    unfold Dict.mem at 1. simpl.
    assert (Hm : forall x, ~ registered m x d).
    { intros x [inner [H _]]. apply DictFacts.mem_false_get in Em. congruence. }
    split.
    + intros [[-> H]|[Hne H]].
      * destruct (str_eqb c' c) eqn:E; try discriminate.
        apply str_eqb_eq in E. auto.
      * apply registered_set_iff in H as [[H _]|[_ H]]; [contradiction | auto].
    + intros [H|[-> ->]].
      * destruct (str_eqb m' m) eqn:E.
        -- apply str_eqb_eq in E. subst. now apply Hm in H.
        -- apply str_eqb_neq in E. right. split; auto.
           apply registered_set_iff. auto.
      * left. now rewrite str_eqb_refl.
Qed.

Lemma slot_set_custom (s : slot) (d0 d : fdict) (st : state) :
  slot_get s st = Ok d0 ->
  customFunMethods (slot_set s d st) = customFunMethods st
  \/ exists method counts inner,
       Dict.get method (customFunMethods st) = Some inner
       /\ Dict.mem counts inner = true
       /\ customFunMethods (slot_set s d st)
          = Dict.set method (Dict.set counts d inner) (customFunMethods st).
Proof.
  destruct s as [f r|m c|method counts]; simpl; auto.
  unfold getitem.
  destruct (Dict.get method (customFunMethods st)) as [inner|] eqn:E;
    try discriminate.
  destruct (Dict.get counts inner) as [x|] eqn:E'; try discriminate.
  intros _. right. exists method, counts, inner. repeat split; auto.
  apply DictFacts.mem_get. eauto.
Qed.

Lemma registered_slot (m c : pystr) :
  forall st s d0 d, slot_get s st = Ok d0 ->
    registered m c (customFunMethods st) ->
    registered m c (customFunMethods (slot_set s d st)).
Proof.
  intros st s d0 d H HI.
  destruct (slot_set_custom s d0 d st H)
    as [->|(method & counts & inner & Hg & Hc & ->)]; auto.
  apply registered_set_iff. destruct (str_eqb m method) eqn:E.
  - apply str_eqb_eq in E. subst. left. split; auto.
    destruct HI as [x [H1 H2]]. rewrite Hg in H1. injection H1 as <-.
    rewrite DictFacts.mem_set, H2. apply orb_true_r.
  - apply str_eqb_neq in E. auto.
Qed.

(** A registered pair stays registered through the rest of the project
    that registered it and through every later project. *)
Lemma registered_read_tables (m c : pystr) (args : arguments) (p n : pystr)
  (cts : Dict.t (Dict.t pystr)) :
  preserves (fun st => registered m c (customFunMethods st))
            (read_tables args p n cts).
Proof.
  apply pres_read_tables; simpl; auto.
  apply registered_slot.
Qed.

Lemma registered_projects (m c : pystr) (env : environment) (args : arguments)
  (ps : list pystr) :
  preserves (fun st => registered m c (customFunMethods st))
            (for_each ps (process_project env args)).
Proof.
  apply pres_projects; simpl; auto.
  - apply registered_slot.
  - intros st f method counts _ _ H. apply registered_register. auto.
Qed.

Lemma custom_ok_empty : custom_ok Dict.empty.
Proof. split; [constructor | intros ? ? []]. Qed.

Lemma custom_ok_set (d : Dict.t (Dict.t fdict)) (m : pystr) (inner : Dict.t fdict) :
  custom_ok d ->
  ~ In DOT m -> str_in m reserved_methods = false ->
  NoDup (Dict.keys inner) ->
  (forall c, In c (Dict.keys inner) -> In c metric_suffixes) ->
  custom_ok (Dict.set m inner d).
Proof.
  intros [Hnd Hall] H1 H2 H3 H4. split.
  - now apply DictFacts.NoDup_keys_set.
  - intros method inner' Hin. apply In_set in Hin as [[-> ->]|Hin]; auto.
Qed.

Lemma custom_ok_entry (d : Dict.t (Dict.t fdict)) (m : pystr) (inner : Dict.t fdict) :
  custom_ok d -> Dict.get m d = Some inner ->
  ~ In DOT m /\ str_in m reserved_methods = false
  /\ NoDup (Dict.keys inner)
  /\ forall c, In c (Dict.keys inner) -> In c metric_suffixes.
Proof. intros [_ H] Hg. apply (H m inner). now apply DictFacts.get_In. Qed.

Lemma decompose_method_free (f m c : pystr) :
  decompose f = Some (m, c) -> ~ In DOT m.
Proof.
  intros H. apply decompose_some in H as [H _]. apply index_neg_In in H.
  pose proof (split_fields_free DOT f) as HF.
  rewrite Forall_forall in HF. now apply HF.
Qed.

Lemma is_custom_spec (m c : pystr) :
  is_custom m c = true
  <-> In c metric_suffixes /\ str_in m reserved_methods = false.
Proof.
  unfold is_custom. rewrite andb_true_iff, negb_true_iff, str_in_In. tauto.
Qed.

Lemma custom_ok_register (f m c : pystr) (d : Dict.t (Dict.t fdict)) :
  decompose f = Some (m, c) -> is_custom m c = true ->
  custom_ok d -> custom_ok (register m c d).
Proof.
  intros Hd Hc Hok. pose proof (decompose_method_free f m c Hd) as Hfree.
  apply is_custom_spec in Hc as [Hc Hr].
  unfold register. destruct (Dict.mem m d) eqn:Em.
  - apply DictFacts.mem_get in Em as [inner Hinner]. rewrite Hinner.
    destruct (Dict.mem c inner) eqn:Ec; auto.
    destruct (custom_ok_entry d m inner Hok Hinner) as (_ & _ & Hnd & Hs).
    apply custom_ok_set; auto.
    + now apply DictFacts.NoDup_keys_set.
    + intros c' Hin. rewrite DictFacts.keys_set, Ec in Hin.
      apply in_app_iff in Hin as [H|[<-|[]]]; auto.
  - rewrite DictFacts.get_set_same. simpl.
    apply custom_ok_set; auto.
    + apply custom_ok_set; auto; [constructor | intros ? []].
    + repeat constructor. intros [].
    + intros c' [<-|[]]. exact Hc.
Qed.

Lemma custom_ok_slot :
  forall st s d0 d, slot_get s st = Ok d0 ->
    custom_ok (customFunMethods st) ->
    custom_ok (customFunMethods (slot_set s d st)).
Proof.
  intros st s d0 d H Hok.
  destruct (slot_set_custom s d0 d st H)
    as [->|(method & counts & inner & Hg & Hc & ->)]; auto.
  destruct (custom_ok_entry _ method inner Hok Hg) as (H1 & H2 & H3 & H4).
  apply custom_ok_set; auto.
  - now apply DictFacts.NoDup_keys_set.
  - intros c'. rewrite DictFacts.keys_set, Hc. auto.
Qed.

Lemma custom_ok_projects (env : environment) (args : arguments) (ps : list pystr) :
  preserves (fun st => custom_ok (customFunMethods st))
            (for_each ps (process_project env args)).
Proof.
  apply pres_projects; simpl; auto.
  - apply custom_ok_slot.
  - intros st f m c Hd Hc. now apply (custom_ok_register f).
Qed.

(** A flag that is cleared stays cleared. *)
Lemma flag_cleared_projects (env : environment) (args : arguments) (m : fmethod)
  (ps : list pystr) :
  preserves (fun st => flag m st = false)
            (for_each ps (process_project env args)).
Proof.
  apply pres_projects; simpl; auto.
  - intros st s d0 d _.
    destruct (slot_set_frame s d st) as (_ & _ & _ & K & C & P & _).
    destruct m; simpl; intros H; congruence.
  - intros st H. destruct m; auto.
  - intros st H. destruct m; auto.
  - intros st H. destruct m; auto.
Qed.

(** The loop over the projects writes no table. *)
Lemma no_tables_projects (env : environment) (args : arguments)
  (ps : list pystr) (st0 : state) :
  preserves (fun st => exists evs, log st = log st0 ++ evs
                                   /\ tables_written evs = [])
            (for_each ps (process_project env args)).
Proof.
  assert (Hev : forall st e, tables_written [e] = [] ->
            (exists evs, log st = log st0 ++ evs /\ tables_written evs = []) ->
            exists evs, log st ++ [e] = log st0 ++ evs
                        /\ tables_written evs = []).
  { intros st e He (evs & -> & Hw). exists (evs ++ [e]).
    rewrite app_assoc. split; auto.
    unfold tables_written in *. rewrite flat_map_app, Hw, He. reflexivity. }
  apply pres_projects; simpl; auto.
  intros st s d0 d _.
  destruct (slot_set_frame s d st) as (_ & -> & _). auto.
Qed.

(* ================================================================== *)
(** * What the writing stage writes *)

Section Emission.

Variable args : arguments.
Variable st0 : state.

Lemma emits_ret {A} (a : A) : emits args st0 (ret a).
Proof.
  intros L st' r H. unfold ret in H. injection H as <- _.
  exists []. rewrite app_nil_r. auto.
Qed.

Lemma emits_bind {A B} (m : M A) (k : A -> M B) :
  emits args st0 m -> (forall a, emits args st0 (k a)) ->
  emits args st0 (bind m k).
Proof.
  intros Hm Hk L st' r H. unfold bind in H.
  destruct (m (set_log L st0)) as [s1 [a|e]] eqn:E.
  - apply Hm in E as (evs & -> & F).
    apply (Hk a) in H as (evs' & -> & F').
    exists (evs ++ evs'). rewrite app_assoc. split; auto.
    apply Forall_app. auto.
  - apply Hm in E as (evs & -> & F). injection H as <- _. eauto.
Qed.

Lemma emits_gets_bind {A B} (f : state -> A) (k : A -> M B) (v : A) :
  (forall L, f (set_log L st0) = v) -> emits args st0 (k v) ->
  emits args st0 (bind (gets f) k).
Proof.
  intros Hf Hk L st' r H. unfold bind, gets in H. rewrite Hf in H.
  exact (Hk L st' r H).
Qed.

Lemma emits_when (c : bool) (body : M unit) :
  (c = true -> emits args st0 body) -> emits args st0 (when c body).
Proof. destruct c; simpl; auto. intros _. apply emits_ret. Qed.

Lemma emits_for_each {A} (l : list A) (body : A -> M unit) :
  (forall x, In x l -> emits args st0 (body x)) ->
  emits args st0 (for_each l body).
Proof.
  induction l as [|x l IH]; simpl; intros H.
  - apply emits_ret.
  - apply emits_bind; auto.
Qed.

Lemma emits_get_info_bind {B} (method : pystr) (k : fdict -> M B) :
  (forall info, emits args st0 (k info)) ->
  emits args st0 (bind (get_info method) k).
Proof.
  intros Hk. apply emits_bind; auto.
  intros L st' r H. unfold get_info in H. injection H as <- _.
  exists []. rewrite app_nil_r. auto.
Qed.

Lemma emits_write_feature_dict (names : list pystr) (d : fdict) (out : pystr) :
  (forall df, feature_frame names d = Ok df -> table_of args st0 out df) ->
  emits args st0 (write_feature_dict names d out).
Proof.
  intros Ht L st' r H. unfold write_feature_dict, bind, lift, emit, modify in H.
  destruct (feature_frame names d) as [df|e] eqn:E.
  - injection H as <- _. exists [ToCsv out df]. split; auto.
    constructor; auto. exists out, df. auto.
  - injection H as <- _. exists []. rewrite app_nil_r. auto.
Qed.

Lemma feature_frame_columns (names : list pystr) (d : fdict) (df : DataFrame) :
  feature_frame names d = Ok df -> col_labels df = names.
Proof. intros H. now apply feature_frame_ok in H as (_ & H & _). Qed.

Lemma emits_write_tax (k : filter_t * rank_t) :
  In k tax_tables -> emits args st0 (write_tax args k).
Proof.
  intros Hk. unfold write_tax.
  apply (emits_gets_bind _ _ (sampleNames st0)); [reflexivity|].
  apply (emits_gets_bind _ _ (taxa st0 (fst k) (snd k))); [reflexivity|].
  apply emits_write_feature_dict. intros df H.
  apply T_tax; auto. now apply feature_frame_columns in H.
Qed.

Lemma emits_write_fun (m : fmethod) (c : metric) :
  flag m st0 = true -> emits args st0 (write_fun args m c).
Proof.
  intros Hm. unfold write_fun.
  apply (emits_gets_bind _ _ (sampleNames st0)); [reflexivity|].
  apply (emits_gets_bind _ _ (funs st0 m c)); [reflexivity|].
  apply emits_write_feature_dict. intros df H.
  apply T_fun; auto. now apply feature_frame_columns in H.
Qed.

Lemma emits_write_standard : emits args st0 (write_standard args).
Proof.
  unfold write_standard.
  apply emits_bind; [apply emits_for_each, emits_write_tax|]. intros _.
  apply (emits_gets_bind _ _ (hasKEGG st0)); [reflexivity|].
  apply emits_bind.
  { apply emits_when. intros Hk. apply emits_bind.
    - now apply emits_write_fun.
    - intros _. apply emits_when. intros _.
      apply emits_bind; [|intros _]; now apply emits_write_fun. }
  intros _. apply (emits_gets_bind _ _ (hasCOG st0)); [reflexivity|].
  apply emits_bind.
  { apply emits_when. intros Hk. apply emits_bind.
    - now apply emits_write_fun.
    - intros _. apply emits_when. intros _.
      apply emits_bind; [|intros _]; now apply emits_write_fun. }
  intros _. apply (emits_gets_bind _ _ (hasPFAM st0)); [reflexivity|].
  apply emits_when. intros Hp. apply andb_true_iff in Hp as [_ Hp].
  apply emits_bind; [now apply emits_write_fun|]. intros _.
  apply emits_bind; [|intros _]; now apply emits_write_fun.
Qed.

Lemma emits_write_custom : emits args st0 (write_custom args).
Proof.
  unfold write_custom.
  apply (emits_gets_bind _ _ (customFunMethods st0)); [reflexivity|].
  apply emits_for_each. intros [method inner] Hm.
  apply emits_for_each. intros [counts d] Hc. simpl.
  apply (emits_gets_bind _ _ (sampleNames st0)); [reflexivity|].
  apply emits_write_feature_dict. intros df H.
  apply (T_custom args st0 method inner counts d); auto.
  now apply feature_frame_columns in H.
Qed.

Lemma emits_write_names : emits args st0 (write_names args).
Proof.
  unfold write_names.
  apply (emits_gets_bind _ _ (allMethods st0)); [reflexivity|].
  apply emits_for_each. intros method Hm.
  apply emits_get_info_bind. intros info.
  apply emits_write_feature_dict. intros df _. now apply T_names.
Qed.

Lemma emits_write_combined : emits args st0 (write_combined args).
Proof.
  unfold write_combined.
  apply emits_bind; [apply emits_write_standard|]. intros _.
  apply emits_bind; [apply emits_write_custom|]. intros _.
  apply emits_write_names.
Qed.

End Emission.

Lemma set_log_same (st : state) : set_log (log st) st = st.
Proof. destruct st; reflexivity. Qed.

(** The writing stage changes the log only, and what it appends are tables
    of the state it starts in. *)
Lemma write_combined_run (args : arguments) (st st' : state) (r : result unit) :
  write_combined args st = (st', r) ->
  exists evs, st' = set_log (log st ++ evs) st
              /\ Forall (written_by args st) evs.
Proof.
  intros H. apply (emits_write_combined args st (log st) st' r).
  now rewrite set_log_same.
Qed.

Lemma tables_written_nil (evs : list event) (out : pystr) (df : DataFrame) :
  tables_written evs = [] -> ~ In (ToCsv out df) evs.
Proof.
  unfold tables_written. intros H Hin.
  assert (In (out, df) (flat_map (fun e => match e with
                                           | ToCsv n d => [(n, d)]
                                           | _ => []
                                           end) evs)).
  { apply in_flat_map. exists (ToCsv out df). split; auto. now left. }
  rewrite H in H0. destruct H0.
Qed.

(** Every table a run writes is a table of the state the loop over the
    projects ended in; a run whose loop raises writes none. *)
Lemma combine_tables_written (env : environment) (args : arguments)
  (ps : list pystr) (st st' : state) (r : result unit) :
  combine_tables env args ps st = (st', r) ->
  exists evs,
    log st' = log st ++ evs
    /\ forall out df, In (ToCsv out df) evs ->
         exists st1,
           for_each ps (process_project env args) st = (st1, Ok tt)
           /\ table_of args st1 out df
           /\ customFunMethods st' = customFunMethods st1.
Proof.
  unfold combine_tables, bind.
  destruct (for_each ps (process_project env args) st) as [st1 [[]|e]] eqn:E.
  - intros H. apply write_combined_run in H as (evs2 & -> & F).
    destruct (no_tables_projects env args ps st st st1 (Ok tt)) as (evs1 & Hl & Hw);
      auto.
    { exists []. rewrite app_nil_r. auto. }
    exists (evs1 ++ evs2). simpl. rewrite Hl, app_assoc. split; auto.
    intros out df Hin. apply in_app_iff in Hin as [Hin|Hin].
    + now apply tables_written_nil in Hin.
    + rewrite Forall_forall in F. apply F in Hin as (out' & df' & Heq & Ht).
      injection Heq as <- <-. exists st1. auto.
  - intros H. injection H as <- _.
    destruct (no_tables_projects env args ps st st st1 (Raise e)) as (evs1 & Hl & Hw);
      auto.
    { exists []. rewrite app_nil_r. auto. }
    exists evs1. split; auto. intros out df Hin.
    now apply tables_written_nil in Hin.
Qed.

(* ================================================================== *)
(** * The names of the output files *)

Lemma split_tax (k : filter_t * rank_t) :
  split DOT (tax_suffix k)
  = [rank_name (snd k); filter_name (fst k); lit "abund"; lit "tsv"].
Proof. destruct k as [[] []]; reflexivity. Qed.

Lemma split_fun (m : fmethod) (c : metric) :
  split DOT (fun_suffix m c) = [fmethod_name m; metric_name c; lit "tsv"].
Proof. destruct m, c; reflexivity. Qed.

Lemma split_custom (m c : pystr) :
  ~ In DOT m -> In c metric_suffixes ->
  split DOT (m ++ [DOT] ++ c ++ lit ".tsv") = [m; c; lit "tsv"].
Proof.
  intros Hm Hc. change (m ++ [DOT] ++ c ++ lit ".tsv")
    with (m ++ DOT :: (c ++ lit ".tsv")).
  rewrite split_app_sep by exact Hm.
  destruct Hc as [<-|[<-|[<-|[]]]]; reflexivity.
Qed.

Lemma split_names (m : pystr) :
  ~ In DOT m ->
  split DOT (m ++ lit ".names.tsv") = [m; lit "names"; lit "tsv"].
Proof.
  intros Hm. change (lit ".names.tsv") with (DOT :: lit "names.tsv").
  now rewrite split_app_sep.
Qed.

Lemma split_category (m : fmethod) (ending : pystr) :
  In ending category_endings ->
  exists field,
    split DOT (fmethod_name m ++ [DOT] ++ ending) = [fmethod_name m; field; lit "tsv"]
    /\ (field = lit "names" \/ exists c, field = metric_name c).
Proof.
  intros [<-|[<-|[<-|[<-|[]]]]].
  - exists (lit "abund"). split; [destruct m; reflexivity|].
    right. now exists abund.
  - exists (lit "copyNumber"). split; [destruct m; reflexivity|].
    right. now exists copyNumber.
  - exists (lit "tpm"). split; [destruct m; reflexivity|].
    right. now exists tpm.
  - exists (lit "names"). split; [destruct m; reflexivity|]. now left.
Qed.

Lemma fmethod_name_inj (m m' : fmethod) :
  fmethod_name m = fmethod_name m' -> m = m'.
Proof. destruct m, m'; simpl; intros H; try reflexivity; discriminate. Qed.

Lemma fmethod_name_reserved (m : fmethod) :
  str_in (fmethod_name m) reserved_methods = true.
Proof. destruct m; reflexivity. Qed.

Lemma metric_name_not_names (c : metric) : metric_name c <> lit "names".
Proof. destruct c; discriminate. Qed.

Lemma suffix_not_names (c : pystr) : In c metric_suffixes -> c <> lit "names".
Proof. intros [<-|[<-|[<-|[]]]]; discriminate. Qed.

Lemma allMethods_cases (st : state) (method : pystr) :
  In method (allMethods st) ->
  (method = lit "KO" /\ hasKEGG st = true)
  \/ (method = lit "COG" /\ hasCOG st = true)
  \/ In method (Dict.keys (customFunMethods st)).
Proof.
  unfold allMethods. rewrite !in_app_iff.
  intros [H|[H|H]]; auto.
  - destruct (hasKEGG st); [|destruct H]. destruct H as [<-|[]]. auto.
  - destruct (hasCOG st); [|destruct H]. destruct H as [<-|[]]. auto.
Qed.

Lemma In_keys_entry {V} (k : pystr) (d : Dict.t V) :
  In k (Dict.keys d) -> exists v, In (k, v) d.
Proof.
  unfold Dict.keys. intros H. apply in_map_iff in H as [[k' v] [<- H]].
  now exists v.
Qed.

Lemma allMethods_free (st : state) (method : pystr) :
  custom_ok (customFunMethods st) -> In method (allMethods st) ->
  ~ In DOT method.
Proof.
  intros [_ Hok] H. apply allMethods_cases in H as [[-> _]|[[-> _]|H]].
  - intros [H|[H|[]]]; discriminate.
  - intros [H|[H|[H|[]]]]; discriminate.
  - apply In_keys_entry in H as [inner H]. now apply (Hok method inner).
Qed.

(** The fields of the name of a written table tell what the table is. *)
Lemma table_of_fields (args : arguments) (st : state) (out : pystr)
  (df : DataFrame) :
  custom_ok (customFunMethods st) -> table_of args st out df ->
  exists body,
    out = out_prefix args ++ body
    /\ ((exists k, split DOT body
                   = [rank_name (snd k); filter_name (fst k); lit "abund"; lit "tsv"]
                   /\ col_labels df = sampleNames st)
        \/ (exists m c, flag m st = true
                        /\ split DOT body = [fmethod_name m; metric_name c; lit "tsv"]
                        /\ col_labels df = sampleNames st)
        \/ (exists method inner counts d,
              Dict.get method (customFunMethods st) = Some inner
              /\ Dict.get counts inner = Some d
              /\ split DOT body = [method; counts; lit "tsv"]
              /\ str_in method reserved_methods = false
              /\ In counts metric_suffixes
              /\ col_labels df = custom_sampleNames (sampleNames st) d)
        \/ (exists method, In method (allMethods st)
                           /\ split DOT body = [method; lit "names"; lit "tsv"])).
Proof.
  intros Hok Ht. destruct Ht as [k df Hk Hc|m c df Hm Hc
                                 |method inner counts d df Hm Hc Hcols
                                 |method df Hm]; eexists; (split; [reflexivity|]).
  - left. exists k. split; auto. apply split_tax.
  - right. left. exists m, c. repeat split; auto. apply split_fun.
  - right. right. left. destruct Hok as [Hnd Hall].
    destruct (Hall method inner Hm) as (Hfree & Hres & Hnd' & Hsuf).
    assert (Hcs : In counts metric_suffixes).
    { apply Hsuf. unfold Dict.keys. change counts with (fst (counts, d)).
      now apply in_map. }
    exists method, inner, counts, d. repeat split; auto.
    + now apply DictFacts.In_get.
    + now apply DictFacts.In_get.
    + now apply split_custom.
  - right. right. right. exists method. split; auto.
    apply split_names. now apply (allMethods_free st).
Qed.

(* ================================================================== *)
(** * Column order *)

Lemma get_keys {V} (k : pystr) (v : V) (d : Dict.t V) :
  Dict.get k d = Some v -> In k (Dict.keys d).
Proof. intros H. apply DictFacts.mem_keys, DictFacts.mem_get. eauto. Qed.

(** C3.  In a run that ends without an exception, the columns of every
    taxonomy table and of every KO, COG and PFAM table are the sample names
    in the order in which the projects, taken in the order of the project
    list, brought them; the columns of the table of a custom method are
    that same list restricted to the samples of the method's feature map. *)
Theorem sample_order_preserved :
  forall (env : environment) (args : arguments) (ps : list pystr)
         (st st' : state),
    sampleNames st = [] ->
    customFunMethods st = Dict.empty ->
    combine_tables env args ps st = (st', Ok tt) ->
    exists evs,
      log st' = log st ++ evs
      /\ forall out df, In (ToCsv out df) evs ->
           (forall k, out = out_prefix args ++ tax_suffix k ->
                      col_labels df = encounter_order env args ps (fs st))
           /\ (forall m c, out = out_prefix args ++ fun_suffix m c ->
                           col_labels df = encounter_order env args ps (fs st))
           /\ (forall method inner counts d,
                 Dict.get method (customFunMethods st') = Some inner ->
                 Dict.get counts inner = Some d ->
                 out = out_prefix args ++ method ++ [DOT] ++ counts ++ lit ".tsv" ->
                 col_labels df
                 = filter (fun s => Dict.mem s d)
                          (encounter_order env args ps (fs st))).
Proof.
  intros env args ps st st' Hs Hc Hrun.
  destruct (combine_tables_written env args ps st st' (Ok tt) Hrun)
    as (evs & Hlog & Hev).
  exists evs. split; auto. intros out df Hin.
  destruct (Hev out df Hin) as (st1 & Hloop & Ht & Hcfm).
  pose proof (projects_loop env args ps st st1 Hloop) as (_ & Hnames & _).
  rewrite Hs in Hnames. simpl in Hnames.
  assert (Hok : custom_ok (customFunMethods st1)).
  { apply (custom_ok_projects env args ps st st1 (Ok tt)); auto.
    rewrite Hc. apply custom_ok_empty. }
  destruct (table_of_fields args st1 out df Hok Ht) as (body & -> & Hcases).
  rewrite <- Hnames. repeat split.
  - intros k Hk. apply app_inv_head in Hk. subst body. rewrite split_tax in Hcases.
    destruct Hcases as [(k' & _ & H)|[(m & c & _ & H & _)
                        |[(me & i & co & d & _ & _ & H & _)|(me & _ & H)]]];
      auto; discriminate.
  - intros m c Hk. apply app_inv_head in Hk. subst body.
    rewrite split_fun in Hcases.
    destruct Hcases as [(k' & H & _)|[(m' & c' & _ & _ & H)
                        |[(me & i & co & d & _ & _ & H & Hres & _)|(me & _ & H)]]];
      auto; try discriminate.
    + injection H as <- _. rewrite fmethod_name_reserved in Hres. discriminate.
    + injection H as _ H. now apply metric_name_not_names in H.
  - intros method inner counts d Hm Hd Hk. apply app_inv_head in Hk. subst body.
    rewrite Hcfm in Hm.
    destruct (custom_ok_entry _ method inner Hok Hm) as (Hfree & Hres & _ & Hsuf).
    assert (Hcs : In counts metric_suffixes) by (eapply Hsuf, get_keys; eauto).
    rewrite split_custom in Hcases by auto.
    destruct Hcases as [(k' & H & _)|[(m' & c' & _ & H & _)
                        |[(me & i & co & d' & Hm' & Hd' & H & _ & _ & Hcols)
                         |(me & _ & H)]]];
      try discriminate.
    + injection H as -> _. rewrite fmethod_name_reserved in Hres. discriminate.
    + injection H as <- <-. rewrite Hm in Hm'. injection Hm' as <-.
      rewrite Hd in Hd'. injection Hd' as <-. exact Hcols.
    + injection H as _ H. now apply suffix_not_names in Hcs.
Qed.

Lemma sample_order_preserved_witness :
  let args := example_args [] false in
  let ps := [lit "B"; lit "A"] in
  let st := start_state example_fs in
  let st' := fst (combine_tables example_env args ps st) in
  exists evs,
    log st' = log st ++ evs
    /\ forall out df, In (ToCsv out df) evs ->
         (forall k, out = out_prefix args ++ tax_suffix k ->
                    col_labels df = [lit "S2"; lit "S1"])
         /\ (forall m c, out = out_prefix args ++ fun_suffix m c ->
                         col_labels df = [lit "S2"; lit "S1"])
         /\ (forall method inner counts d,
               Dict.get method (customFunMethods st') = Some inner ->
               Dict.get counts inner = Some d ->
               out = out_prefix args ++ method ++ [DOT] ++ counts ++ lit ".tsv" ->
               col_labels df
               = filter (fun s => Dict.mem s d) [lit "S2"; lit "S1"]).
Proof.
  intros args ps st st'.
  apply (sample_order_preserved example_env args ps st st').
  - reflexivity.
  - reflexivity.
  - vm_compute. reflexivity.
Defined.

(* ================================================================== *)
(** * Presence flags *)

Lemma cleared_category_not_written (args : arguments) (st : state)
  (m : fmethod) (out : pystr) (df : DataFrame) (ending : pystr) :
  custom_ok (customFunMethods st) -> flag m st = false ->
  table_of args st out df -> In ending category_endings ->
  out <> out_prefix args ++ fmethod_name m ++ [DOT] ++ ending.
Proof.
  intros Hok Hflag Ht Hend Hout.
  destruct (table_of_fields args st out df Hok Ht) as (body & -> & Hcases).
  apply app_inv_head in Hout. subst body.
  destruct (split_category m ending Hend) as (field & Hsplit & Hfield).
  rewrite Hsplit in Hcases.
  destruct Hcases as [(k' & H & _)|[(m' & c' & Hm' & H & _)
                      |[(me & i & co & d' & _ & _ & H & Hres & _)
                       |(me & Hme & H)]]]; try discriminate.
  - injection H as H _. apply fmethod_name_inj in H. subst m'. congruence.
  - injection H as <- _. rewrite fmethod_name_reserved in Hres. discriminate.
  - injection H as <- _.
    apply allMethods_cases in Hme as [[Hk Hf]|[[Hk Hf]|Hk]].
    + destruct m; try discriminate. simpl in Hflag. congruence.
    + destruct m; try discriminate. simpl in Hflag. congruence.
    + apply In_keys_entry in Hk as [inner Hk]. destruct Hok as [_ Hall].
      destruct (Hall _ _ Hk) as (_ & Hres & _).
      rewrite fmethod_name_reserved in Hres. discriminate.
Qed.

(** C5, as the code has it.  The KEGG and COG flags start true, the PFAM
    flag starts true in standard mode and false in reads mode.  After any
    number of projects, a flag is still set exactly when it started set and
    every project so far had the method's abundance table when it was read
    (in reads mode the PFAM table is not looked at).  A cleared flag stays
    cleared whatever follows, and the run then writes no abundance, copy
    number, tpm or names table of that method. *)
Theorem presence_flags :
  forall (env : environment) (args : arguments) (ps1 ps2 : list pystr)
         (st st1 st' : state) (r : result unit) (m : fmethod),
    customFunMethods st = Dict.empty ->
    for_each ps1 (process_project env args) st = (st1, Ok tt) ->
    combine_tables env args (ps1 ++ ps2) st = (st', r) ->
    (forall s, hasKEGG (fst (define_variables args s)) = true
               /\ hasCOG (fst (define_variables args s)) = true
               /\ hasPFAM (fst (define_variables args s)) = negb (sqmreads args))
    /\ hasKEGG st1 = hasKEGG st && all_present env args KO ps1 (fs st)
    /\ hasCOG st1 = hasCOG st && all_present env args COG ps1 (fs st)
    /\ hasPFAM st1
       = hasPFAM st && (sqmreads args || all_present env args PFAM ps1 (fs st))
    /\ (flag m st1 = false ->
        (forall ps s s' r', for_each ps (process_project env args) s = (s', r') ->
                            flag m s = false -> flag m s' = false)
        /\ exists evs,
             log st' = log st ++ evs
             /\ forall out df ending,
                  In (ToCsv out df) evs -> In ending category_endings ->
                  out <> out_prefix args ++ fmethod_name m ++ [DOT] ++ ending).
Proof.
  intros env args ps1 ps2 st st1 st' r m Hc Hloop Hrun.
  pose proof (projects_loop env args ps1 st st1 Hloop) as (_ & _ & K & C & P).
  split; [|split; [|split; [|split]]]; auto.
  intros Hm. split.
  - intros ps s s' r' H Hf.
    exact (flag_cleared_projects env args m ps s s' r' Hf H).
  - destruct (combine_tables_written env args (ps1 ++ ps2) st st' r Hrun)
      as (evs & Hlog & Hev).
    exists evs. split; auto. intros out df ending Hin Hend.
    destruct (Hev out df Hin) as (st2 & Hloop2 & Ht & _).
    rewrite for_each_app, Hloop in Hloop2.
    apply (cleared_category_not_written args st2 m out df ending); auto.
    + apply (custom_ok_projects env args (ps1 ++ ps2) st st2 (Ok tt)).
      * rewrite Hc. apply custom_ok_empty.
      * now rewrite for_each_app, Hloop.
    + exact (flag_cleared_projects env args m ps2 st1 st2 (Ok tt) Hm Hloop2).
Qed.

(** C5 as stated fails: in reads mode the PFAM flag does not start true. *)
Lemma presence_flags_counterexample :
  hasPFAM (fst (define_variables (example_args [] true)
                                 (start_state example_fs))) = false.
Proof. reflexivity. Qed.

Lemma presence_flags_witness :
  let args := example_args [] false in
  let st := start_state example_fs in
  let st1 := fst (for_each [lit "N"] (process_project example_env args) st) in
  let st' := fst (combine_tables example_env args [lit "N"; lit "B"] st) in
  hasKEGG st1 = false
  /\ exists evs,
       log st' = log st ++ evs
       /\ forall out df ending,
            In (ToCsv out df) evs -> In ending category_endings ->
            out <> out_prefix args ++ fmethod_name KO ++ [DOT] ++ ending.
Proof.
  intros args st st1 st'.
  assert (HK : hasKEGG st1 = false) by (vm_compute; reflexivity).
  split; [exact HK|].
  pose proof (presence_flags example_env args [lit "N"] [lit "B"] st st1 st'
                (snd (combine_tables example_env args [lit "N"; lit "B"] st)) KO)
    as H.
  assert (H1 : customFunMethods st = Dict.empty) by reflexivity.
  assert (H2 : for_each [lit "N"] (process_project example_env args) st
               = (st1, Ok tt)) by (vm_compute; reflexivity).
  assert (H3 : combine_tables example_env args ([lit "N"] ++ [lit "B"]) st
               = (st', snd (combine_tables example_env args
                              [lit "N"; lit "B"] st)))
    by apply surjective_pairing.
  destruct (H H1 H2 H3) as (_ & _ & _ & _ & Hout).
  destruct (Hout HK) as [_ Hevs]. exact Hevs.
Defined.

(* ================================================================== *)
(** * Discovery of custom methods *)

Lemma decompose_fields (f : pystr) :
  3 <= List.length (split DOT f) -> exists m c, decompose f = Some (m, c).
Proof.
  intros H. unfold decompose.
  destruct (index_neg_some (split DOT f) 3) as [m ->]; [lia|].
  destruct (index_neg_some (split DOT f) 2) as [c ->]; [lia|].
  eauto.
Qed.

Lemma discover_files_run (names : list pystr) :
  (forall f, In f names -> 3 <= List.length (split DOT f)) ->
  forall (cts : Dict.t (Dict.t pystr)) (st : state),
  exists st' cts',
    fold_each names cts discover_file st = (st', Ok cts')
    /\ forall m c,
         registered m c (customFunMethods st')
         <-> registered m c (customFunMethods st)
             \/ exists f, In f names /\ decompose f = Some (m, c)
                          /\ is_custom m c = true.
Proof.
  induction names as [|f names IH]; intros Hall cts st; simpl.
  - exists st, cts. split; [reflexivity|]. intros m c. split; auto.
    intros [H|(f & [] & _)]. exact H.
  - destruct (decompose_fields f) as (m0 & c0 & Hd); [apply Hall; now left|].
    assert (Hall' : forall f', In f' names -> 3 <= List.length (split DOT f'))
      by (intros f' Hf'; apply Hall; now right).
    destruct (is_custom m0 c0) eqn:Hc.
    + destruct (discover_file_custom f m0 c0 cts st Hd Hc) as [cts1 Hrun].
      destruct (IH Hall' cts1
                  (set_customFunMethods
                     (register m0 c0 (customFunMethods st)) st))
        as (st' & cts' & Hfold & Hreg).
      exists st', cts'. split.
      * now rewrite (bind_step _ _ _ _ _ Hrun).
      * intros m c. rewrite Hreg. simpl. rewrite registered_register. split.
        -- intros [[H|[-> ->]]|(f' & Hf' & H)]; auto.
           ++ right. exists f. auto.
           ++ right. exists f'. tauto.
        -- intros [H|(f' & [<-|Hf'] & Hd' & Hc')]; auto.
           ++ rewrite Hd in Hd'. injection Hd' as <- <-. auto.
           ++ right. exists f'. auto.
    + pose proof (discover_file_other f m0 c0 cts st Hd Hc) as Hrun.
      destruct (IH Hall' cts st) as (st' & cts' & Hfold & Hreg).
      exists st', cts'. split.
      * now rewrite (bind_step _ _ _ _ _ Hrun).
      * intros m c. rewrite Hreg. split.
        -- intros [H|(f' & Hf' & H)]; auto. right. exists f'. tauto.
        -- intros [H|(f' & [<-|Hf'] & Hd' & Hc')]; auto.
           ++ rewrite Hd in Hd'. injection Hd' as <- <-. congruence.
           ++ right. exists f'. auto.
Qed.

Lemma registered_combine_tables (m c : pystr) (env : environment)
  (args : arguments) (ps : list pystr) :
  preserves (fun st => registered m c (customFunMethods st))
            (combine_tables env args ps).
Proof.
  apply pres_bind; [apply registered_projects|]. intros _.
  intros st st' r HI H. apply write_combined_run in H as (evs & -> & _).
  exact HI.
Qed.

(** C7, as the code has it.  When every name of the project's table
    directory has at least three dot-separated fields, discovery ends
    without an exception, and afterwards a pair (method, suffix) is
    registered exactly when it was registered before or is the pair
    ([fields[-3]], [fields[-2]]) of one of the names, with the suffix among
    abund, tpm and copyNumber and the method not reserved.  A registered
    pair stays registered through the rest of the project and through any
    run of the later projects and the writing stage. *)
Theorem custom_method_discovery :
  forall (projPath : pystr) (names : list pystr) (st : state),
    fs_dir (fs st) (projPath ++ lit "/results/tables/") = Some names ->
    (forall f, In f names -> 3 <= List.length (split DOT f)) ->
    exists st' cts,
      discover_custom projPath st = (st', Ok cts)
      /\ (forall m c,
            registered m c (customFunMethods st')
            <-> registered m c (customFunMethods st)
                \/ exists f, In f names /\ decompose f = Some (m, c)
                             /\ In c metric_suffixes
                             /\ ~ In m reserved_methods)
      /\ forall m c,
           (forall args n cts0,
              preserves (fun s => registered m c (customFunMethods s))
                        (read_tables args projPath n cts0))
           /\ (forall env args ps,
                 preserves (fun s => registered m c (customFunMethods s))
                           (combine_tables env args ps)).
Proof.
  intros projPath names st Hdir Hall.
  destruct (discover_files_run names Hall Dict.empty st)
    as (st' & cts & Hfold & Hreg).
  exists st', cts. repeat split.
  - unfold discover_custom, bind, listdir. now rewrite Hdir.
  - intros H. apply Hreg in H as [H|(f & Hf & Hd & Hc)]; auto.
    right. exists f. apply is_custom_spec in Hc as [Hc Hr].
    apply str_in_false in Hr. auto.
  - intros [H|(f & Hf & Hd & Hc & Hr)]; apply Hreg; auto.
    right. exists f. repeat split; auto.
    apply is_custom_spec. split; auto. now apply str_in_false.
  - intros args n cts0. apply registered_read_tables.
  - intros env args ps. apply registered_combine_tables.
Qed.

Lemma custom_method_discovery_witness :
  let names := example_listing (lit "A") example_A in
  let st := start_state example_fs in
  exists st' cts,
    discover_custom (lit "A") st = (st', Ok cts)
    /\ (forall m c,
          registered m c (customFunMethods st')
          <-> registered m c (customFunMethods st)
              \/ exists f, In f names /\ decompose f = Some (m, c)
                           /\ In c metric_suffixes
                           /\ ~ In m reserved_methods)
    /\ forall m c,
         (forall args n cts0,
            preserves (fun s => registered m c (customFunMethods s))
                      (read_tables args (lit "A") n cts0))
         /\ (forall env args ps,
               preserves (fun s => registered m c (customFunMethods s))
                         (combine_tables env args ps)).
Proof.
  intros names st.
  apply (custom_method_discovery (lit "A") names st).
  - reflexivity.
  - assert (H : forallb (fun f => Nat.leb 3 (List.length (split DOT f))) names
                = true) by (vm_compute; reflexivity).
    intros f Hf. apply Nat.leb_le.
    exact (proj1 (forallb_forall _ names) H f Hf).
Defined.

(** C7 as stated fails on a name with fewer than three fields: the listing
    of [R] holds [README] and the table of a custom method; discovery
    raises [IndexError] and registers nothing. *)
Lemma custom_method_discovery_counterexample :
  fs_dir example_fs (lit "R/results/tables/")
  = Some [lit "README"; lit "R.MyMethod.abund.tsv"]
  /\ decompose (lit "R.MyMethod.abund.tsv") = Some (lit "MyMethod", lit "abund")
  /\ is_custom (lit "MyMethod") (lit "abund") = true
  /\ snd (discover_custom (lit "R") (start_state example_fs)) = Raise IndexError
  /\ customFunMethods (fst (discover_custom (lit "R") (start_state example_fs)))
     = Dict.empty.
Proof. repeat split; vm_compute; reflexivity. Qed.

(* ================================================================== *)
(** * Custom methods that some projects lack *)

Lemma add_names_of_ok (p n method : pystr) (st st' : state) :
  add_names_of p n method st = (st', Ok tt) ->
  isfile (fs st) (names_path p n method) = true /\ fs st' = fs st.
Proof.
  intros H. split.
  - unfold add_names_of in H.
    apply bind_ok in H as (s0 & known & Hg & H).
    unfold gets in Hg. injection Hg as <- _.
    apply bind_ok in H as (s1 & [] & Hw & H).
    apply bind_ok in H as (s2 & infile & Ho & _).
    assert (Hfs : fs s1 = fs st).
    { destruct (negb known); simpl in Hw.
      - unfold modify in Hw. now injection Hw as <-.
      - unfold ret in Hw. now injection Hw as <-. }
    unfold open in Ho. rewrite Hfs in Ho. unfold isfile.
    destruct (fs_file (fs st) (names_path p n method)); [reflexivity|discriminate].
  - assert (keeps true true true true st st') as (F & _); auto.
    eapply (pres_add_names_of (keeps true true true true st)
              (keeps_names _ _ _ _ st)); eauto using keeps_refl.
Qed.

(** The names loop (lines 241-254) opens a names table for every method
    registered so far, whether or not this project has the method. *)
Lemma add_names_needs_every_method (p n : pystr) (st st' : state) :
  add_names p n st = (st', Ok tt) ->
  forall method, In method (Dict.keys (customFunMethods st)) ->
                 isfile (fs st) (names_path p n method) = true.
Proof.
  unfold add_names, bind, gets. intros H method Hm.
  assert (Hin : In method (allMethods st)).
  { unfold allMethods. rewrite !in_app_iff. auto. }
  revert Hin H. generalize (allMethods st). intros l.
  assert (G : forall s, fs s = fs st ->
            In method l -> for_each l (add_names_of p n) s = (st', Ok tt) ->
            isfile (fs st) (names_path p n method) = true); [|now apply G].
  induction l as [|x l IH]; intros s Hs Hin H; [destruct Hin|].
  simpl in H. apply bind_ok in H as (s1 & [] & Hx & H).
  apply add_names_of_ok in Hx as [Hfile Hfs].
  destruct Hin as [->|Hin].
  - now rewrite Hs in Hfile.
  - apply (IH s1); auto. congruence.
Qed.

(** C6 fails when the project that lacks the method comes after one that
    has it.  Project [A] has the custom method [MyMethod], project [B] does
    not.  In the order [A], [B] the run raises when it opens
    [B.MyMethod.names.tsv] and writes no table; in the order [B], [A] it
    ends normally and the method's table has the one sample of [A]. *)
Theorem custom_method_order_dependence :
  snd (main example_env (example_args [lit "A"; lit "B"] false)
            (start_state example_fs))
  = Raise (FileNotFoundError (lit "B/results/tables/B.MyMethod.names.tsv"))
  /\ tables_written
       (log (fst (main example_env (example_args [lit "A"; lit "B"] false)
                       (start_state example_fs)))) = []
  /\ snd (main example_env (example_args [lit "B"; lit "A"] false)
               (start_state example_fs)) = Ok tt
  /\ map (fun t => col_labels (snd t))
         (filter (fun t => str_eqb (fst t)
                             (lit "combined/combined.MyMethod.abund.tsv"))
                 (tables_written
                    (log (fst (main example_env
                                 (example_args [lit "B"; lit "A"] false)
                                 (start_state example_fs))))))
     = [[lit "S1"]].
Proof. repeat split; vm_compute; reflexivity. Qed.

(* ================================================================== *)
(** * The whole script *)

(** A run of [main] that ends normally is a run of lines 137-316 from the
    state lines 90-134 define: no sample names, no custom methods, the KEGG
    and COG flags set and the PFAM flag set unless in reads mode. *)
Lemma main_combines (env : environment) (args : arguments) (st st' : state) :
  main env args st = (st', Ok tt) ->
  exists ps s0,
    sampleNames s0 = []
    /\ customFunMethods s0 = Dict.empty
    /\ hasKEGG s0 = true /\ hasCOG s0 = true
    /\ hasPFAM s0 = negb (sqmreads args)
    /\ combine_tables env args ps s0 = (st', Ok tt).
Proof.
  unfold main. intros H.
  apply bind_ok in H as (s1 & [] & _ & H).
  apply bind_ok in H as (s2 & ps & _ & H).
  apply bind_ok in H as (s3 & [] & _ & H).
  apply bind_ok in H as (s4 & [] & Hd & H).
  unfold define_variables, modify in Hd. injection Hd as <-.
  eexists ps, _. repeat split; [..|exact H]; reflexivity.
Qed.

(* ================================================================== *)
(** * [write_feature_dict]: samples without data *)

Lemma select_filter_mem (names : list pystr) (d : fdict) :
  filter (fun s => match find_column
                           (df_columns (sort_index (fillna 0 (from_dict d)))) s with
                   | Some _ => false | None => true end) names
  = filter (fun s => negb (Dict.mem s d)) names.
Proof.
  apply filter_ext. intros s. rewrite sorted_filled_column.
  unfold Dict.mem. destruct (Dict.get s d); reflexivity.
Qed.

(** X1.  [write_feature_dict] writes its table exactly when every requested
    sample is a key of the map; otherwise it raises [KeyError] with the
    requested samples that are missing, in the order they were asked for,
    and writes nothing. *)
Theorem write_feature_dict_missing_samples :
  forall (names : list pystr) (d : fdict) (out : pystr) (st : state),
    match filter (fun s => negb (Dict.mem s d)) names with
    | [] => exists df, write_feature_dict names d out st
                       = (set_log (log st ++ [ToCsv out df]) st, Ok tt)
    | missing => write_feature_dict names d out st
                 = (st, Raise (KeyError missing))
    end.
Proof.
  intros names d out st.
  unfold write_feature_dict, bind, lift, feature_frame, select_columns.
  rewrite select_filter_mem.
  destruct (filter (fun s => negb (Dict.mem s d)) names) as [|m ms].
  - eexists. reflexivity.
  - reflexivity.
Qed.

(* ================================================================== *)
(** * A run that stops in the loop writes nothing *)

(** X2.  When the loop over the projects raises, the run ends with that
    exception in the state the loop left, and it has written no table:
    tables are written only after every project was read. *)
Theorem no_partial_output :
  forall (env : environment) (args : arguments) (ps : list pystr)
         (st st1 : state) (e : exn),
    for_each ps (process_project env args) st = (st1, Raise e) ->
    combine_tables env args ps st = (st1, Raise e)
    /\ exists evs, log st1 = log st ++ evs /\ tables_written evs = [].
Proof.
  intros env args ps st st1 e H. split.
  - unfold combine_tables. now apply bind_raise.
  - apply (no_tables_projects env args ps st st st1 (Raise e)); auto.
    exists []. rewrite app_nil_r. auto.
Qed.

Lemma no_partial_output_witness :
  let args := example_args [] false in
  let ps := [lit "A"; lit "C"] in
  let st := start_state example_fs in
  let st1 := fst (for_each ps (process_project example_env args) st) in
  let e := Exception (invalid_project_message (lit "C")) in
  combine_tables example_env args ps st = (st1, Raise e)
  /\ exists evs, log st1 = log st ++ evs /\ tables_written evs = [].
Proof.
  intros args ps st st1 e.
  apply (no_partial_output example_env args ps st st1 e).
  vm_compute. reflexivity.
Defined.

(* ================================================================== *)
(** * [parse_table]: when it succeeds *)

Lemma set_fresh {V} (k : pystr) (v : V) (d : Dict.t V) :
  Dict.mem k d = false -> Dict.set k v d = d ++ [(k, v)].
Proof.
  unfold Dict.mem. induction d as [|[k' v'] d IH]; simpl; auto.
  destruct (str_eqb k k'); try discriminate. intros H. now rewrite IH.
Qed.

Lemma add_samples_fresh (path : pystr) (samples : list pystr) (d : fdict) :
  NoDup samples -> (forall s, In s samples -> Dict.mem s d = false) ->
  add_samples path samples d
  = (d ++ map (fun s => (s, Dict.empty)) samples, Ok tt).
Proof.
  revert d. induction samples as [|s samples IH]; simpl; intros d Hnd Hf.
  - now rewrite app_nil_r.
  - inversion Hnd as [|? ? Hs Hnd']; subst.
    rewrite (Hf s) by now left.
    rewrite IH; auto.
    + rewrite set_fresh by (apply Hf; now left).
      now rewrite <- app_assoc.
    + intros x Hx. rewrite DictFacts.mem_set.
      rewrite (Hf x) by now right.
      assert (str_eqb x s = false) as ->; auto.
      apply str_eqb_neq. intros ->. contradiction.
Qed.

Lemma add_samples_ok_nodup (path : pystr) (samples : list pystr) (d d' : fdict) :
  add_samples path samples d = (d', Ok tt) -> NoDup samples.
Proof.
  revert d. induction samples as [|s samples IH]; simpl; intros d H.
  - constructor.
  - destruct (Dict.mem s d) eqn:E; try discriminate.
    constructor; [|eapply IH; eauto].
    intros Hin. apply add_samples_ok in H as (Hf & _).
    specialize (Hf s Hin). rewrite DictFacts.mem_set, str_eqb_refl in Hf.
    discriminate.
Qed.

Lemma add_samples_raises (path : pystr) (samples : list pystr) (d d' : fdict)
  (e : exn) :
  add_samples path samples d = (d', Raise e) ->
  exists sample, In sample samples
                 /\ e = Exception (duplicate_message path sample).
Proof.
  revert d. induction samples as [|s samples IH]; simpl; intros d H.
  - discriminate.
  - destruct (Dict.mem s d) eqn:E.
    + injection H as _ <-. exists s. auto.
    + apply IH in H as (x & Hx & ->). exists x. auto.
Qed.

Lemma keys_app {V} (a b : Dict.t V) :
  Dict.keys (a ++ b) = Dict.keys a ++ Dict.keys b.
Proof. unfold Dict.keys. apply map_app. Qed.

Lemma mem_same_keys {V W} (a : Dict.t V) (b : Dict.t W) (k : pystr) :
  Dict.keys a = Dict.keys b -> Dict.mem k a = Dict.mem k b.
Proof.
  intros H. destruct (Dict.mem k b) eqn:E.
  - apply DictFacts.mem_keys. rewrite H. now apply DictFacts.mem_keys.
  - destruct (Dict.mem k a) eqn:E'; auto.
    apply DictFacts.mem_keys in E'. rewrite H in E'.
    apply DictFacts.mem_keys in E'. congruence.
Qed.


(** The loop over a row's values raises nothing when every sample is a
    key, and adds no key. *)
Lemma add_values_total (feature : pystr) (pairs : list (pystr * pystr))
  (d : fdict) :
  (forall p, In p pairs -> Dict.mem (fst p) d = true) ->
  exists d', add_values feature pairs d = (d', Ok tt)
             /\ Dict.keys d' = Dict.keys d.
Proof.
  revert d. induction pairs as [|[s v] pairs IH]; simpl; intros d H.
  - eauto.
  - assert (Hs : Dict.mem s d = true) by (apply (H (s, v)); now left).
    pose proof Hs as Hs'.
    apply DictFacts.mem_get in Hs as [inner ->].
    assert (Hk : Dict.keys (Dict.set s (Dict.set feature v inner) d) = Dict.keys d)
      by (now rewrite DictFacts.keys_set, Hs').
    destruct (IH (Dict.set s (Dict.set feature v inner) d)) as (d' & -> & Hk').
    + intros p Hp. rewrite (mem_same_keys _ d) by exact Hk. apply H. now right.
    + exists d'. split; auto. congruence.
Qed.

Lemma add_lines_total (samples lines : list pystr) (d : fdict) :
  (forall s, In s samples -> Dict.mem s d = true) ->
  exists d', add_lines samples lines d = (d', Ok tt)
             /\ Dict.keys d' = Dict.keys d.
Proof.
  revert d. induction lines as [|line lines IH]; simpl; intros d H.
  - eauto.
  - destruct (add_values_total (hd [] (split TAB (strip line)))
                (combine samples (tl (split TAB (strip line)))) d)
      as (d1 & -> & Hk).
    + intros [s v] Hp. apply in_combine_l in Hp. now apply H.
    + destruct (IH d1) as (d' & -> & Hk').
      * intros s Hs. rewrite (mem_same_keys _ d) by exact Hk. now apply H.
      * exists d'. split; auto. congruence.
Qed.

Lemma parse_table_ok_keys (files : filesystem) (path : pystr) (d d' : fdict)
  (samples : list pystr) :
  parse_table files path d = (d', Ok samples) ->
  Dict.keys d' = Dict.keys d ++ samples
  /\ NoDup samples
  /\ forall s, In s samples -> Dict.mem s d = false.
Proof.
  unfold parse_table. destruct (fs_file files path) as [lines|]; try discriminate.
  destruct (add_samples path (header_samples lines) d) as [d1 [[]|e]] eqn:E;
    try discriminate.
  pose proof (add_samples_ok_nodup _ _ _ _ E) as Hnd.
  pose proof (add_samples_ok _ _ _ _ E) as (Hfresh & Hmem & _).
  rewrite (add_samples_fresh path _ d Hnd Hfresh) in E. injection E as <-.
  destruct (add_lines_total (header_samples lines) (tl lines)
              (d ++ map (fun s => (s, Dict.empty)) (header_samples lines)))
    as (d2 & -> & Hk); auto.
  intros H. injection H as <- <-. repeat split; auto.
  rewrite Hk, keys_app. f_equal.
  unfold Dict.keys. rewrite map_map. simpl. apply map_id.
Qed.

(** X3.  On a file that can be read, [parse_table] either returns the
    sample names of the header or raises the duplicate-sample exception for
    one of them, and nothing else: short or ragged data rows raise nothing.
    It returns exactly when the header names are pairwise distinct and none
    is a key of the dictionary; the keys of the dictionary are then the
    former keys followed by the header names, in the order of the header. *)
Theorem parse_table_succeeds_iff :
  forall (files : filesystem) (path : pystr) (lines : list pystr) (d : fdict),
    fs_file files path = Some lines ->
    (snd (parse_table files path d) = Ok (header_samples lines)
     \/ exists sample, In sample (header_samples lines)
          /\ snd (parse_table files path d)
             = Raise (Exception (duplicate_message path sample)))
    /\ (snd (parse_table files path d) = Ok (header_samples lines)
        <-> NoDup (header_samples lines)
            /\ forall s, In s (header_samples lines) -> Dict.mem s d = false)
    /\ (snd (parse_table files path d) = Ok (header_samples lines) ->
        Dict.keys (fst (parse_table files path d))
        = Dict.keys d ++ header_samples lines).
Proof.
  intros files path lines d Hfile. unfold parse_table. rewrite Hfile.
  destruct (add_samples path (header_samples lines) d) as [d1 [[]|e]] eqn:E.
  - pose proof (add_samples_ok_nodup _ _ _ _ E) as Hnd.
    pose proof (add_samples_ok _ _ _ _ E) as (Hfresh & Hmem & _).
    rewrite (add_samples_fresh path _ d Hnd Hfresh) in E.
    injection E as <-.
    destruct (add_lines_total (header_samples lines) (tl lines)
                (d ++ map (fun s => (s, Dict.empty)) (header_samples lines)))
      as (d' & -> & Hk); auto.
    simpl. repeat split; auto.
    intros _. rewrite Hk, keys_app. f_equal.
    unfold Dict.keys. rewrite map_map. simpl. apply map_id.
  - simpl. pose proof (add_samples_raises _ _ _ _ _ E) as (sample & Hin & ->).
    split; [right; eauto|]. split; [|discriminate].
    split; [discriminate|].
    intros [Hnd Hf]. rewrite (add_samples_fresh path _ d Hnd Hf) in E.
    discriminate.
Qed.

Lemma parse_table_succeeds_iff_witness :
  let path := project_table (lit "A") (lit "A") (tax_suffix (allfilter, superkingdom)) in
  let lines := one_sample_table (lit "S1") (lit "Bacteria") (lit "5") in
  let d : fdict := [(lit "S0", [(lit "Archaea", lit "1")])] in
  (snd (parse_table example_fs path d) = Ok (header_samples lines)
   \/ exists sample, In sample (header_samples lines)
        /\ snd (parse_table example_fs path d)
           = Raise (Exception (duplicate_message path sample)))
  /\ (snd (parse_table example_fs path d) = Ok (header_samples lines)
      <-> NoDup (header_samples lines)
          /\ forall s, In s (header_samples lines) -> Dict.mem s d = false)
  /\ (snd (parse_table example_fs path d) = Ok (header_samples lines) ->
      Dict.keys (fst (parse_table example_fs path d))
      = Dict.keys d ++ header_samples lines).
Proof.
  intros path lines d.
  apply (parse_table_succeeds_iff example_fs path lines d).
  reflexivity.
Defined.

(* ================================================================== *)
(** * [parse_table]: the values it stores *)

Lemma stored_set (s0 s f : pystr) (x : Dict.t pystr) (d : fdict) :
  stored (Dict.set s0 x d) s f
  = if str_eqb s s0 then Dict.get f x else stored d s f.
Proof.
  unfold stored. destruct (str_eqb s s0) eqn:E.
  - apply str_eqb_eq in E. subst. now rewrite DictFacts.get_set_same.
  - apply str_eqb_neq in E. rewrite DictFacts.get_set_other; auto.
Qed.

Lemma get_set_eqb {V} (k k' : pystr) (v : V) (d : Dict.t V) :
  Dict.get k' (Dict.set k v d) = if str_eqb k' k then Some v else Dict.get k' d.
Proof.
  destruct (str_eqb k' k) eqn:E.
  - apply str_eqb_eq in E. subst. apply DictFacts.get_set_same.
  - apply str_eqb_neq in E. apply DictFacts.get_set_other. congruence.
Qed.

Lemma get_not_in {V} (k : pystr) (d : Dict.t V) :
  ~ In k (Dict.keys d) -> Dict.get k d = None.
Proof.
  intros H. apply DictFacts.mem_false_get.
  destruct (Dict.mem k d) eqn:E; auto. now apply DictFacts.mem_keys in E.
Qed.

(** What one row stores: under its feature, the value paired with each
    sample; everything else is as before. *)
Lemma add_values_stored (feature : pystr) (pairs : Dict.t pystr) (d : fdict) :
  NoDup (Dict.keys pairs) ->
  (forall p, In p pairs -> Dict.mem (fst p) d = true) ->
  forall s f,
    stored (fst (add_values feature pairs d)) s f
    = if str_eqb f feature
      then match Dict.get s pairs with
           | Some v => Some v
           | None => stored d s f
           end
      else stored d s f.
Proof.
  revert d. induction pairs as [|[s0 v0] pairs IH]; intros d Hnd Hk s f.
  - simpl. now destruct (str_eqb f feature).
  - simpl in Hnd. inversion Hnd as [|? ? Hs0 Hnd']; subst.
    assert (Hm : Dict.mem s0 d = true) by (apply (Hk (s0, v0)); now left).
    pose proof Hm as Hm'. apply DictFacts.mem_get in Hm as [inner Hinner].
    cbn [add_values]. rewrite Hinner.
    rewrite IH; auto.
    + rewrite stored_set. cbn [Dict.get].
      destruct (str_eqb s s0) eqn:Es.
      * apply str_eqb_eq in Es. subst s0.
        rewrite (get_not_in s pairs Hs0), get_set_eqb.
        unfold stored. rewrite Hinner.
        now destruct (str_eqb f feature).
      * reflexivity.
    + intros p Hp.
      rewrite (mem_same_keys _ d); [apply Hk; now right|].
      now rewrite DictFacts.keys_set, Hm'.
Qed.

Lemma keys_combine (a b : list pystr) :
  NoDup a -> NoDup (Dict.keys (combine a b)).
Proof.
  revert b. induction a as [|x a IH]; intros b H; simpl; [constructor|].
  destruct b as [|y b]; simpl; [constructor|].
  inversion H; subst. constructor; auto.
  intros Hin. apply In_fst_combine in Hin. contradiction.
Qed.

Lemma add_lines_app (samples l1 l2 : list pystr) (d : fdict) :
  add_lines samples (l1 ++ l2) d
  = match add_lines samples l1 d with
    | (d', Ok _) => add_lines samples l2 d'
    | (d', Raise e) => (d', Raise e)
    end.
Proof.
  revert d. induction l1 as [|x l1 IH]; simpl; intros d; auto.
  destruct (add_values _ _ d) as [d1 [[]|e]]; auto.
Qed.

(** The rows write only what they hold. *)
Lemma add_lines_origin (samples lines : list pystr) (d : fdict) :
  NoDup samples -> (forall s, In s samples -> Dict.mem s d = true) ->
  forall s f v,
    stored (fst (add_lines samples lines d)) s f = Some v ->
    stored d s f = Some v
    \/ exists line, In line lines /\ hd [] (row_fields line) = f
                    /\ In (s, v) (combine samples (tl (row_fields line))).
Proof.
  intros Hnd. revert d. induction lines as [|line lines IH]; intros d Hk s f v H.
  - now left.
  - cbn [add_lines] in H. fold (row_fields line) in H.
    pose proof (add_values_stored (hd [] (row_fields line))
                  (combine samples (tl (row_fields line))) d
                  (keys_combine _ _ Hnd)) as Hst.
    destruct (add_values_total (hd [] (row_fields line))
                (combine samples (tl (row_fields line))) d)
      as (d1 & E & Hkeys).
    { intros [x y] Hp. apply in_combine_l in Hp. now apply Hk. }
    rewrite E in H, Hst. simpl in Hst.
    apply IH in H.
    + destruct H as [H|(l & Hl & Hf & Hin)].
      * rewrite Hst in H.
        2:{ intros [x y] Hp. apply in_combine_l in Hp. now apply Hk. }
        destruct (str_eqb f (hd [] (row_fields line))) eqn:Ef; auto.
        destruct (Dict.get s (combine samples (tl (row_fields line)))) eqn:Eg; auto.
        injection H as ->. right. exists line. repeat split; auto.
        -- now left.
        -- apply str_eqb_eq in Ef. congruence.
        -- now apply DictFacts.get_In.
      * right. exists l. repeat split; auto. now right.
    + intros x Hx. rewrite (mem_same_keys _ d) by exact Hkeys. now apply Hk.
Qed.

Lemma get_app {V} (k : pystr) (a b : Dict.t V) :
  Dict.get k (a ++ b)
  = match Dict.get k a with Some v => Some v | None => Dict.get k b end.
Proof.
  induction a as [|[k' v'] a IH]; simpl; auto.
  destruct (str_eqb k k'); auto.
Qed.

Lemma get_empties (k : pystr) (samples : list pystr) :
  Dict.get k (map (fun s => (s, @Dict.empty pystr)) samples)
  = if str_in k samples then Some Dict.empty else None.
Proof.
  induction samples as [|s samples IH]; simpl; auto.
  destruct (str_eqb k s); auto.
Qed.

Lemma empties_mem (samples : list pystr) (d : fdict) (s : pystr) :
  In s samples ->
  Dict.mem s (d ++ map (fun s => (s, Dict.empty)) samples) = true.
Proof.
  intros Hs. apply DictFacts.mem_get. rewrite get_app, get_empties.
  apply str_in_In in Hs. rewrite Hs. destruct (Dict.get s d); eauto.
Qed.

(** The parts of a successful [parse_table]. *)
Lemma parse_table_parts (files : filesystem) (path : pystr) (lines : list pystr)
  (d : fdict) :
  fs_file files path = Some lines ->
  snd (parse_table files path d) = Ok (header_samples lines) ->
  NoDup (header_samples lines)
  /\ (forall s, In s (header_samples lines) -> Dict.mem s d = false)
  /\ add_lines (header_samples lines) (tl lines)
       (d ++ map (fun s => (s, Dict.empty)) (header_samples lines))
     = (fst (parse_table files path d), Ok tt).
Proof.
  intros Hfile Hok.
  destruct (parse_table files path d) as [d' r] eqn:E. simpl in Hok. subst r.
  pose proof (parse_table_ok_keys _ _ _ _ _ E) as (_ & Hnd & Hfresh).
  split; [exact Hnd|]. split; [exact Hfresh|].
  unfold parse_table in E. rewrite Hfile in E.
  rewrite (add_samples_fresh path _ d Hnd Hfresh) in E.
  destruct (add_lines_total (header_samples lines) (tl lines)
              (d ++ map (fun s => (s, Dict.empty)) (header_samples lines)))
    as (d2 & E2 & _).
  { intros s Hs. now apply empties_mem. }
  rewrite E2 in E. rewrite E2. now injection E as <-.
Qed.

(** The last row of the file decides. *)
Lemma parse_table_last_row (files : filesystem) (path : pystr)
  (lines : list pystr) (d : fdict) (rows : list pystr) (row s v : pystr) :
  fs_file files path = Some lines ->
  snd (parse_table files path d) = Ok (header_samples lines) ->
  tl lines = rows ++ [row] ->
  In (s, v) (combine (header_samples lines) (tl (row_fields row))) ->
  stored (fst (parse_table files path d)) s (hd [] (row_fields row)) = Some v.
Proof.
  intros Hfile Hok Hrows Hin.
  destruct (parse_table_parts files path lines d Hfile Hok) as (Hnd & Hfresh & Hrun).
  set (samples := header_samples lines) in *.
  set (d1 := d ++ map (fun s => (s, Dict.empty)) samples) in *.
  assert (Hk1 : forall s, In s samples -> Dict.mem s d1 = true)
    by (intros x Hx; now apply empties_mem).
  rewrite Hrows, add_lines_app in Hrun.
  destruct (add_lines_total samples rows d1 Hk1) as (d2 & E2 & Hk2).
  rewrite E2 in Hrun. cbn [add_lines] in Hrun. fold (row_fields row) in Hrun.
  assert (Hk : forall p, In p (combine samples (tl (row_fields row))) ->
                         Dict.mem (fst p) d2 = true).
  { intros [x y] Hp. apply in_combine_l in Hp. simpl.
    rewrite (mem_same_keys _ d1) by exact Hk2. now apply Hk1. }
  pose proof (add_values_stored (hd [] (row_fields row))
                (combine samples (tl (row_fields row))) d2
                (keys_combine _ _ Hnd) Hk s (hd [] (row_fields row))) as Hst.
  destruct (add_values (hd [] (row_fields row))
              (combine samples (tl (row_fields row))) d2) as [d3 [[]|e]];
    try discriminate.
  injection Hrun as <-. simpl in Hst. rewrite Hst, str_eqb_refl.
  now rewrite (DictFacts.In_get s v _ (keys_combine _ _ Hnd) Hin).
Qed.

(** X4.  After a successful [parse_table]: the value the last data row
    holds for a sample is what is stored for that sample under the row's
    feature (of several rows with one feature the last wins); every value
    stored for a sample of the header comes from a data row of the file, at
    the sample's column; and what is stored for the other samples is as it
    was before the call. *)
Theorem parse_table_row_values :
  forall (files : filesystem) (path : pystr) (lines : list pystr) (d : fdict),
    fs_file files path = Some lines ->
    snd (parse_table files path d) = Ok (header_samples lines) ->
    (forall rows row s v,
       tl lines = rows ++ [row] ->
       In (s, v) (combine (header_samples lines) (tl (row_fields row))) ->
       stored (fst (parse_table files path d)) s (hd [] (row_fields row)) = Some v)
    /\ (forall s f v,
          In s (header_samples lines) ->
          stored (fst (parse_table files path d)) s f = Some v ->
          exists line, In line (tl lines) /\ hd [] (row_fields line) = f
                       /\ In (s, v) (combine (header_samples lines)
                                             (tl (row_fields line))))
    /\ (forall s f,
          ~ In s (header_samples lines) ->
          stored (fst (parse_table files path d)) s f = stored d s f).
Proof.
  intros files path lines d Hfile Hok.
  destruct (parse_table_parts files path lines d Hfile Hok) as (Hnd & Hfresh & Hrun).
  set (samples := header_samples lines) in *.
  set (d1 := d ++ map (fun s => (s, Dict.empty)) samples) in *.
  assert (Hk1 : forall s, In s samples -> Dict.mem s d1 = true)
    by (intros x Hx; now apply empties_mem).
  split; [|split].
  - intros rows row s v. now apply parse_table_last_row.
  - intros s f v Hs Hst.
    pose proof (add_lines_origin samples (tl lines) d1 Hnd Hk1 s f v) as Ho.
    rewrite Hrun in Ho. destruct (Ho Hst) as [H|H]; auto.
    exfalso. unfold stored, d1 in H. rewrite get_app, get_empties in H.
    specialize (Hfresh s Hs). apply DictFacts.mem_false_get in Hfresh.
    rewrite Hfresh in H. apply str_in_In in Hs. rewrite Hs in H. discriminate.
  - intros s f Hs.
    pose proof (add_lines_other samples (tl lines) d1 s Hs) as Ho.
    rewrite Hrun in Ho. simpl in Ho. unfold stored. rewrite Ho.
    unfold d1. rewrite get_app, get_empties.
    apply str_in_false in Hs. rewrite Hs. now destruct (Dict.get s d).
Qed.

Lemma parse_table_row_values_witness :
  let path := project_table (lit "A") (lit "A") (fun_suffix KO abund) in
  let lines := one_sample_table (lit "S1") (lit "KO0001") (lit "7") in
  let d : fdict := [(lit "S0", [(lit "KO0001", lit "1")])] in
  (forall rows row s v,
     tl lines = rows ++ [row] ->
     In (s, v) (combine (header_samples lines) (tl (row_fields row))) ->
     stored (fst (parse_table example_fs path d)) s (hd [] (row_fields row))
     = Some v)
  /\ (forall s f v,
        In s (header_samples lines) ->
        stored (fst (parse_table example_fs path d)) s f = Some v ->
        exists line, In line (tl lines) /\ hd [] (row_fields line) = f
                     /\ In (s, v) (combine (header_samples lines)
                                           (tl (row_fields line))))
  /\ (forall s f,
        ~ In s (header_samples lines) ->
        stored (fst (parse_table example_fs path d)) s f = stored d s f).
Proof.
  intros path lines d.
  apply (parse_table_row_values example_fs path lines d).
  - reflexivity.
  - vm_compute. reflexivity.
Defined.

(** X5.  Round trip: the dictionary a successful [parse_table] leaves can
    be written by [write_feature_dict] with the sample names the call
    returned; the table has these names as columns, and at the feature of
    the file's last data row it holds the values of that row. *)
Theorem parse_then_write :
  forall (files : filesystem) (path : pystr) (lines : list pystr) (d : fdict)
         (out : pystr) (st : state),
    fs_file files path = Some lines ->
    snd (parse_table files path d) = Ok (header_samples lines) ->
    exists df,
      write_feature_dict (header_samples lines) (fst (parse_table files path d))
                         out st
      = (set_log (log st ++ [ToCsv out df]) st, Ok tt)
      /\ col_labels df = header_samples lines
      /\ forall rows row s v,
           tl lines = rows ++ [row] ->
           In (s, v) (combine (header_samples lines) (tl (row_fields row))) ->
           df_at df (hd [] (row_fields row)) s = Some (Text v).
Proof.
  intros files path lines d out st Hfile Hok.
  assert (Hkeys : Dict.keys (fst (parse_table files path d))
                  = Dict.keys d ++ header_samples lines).
  { destruct (parse_table files path d) as [d0 r] eqn:E. simpl in Hok. subst r.
    now apply parse_table_ok_keys in E as (Hk & _). }
  pose proof (fun rows row s v =>
                parse_table_last_row files path lines d rows row s v Hfile Hok)
    as Hlast.
  set (d' := fst (parse_table files path d)) in *.
  destruct (feature_frame_total (header_samples lines) d') as [df Hdf].
  { intros s Hs. apply DictFacts.mem_keys. rewrite Hkeys, in_app_iff. auto. }
  exists df. split; [|split].
  - unfold write_feature_dict, bind, lift, emit, modify. now rewrite Hdf.
  - now apply feature_frame_columns in Hdf.
  - intros rows row s v Hrows Hin.
    specialize (Hlast rows row s v Hrows Hin).
    destruct (feature_frame_ok _ _ _ Hdf) as (_ & _ & _ & _ & Hat).
    destruct (feature_frame_index _ _ _ Hdf) as (Hidx & _).
    rewrite Hat.
    + now rewrite Hlast.
    + apply Hidx. unfold stored in Hlast.
      destruct (Dict.get s d') as [inner|] eqn:E; try discriminate.
      exists (s, inner). split; [now apply DictFacts.get_In|].
      simpl. apply DictFacts.mem_keys, DictFacts.mem_get. eauto.
    + now apply in_combine_l in Hin.
Qed.

Lemma parse_then_write_witness :
  let path := project_table (lit "A") (lit "A") (fun_suffix KO abund) in
  let lines := one_sample_table (lit "S1") (lit "KO0001") (lit "7") in
  let d : fdict := Dict.empty in
  let st := start_state example_fs in
  exists df,
    write_feature_dict (header_samples lines)
                       (fst (parse_table example_fs path d)) (lit "out.tsv") st
    = (set_log (log st ++ [ToCsv (lit "out.tsv") df]) st, Ok tt)
    /\ col_labels df = header_samples lines
    /\ forall rows row s v,
         tl lines = rows ++ [row] ->
         In (s, v) (combine (header_samples lines) (tl (row_fields row))) ->
         df_at df (hd [] (row_fields row)) s = Some (Text v).
Proof.
  intros path lines d st.
  apply (parse_then_write example_fs path lines d (lit "out.tsv") st).
  - reflexivity.
  - vm_compute. reflexivity.
Defined.

(* ================================================================== *)
(** * The name of a project *)

Lemma lstrip_app (p : pychar -> bool) (a b : pystr) :
  lstrip p (a ++ b)
  = match lstrip p a with
    | [] => lstrip p b
    | l => l ++ b
    end.
Proof.
  induction a as [|c a IH]; simpl.
  - now destruct (lstrip p b).
  - destruct (p c); auto.
Qed.

Lemma rstrip_snoc (p : pychar -> bool) (s : pystr) (c : pychar) :
  p c = true -> rstrip p (s ++ [c]) = rstrip p s.
Proof.
  intros H. unfold rstrip. rewrite rev_app_distr. simpl. now rewrite H.
Qed.

Lemma strip_char_trailing (c : pychar) (s : pystr) :
  strip_char c (s ++ [c]) = strip_char c s.
Proof.
  unfold strip_char. rewrite lstrip_app.
  destruct (lstrip (N.eqb c) s) as [|x l] eqn:E.
  - simpl. rewrite N.eqb_refl. reflexivity.
  - apply (rstrip_snoc (N.eqb c) (x :: l) c). apply N.eqb_refl.
Qed.

Lemma strip_char_leading (c : pychar) (s : pystr) :
  strip_char c (c :: s) = strip_char c s.
Proof. unfold strip_char. simpl. now rewrite N.eqb_refl. Qed.

Lemma last_In {A} (l : list A) (x : A) : l <> [] -> In (last l x) l.
Proof.
  induction l as [|a l IH]; [congruence|]. intros _.
  destruct l as [|b l]; [now left|]. right. apply IH. discriminate.
Qed.

Lemma split_tail_not_nil (sep : pychar) (a b : pystr) :
  tl (split sep (a ++ sep :: b)) <> [].
Proof.
  induction a as [|x a IH]; simpl.
  - rewrite N.eqb_refl. simpl. apply split_not_nil.
  - destruct (N.eqb x sep); simpl.
    + apply split_not_nil.
    + destruct (split sep (a ++ sep :: b)) as [|w ws]; simpl in *; auto.
Qed.

Lemma last_split_app (sep : pychar) (a b : pystr) :
  last (split sep (a ++ sep :: b)) [] = last (split sep b) [].
Proof.
  induction a as [|x a IH]; simpl.
  - rewrite N.eqb_refl. pose proof (split_not_nil sep b).
    destruct (split sep b); [congruence|reflexivity].
  - pose proof (split_tail_not_nil sep a b) as Ht.
    destruct (N.eqb x sep).
    + rewrite <- IH. destruct (split sep (a ++ sep :: b)); [contradiction|reflexivity].
    + rewrite <- IH. destruct (split sep (a ++ sep :: b)) as [|w ws]; [contradiction|].
      simpl in Ht. destruct ws; [contradiction|reflexivity].
Qed.

Lemma lstrip_id (p : pychar -> bool) (s : pystr) :
  match s with [] => True | c :: _ => p c = false end -> lstrip p s = s.
Proof. destruct s as [|c s]; simpl; auto. now intros ->. Qed.

Lemma rstrip_id (p : pychar -> bool) (s : pystr) :
  match rev s with [] => True | c :: _ => p c = false end -> rstrip p s = s.
Proof.
  intros H. unfold rstrip. rewrite lstrip_id by exact H. apply rev_involutive.
Qed.

Lemma project_name_plain (name : pystr) :
  ~ In SLASH name -> project_name name = name.
Proof.
  intros Hfree. unfold project_name, strip_char.
  destruct name as [|c r] eqn:En; [reflexivity|]. rewrite <- En in *.
  assert (Hlast : match rev name with [] => True
                                 | c :: _ => N.eqb SLASH c = false end).
  { destruct (rev name) as [|c' r'] eqn:E; auto.
    apply N.eqb_neq. intros <-. apply Hfree. apply in_rev. rewrite E. now left. }
  assert (Hfirst : match name with [] => True
                              | c :: _ => N.eqb SLASH c = false end).
  { rewrite En. apply N.eqb_neq. intros <-. apply Hfree. rewrite En. now left. }
  rewrite (lstrip_id _ name Hfirst), (rstrip_id _ name Hlast).
  now rewrite split_free.
Qed.

Lemma project_name_last (dir name : pystr) :
  name <> [] -> ~ In SLASH name ->
  project_name (dir ++ [SLASH] ++ name) = name.
Proof.
  intros Hne Hfree. unfold project_name, strip_char.
  assert (Hlast : match rev name with [] => True
                                 | c :: _ => N.eqb SLASH c = false end).
  { destruct (rev name) as [|c r] eqn:E; auto.
    apply N.eqb_neq. intros <-. apply Hfree. apply in_rev. rewrite E. now left. }
  assert (Hfirst : match name with [] => True
                              | c :: _ => N.eqb SLASH c = false end).
  { destruct name as [|c r]; auto.
    apply N.eqb_neq. intros <-. apply Hfree. now left. }
  assert (Hname : split SLASH name = [name]) by now apply split_free.
  rewrite lstrip_app. destruct (lstrip (N.eqb SLASH) dir) as [|x l] eqn:E.
  - change (lstrip (N.eqb SLASH) ([SLASH] ++ name))
      with (lstrip (N.eqb SLASH) name).
    rewrite (lstrip_id _ name Hfirst).
    rewrite (rstrip_id _ name Hlast). now rewrite Hname.
  - assert (Hr : rstrip (N.eqb SLASH) ((x :: l) ++ [SLASH] ++ name)
                 = (x :: l) ++ [SLASH] ++ name).
    { apply rstrip_id. rewrite !rev_app_distr.
      destruct (rev name) as [|c r] eqn:E'; [|exact Hlast].
      exfalso. apply Hne. apply (f_equal (@rev _)) in E'.
      now rewrite rev_involutive in E'. }
    rewrite Hr. change ((x :: l) ++ [SLASH] ++ name)
      with ((x :: l) ++ SLASH :: name).
    now rewrite last_split_app, Hname.
Qed.

(** X6.  Line 138 gives the base name of the path: for a non-empty name
    without a slash, the project name of the name itself, of the name in a
    directory, and of either with a slash at the end, is that name. *)
Theorem project_name_basename :
  forall (dir name : pystr),
    name <> [] -> ~ In SLASH name ->
    project_name name = name
    /\ project_name (dir ++ [SLASH] ++ name) = name
    /\ project_name (name ++ [SLASH]) = name
    /\ project_name ((dir ++ [SLASH] ++ name) ++ [SLASH]) = name.
Proof.
  intros dir name Hne Hfree.
  pose proof (project_name_plain name Hfree) as H1.
  pose proof (project_name_last dir name Hne Hfree) as H2.
  split; [exact H1|]. split; [exact H2|].
  unfold project_name in *. now rewrite !strip_char_trailing.
Qed.

Lemma project_name_basename_witness :
  project_name (lit "A") = lit "A"
  /\ project_name (lit "/data/runs" ++ [SLASH] ++ lit "A") = lit "A"
  /\ project_name (lit "A" ++ [SLASH]) = lit "A"
  /\ project_name ((lit "/data/runs" ++ [SLASH] ++ lit "A") ++ [SLASH]) = lit "A".
Proof.
  apply (project_name_basename (lit "/data/runs") (lit "A")).
  - discriminate.
  - simpl. intros [H|[]]. discriminate.
Defined.

(** X7.  The name of a project never holds a slash, whatever the path;
    a slash at the start or at the end of the path does not change it. *)
Theorem project_name_slashes :
  forall (p : pystr),
    forallb (fun c => negb (N.eqb c SLASH)) (project_name p) = true
    /\ project_name (p ++ [SLASH]) = project_name p
    /\ project_name (SLASH :: p) = project_name p.
Proof.
  intros p. split; [|split].
  - apply forallb_forall. intros c Hc.
    destruct (N.eqb_spec c SLASH) as [->|]; auto. exfalso.
    unfold project_name in Hc.
    pose proof (split_fields_free SLASH (strip_char SLASH p)) as HF.
    rewrite Forall_forall in HF. apply (HF _ (last_In _ [] (split_not_nil _ _)) Hc).
  - unfold project_name. now rewrite strip_char_trailing.
  - unfold project_name. now rewrite strip_char_leading.
Qed.

(* ================================================================== *)
(** * The arguments and the output directory *)

(** X8.  Without a paths file and without positional paths the script
    warns, prints that no project paths were given and exits with status 1;
    it creates no directory and writes nothing. *)
Theorem main_without_paths :
  forall (env : environment) (args : arguments) (st : state),
    paths_file_given args = None -> project_paths args = [] ->
    main env args st
    = (set_log (log st ++ [Warn superseded_warning; Print no_paths_message]) st,
       Raise (SystemExit 1)).
Proof.
  intros env args st Hf Hp.
  unfold main, check_arguments. rewrite Hf, Hp.
  unfold bind, emit, print, modify, raise, set_log. simpl.
  rewrite <- app_assoc. reflexivity.
Qed.

Lemma main_without_paths_witness :
  let args := example_args [] false in
  let st := start_state example_fs in
  main example_env args st
  = (set_log (log st ++ [Warn superseded_warning; Print no_paths_message]) st,
     Raise (SystemExit 1)).
Proof.
  intros args st. apply (main_without_paths example_env args st); reflexivity.
Defined.

Lemma create_output_dir_cases (env : environment) (args : arguments) (st : state) :
  create_output_dir env args st
  = match os_mkdir env (output_dir args) (fs st) with
    | inr files =>
        (set_log (log st ++ [Mkdir (output_dir args)]) (set_fs files st), Ok tt)
    | inl errno =>
        if negb (errno =? 17)%Z then (st, Raise (OSError errno (output_dir args)))
        else if force_overwrite args then (st, Ok tt)
        else (set_log (log st ++ [Print (directory_exists_message args)]) st,
              Raise (SystemExit 1))
    end.
Proof.
  unfold create_output_dir, mkdir.
  destruct (os_mkdir env (output_dir args) (fs st)) as [errno|files]; auto.
Qed.

(** X9.  When the output directory cannot be created: an error other than
    [EEXIST] (17) is raised again as it is; on [EEXIST] the script goes on
    with the file system as it is when [--force-overwrite] was given, and
    otherwise prints that the directory exists and exits with status 1. *)
Theorem output_directory_exists :
  forall (env : environment) (args : arguments) (st st1 : state)
         (ps : list pystr) (errno : Z),
    bind (emit (Warn superseded_warning)) (fun _ => check_arguments args) st
    = (st1, Ok ps) ->
    os_mkdir env (output_dir args) (fs st1) = inl errno ->
    main env args st
    = (if negb (errno =? 17)%Z
       then (st1, Raise (OSError errno (output_dir args)))
       else if force_overwrite args
       then bind (define_variables args) (fun _ => combine_tables env args ps) st1
       else (set_log (log st1 ++ [Print (directory_exists_message args)]) st1,
             Raise (SystemExit 1))).
Proof.
  intros env args st st1 ps errno Hargs Hmk.
  unfold main. unfold bind at 1 in Hargs.
  unfold bind at 1.
  destruct (emit (Warn superseded_warning) st) as [s0 [[]|e]] eqn:E0;
    try discriminate.
  unfold bind at 1. rewrite Hargs.
  unfold bind at 1. rewrite create_output_dir_cases, Hmk.
  destruct (negb (errno =? 17)%Z); [reflexivity|].
  destruct (force_overwrite args); reflexivity.
Qed.

Lemma output_directory_exists_witness :
  let args := example_args [lit "A"] false in
  let st := start_state (fs_of [] [(lit "combined", [])]) in
  let st1 := set_log [Warn superseded_warning] st in
  main example_env args st
  = (set_log (log st1 ++ [Print (directory_exists_message args)]) st1,
     Raise (SystemExit 1)).
Proof.
  intros args st st1.
  apply (output_directory_exists example_env args st st1 [lit "A"] 17%Z);
    reflexivity.
Defined.

(* ================================================================== *)
(** * Projects whose tables are there *)

Lemma quiet_refl (st : state) : quiet st st.
Proof. split; auto. exists []. rewrite app_nil_r. auto. Qed.

Lemma quiet_print (st0 st : state) (msg : pystr) :
  quiet st0 st -> quiet st0 (set_log (log st ++ [Print msg]) st).
Proof.
  intros [F (evs & L & P)]. split; auto. exists (evs ++ [Print msg]).
  simpl. rewrite L, app_assoc. split; auto.
  apply Forall_app. split; auto. constructor; auto. now exists msg.
Qed.

Lemma quiet_read_project (args : arguments) (p n : pystr) (st0 : state) :
  preserves (quiet st0) (read_project args p n).
Proof.
  apply pres_read_project.
  - intros st msg. apply quiet_print.
  - intros st s d0 d _ [F L]. unfold quiet.
    destruct (slot_set_frame s d st) as (-> & -> & _). auto.
  - intros st x H. exact H.
  - intros st H. exact H.
  - intros st H. exact H.
  - intros st H. exact H.
  - intros st f m c _ _ H. exact H.
  - intros st x H. exact H.
Qed.

(** X10.  A project whose [COG.abund.tsv] table exists is only read: the
    table generator is not called, no directory is made, the file system is
    left as it was, and all the log gains are printed messages, whether the
    project is read to the end or an exception stops it. *)
Theorem present_tables_are_kept :
  forall (env : environment) (args : arguments) (p : pystr)
         (st st' : state) (r : result unit),
    isfile (fs st) (cog_table p) = true ->
    process_project env args p st = (st', r) ->
    fs st' = fs st
    /\ exists evs, log st' = log st ++ evs
                   /\ Forall (fun e => exists msg, e = Print msg) evs.
Proof.
  intros env args p st st' r Hcog H.
  change (quiet st st').
  unfold process_project in H. unfold bind at 1 in H.
  rewrite validate_project_run in H.
  destruct (isfile (fs st) (marker_path args p (project_name p))).
  - unfold bind at 1 in H. unfold create_tables in H.
    unfold bind at 1 in H. unfold gets at 1 in H.
    unfold cog_table in Hcog. rewrite Hcog in H. simpl negb in H. cbv iota in H.
    unfold print, emit, modify in H.
    eapply (quiet_read_project args p (project_name p) st); [|exact H].
    apply quiet_print, quiet_refl.
  - injection H as <- _. apply quiet_refl.
Qed.

Lemma present_tables_are_kept_witness :
  let args := example_args [] false in
  let st := start_state example_fs in
  let st' := fst (process_project example_env args (lit "A") st) in
  fs st' = fs st
  /\ exists evs, log st' = log st ++ evs
                 /\ Forall (fun e => exists msg, e = Print msg) evs.
Proof.
  intros args st st'.
  apply (present_tables_are_kept example_env args (lit "A") st st'
           (snd (process_project example_env args (lit "A") st))).
  - reflexivity.
  - apply surjective_pairing.
Defined.

(* ================================================================== *)
(** * An empty list of projects *)

Lemma empty_run_log (env : environment) (args : arguments) (st : state) :
  exists evs,
    log (fst (bind (define_variables args)
                   (fun _ => combine_tables env args []) st)) = log st ++ evs
    /\ forallb is_empty_table evs = true
    /\ List.length evs = if sqmreads args then 23 else 30.
Proof.
  destruct args as [pp pf od op tf iu reads fo dc].
  destruct st as [f l sn tx fn cm ni hk hc hp].
  destruct reads.
  - eexists. split.
    + vm_compute. fold (@app event). repeat rewrite <- app_assoc.
      cbn [app]. reflexivity.
    + split; vm_compute; reflexivity.
  - eexists. split.
    + vm_compute. fold (@app event). repeat rewrite <- app_assoc.
      cbn [app]. reflexivity.
    + split; vm_compute; reflexivity.
Qed.

(** X11.  With no project at all (an empty paths file) the run does not
    stop early: from the variables of lines 90-134 it writes the taxonomy
    and KO, COG and PFAM tables, every one without rows and columns (23
    tables in reads mode, 30 otherwise), and then raises [KeyError] for
    ['KO'], as no names were ever read. *)
Theorem no_projects_no_names :
  forall (env : environment) (args : arguments) (st : state),
    let run := bind (define_variables args)
                    (fun _ => combine_tables env args []) st in
    snd run = Raise (KeyError [lit "KO"])
    /\ exists evs,
         log (fst run) = log st ++ evs
         /\ forallb is_empty_table evs = true
         /\ List.length evs = if sqmreads args then 23 else 30.
Proof.
  intros env args st run. subst run. split.
  - destruct args as [pp pf od op tf iu reads fo dc].
    destruct reads; vm_compute; reflexivity.
  - apply empty_run_log.
Qed.

(* ================================================================== *)
(** * The sample names are distinct *)

Lemma taxa_slot_set_other (s : slot) (d : fdict) (st : state) :
  first_slot s = false ->
  taxa (slot_set s d st) allfilter superkingdom = taxa st allfilter superkingdom.
Proof.
  destruct s as [f r|m c|method counts]; simpl; auto.
  - destruct f, r; simpl; auto; discriminate.
  - destruct (Dict.get method (customFunMethods st)); auto.
Qed.

Section LaterTables.

Variable I : state -> Prop.

Hypothesis I_print :
  forall st msg, I st -> I (set_log (log st ++ [Print msg]) st).
Hypothesis I_later :
  forall st s d, first_slot s = false -> I st -> I (slot_set s d st).
Hypothesis I_kegg : forall st, I st -> I (set_hasKEGG false st).
Hypothesis I_cog : forall st, I st -> I (set_hasCOG false st).
Hypothesis I_pfam : forall st, I st -> I (set_hasPFAM false st).
Hypothesis I_names : forall st x, I st -> I (set_namesInfo x st).

Lemma later_parse_table_in (path : pystr) (s : slot) :
  first_slot s = false -> preserves I (parse_table_in path s).
Proof.
  intros Hs st st' r HI. unfold parse_table_in.
  destruct (slot_get s st) as [d|e].
  - destruct (parse_table (fs st) path d) as [d' r'].
    intros H. injection H as <- _. now apply I_later.
  - intros H. now injection H as <- _.
Qed.

Lemma later_tax_rest (projPath projName : pystr) :
  preserves I (for_each (tl tax_tables)
                 (fun k => parse_tax projPath projName k ;; ret tt)).
Proof.
  apply pres_for_each. intros k Hk.
  apply pres_bind; [|intros; apply pres_ret].
  apply later_parse_table_in.
  simpl in Hk. repeat (destruct Hk as [<-|Hk]; [reflexivity|]). destruct Hk.
Qed.

Lemma later_parse_fun (projPath projName : pystr) (m : fmethod) (c : metric) :
  preserves I (parse_fun projPath projName m c).
Proof.
  apply pres_bind; [now apply later_parse_table_in | intros; apply pres_ret].
Qed.

Lemma later_parse_KO (args : arguments) (projPath projName : pystr) :
  preserves I (parse_KO args projPath projName).
Proof.
  apply pres_bind; [apply pres_gets|]. intros [|]; simpl.
  - apply pres_bind; [apply later_parse_fun|]. intros _. apply pres_when.
    apply pres_bind; [apply later_parse_fun | intros; apply later_parse_fun].
  - apply pres_bind; [now apply pres_print|]. intros _. now apply pres_modify.
Qed.

Lemma later_parse_COG (args : arguments) (projPath projName : pystr) :
  preserves I (parse_COG args projPath projName).
Proof.
  apply pres_bind; [apply pres_gets|]. intros [|]; simpl.
  - apply pres_bind; [apply later_parse_fun|]. intros _. apply pres_when.
    apply pres_bind; [apply later_parse_fun | intros; apply later_parse_fun].
  - apply pres_bind; [now apply pres_print|]. intros _. now apply pres_modify.
Qed.

Lemma later_parse_PFAM (args : arguments) (projPath projName : pystr) :
  preserves I (parse_PFAM args projPath projName).
Proof.
  apply pres_when.
  apply pres_bind; [apply pres_gets|]. intros [|]; simpl.
  - apply pres_bind; [apply later_parse_fun|]. intros _.
    apply pres_bind; [apply later_parse_fun | intros; apply later_parse_fun].
  - apply pres_bind; [now apply pres_print|]. intros _. now apply pres_modify.
Qed.

Lemma later_parse_custom (projPath : pystr) (cts : Dict.t (Dict.t pystr)) :
  preserves I (parse_custom projPath cts).
Proof.
  apply pres_for_each. intros mi _. apply pres_for_each. intros cf _.
  apply pres_bind; [now apply later_parse_table_in | intros; apply pres_ret].
Qed.

End LaterTables.

Lemma registry_frame (st st' : state) :
  sampleNames st' = sampleNames st ->
  taxa st' allfilter superkingdom = taxa st allfilter superkingdom ->
  registry st -> registry st'.
Proof.
  unfold registry. intros -> ->. auto.
Qed.

Lemma registry_later (st : state) (s : slot) (d : fdict) :
  first_slot s = false -> registry st -> registry (slot_set s d st).
Proof.
  intros Hs. apply (registry_frame st).
  - apply slot_set_frame.
  - now apply taxa_slot_set_other.
Qed.

Lemma NoDup_fresh_app (keys samples : list pystr) :
  NoDup keys -> NoDup samples ->
  (forall s, In s samples -> ~ In s keys) -> NoDup (keys ++ samples).
Proof.
  induction keys as [|k keys IH]; simpl; auto.
  intros Hk Hs Hf. inversion Hk; subst. constructor.
  - intros Hin. apply in_app_iff in Hin as [Hin|Hin]; auto.
    apply (Hf k Hin). now left.
  - apply IH; auto. intros s Hin Hin'. apply (Hf s Hin). now right.
Qed.

Lemma process_project_registry (env : environment) (args : arguments)
  (p : pystr) (st st' : state) :
  registry st ->
  process_project env args p st = (st', Ok tt) ->
  registry st'.
Proof.
  intros HI H. unfold process_project in H.
  apply bind_ok in H as (st1 & [] & H1 & H).
  apply bind_ok in H as (st2 & [] & H2 & H).
  apply bind_ok in H as (st3 & cts & H3 & H).
  unfold read_tables in H.
  apply bind_ok in H as (st4 & [] & H4 & H).
  assert (I1 : registry st1)
    by (eapply (pres_validate_project registry); eauto).
  assert (I2 : registry st2).
  { eapply (pres_create_tables registry); [| | | exact I1 |exact H2].
    - intros st0 ? HR; now apply (registry_frame st0).
    - intros st0 ? ? HR; now apply (registry_frame st0).
    - intros st0 ? ? HR; now apply (registry_frame st0). }
  assert (I3 : registry st3).
  { eapply (pres_discover_custom registry); [|exact I2|exact H3].
    intros st0 f method counts _ _ HR. now apply (registry_frame st0). }
  assert (I4 : registry st4).
  { unfold parse_taxonomy in H4.
    apply bind_ok in H4 as (st5 & samples & H5 & H4).
    apply bind_ok in H4 as (st6 & [] & H6 & H4).
    unfold parse_tax, parse_table_in in H5. simpl in H5.
    destruct (parse_table (fs st3)
                (project_table p (project_name p)
                   (tax_suffix (allfilter, superkingdom)))
                (taxa st3 allfilter superkingdom)) as [d' r] eqn:E.
    injection H5 as <- ->. unfold modify in H6. injection H6 as <-.
    apply parse_table_ok_keys in E as (Hk & Hnd & Hf).
    destruct I3 as [R3 N3].
    assert (I6 : registry
                   (set_sampleNames
                      (sampleNames
                         (set_taxa
                            (fun f' r' =>
                               if filter_eqb f' allfilter && rank_eqb r' superkingdom
                               then d' else taxa st3 f' r') st3) ++ samples)
                      (set_taxa
                         (fun f' r' =>
                            if filter_eqb f' allfilter && rank_eqb r' superkingdom
                            then d' else taxa st3 f' r') st3))).
    { split.
      - simpl. now rewrite Hk, R3.
      - simpl. rewrite R3. apply NoDup_fresh_app; auto.
        + now rewrite <- R3.
        + intros s Hs Hin. apply DictFacts.mem_keys in Hin.
          rewrite (Hf s Hs) in Hin. discriminate. }
    eapply (pres_for_each registry); [|exact I6|exact H4].
    intros k Hk'. apply pres_bind; [|intros; apply pres_ret].
    apply later_parse_table_in.
    - apply registry_later.
    - simpl in Hk'. repeat (destruct Hk' as [<-|Hk']; [reflexivity|]).
      destruct Hk'. }
  assert (Hp : forall st0 msg,
             registry st0 -> registry (set_log (log st0 ++ [Print msg]) st0))
    by (intros st0 msg HR; now apply (registry_frame st0)).
  assert (Hk : forall st0, registry st0 -> registry (set_hasKEGG false st0))
    by (intros st0 HR; now apply (registry_frame st0)).
  assert (Hc : forall st0, registry st0 -> registry (set_hasCOG false st0))
    by (intros st0 HR; now apply (registry_frame st0)).
  assert (Hf : forall st0, registry st0 -> registry (set_hasPFAM false st0))
    by (intros st0 HR; now apply (registry_frame st0)).
  revert H. generalize I4. generalize (Ok tt : result unit).
  generalize st'. generalize st4.
  change (preserves registry
            (parse_KO args p (project_name p) ;;
             parse_COG args p (project_name p) ;;
             parse_PFAM args p (project_name p) ;;
             parse_custom p cts ;;
             add_names p (project_name p))).
  apply pres_bind; [|intros _; apply pres_bind; [|intros _; apply pres_bind;
                    [|intros _; apply pres_bind; [|intros _]]]].
  - apply later_parse_KO; auto using registry_later.
  - apply later_parse_COG; auto using registry_later.
  - apply later_parse_PFAM; auto using registry_later.
  - apply later_parse_custom; auto using registry_later.
  - apply pres_add_names. intros st0 x HR. now apply (registry_frame st0).
Qed.

Lemma projects_registry (env : environment) (args : arguments)
  (ps : list pystr) (st st' : state) :
  registry st ->
  for_each ps (process_project env args) st = (st', Ok tt) ->
  registry st'.
Proof.
  revert st. induction ps as [|p ps IH]; simpl; intros st HI H.
  - unfold ret in H. now injection H as <-.
  - apply bind_ok in H as (st1 & [] & H1 & H).
    apply (IH st1); auto. eapply process_project_registry; eauto.
Qed.


(** X12.  A run that returns has met every sample name once: the sample
    names of the projects, in the order they were read, are pairwise
    distinct, also across projects, and they are the keys of
    [all_superkingdom] in order.  So a sample name that two projects share
    keeps the run from returning. *)
Theorem sample_names_distinct :
  forall (env : environment) (args : arguments) (ps : list pystr)
         (st st' : state),
    sampleNames st = [] ->
    taxa st allfilter superkingdom = Dict.empty ->
    combine_tables env args ps st = (st', Ok tt) ->
    NoDup (encounter_order env args ps (fs st))
    /\ sampleNames st' = Dict.keys (taxa st' allfilter superkingdom).
Proof.
  intros env args ps st st' Hs Ht H. unfold combine_tables in H.
  apply bind_ok in H as (st1 & [] & H1 & H).
  assert (R : registry st1).
  { apply (projects_registry env args ps st); auto.
    split; [now rewrite Hs, Ht | rewrite Hs; constructor]. }
  apply projects_loop in H1 as (_ & Hn & _). rewrite Hs in Hn. simpl in Hn.
  apply write_combined_run in H as (evs & -> & _).
  destruct R as [R N]. split.
  - now rewrite <- Hn.
  - exact R.
Qed.

Lemma sample_names_distinct_witness :
  let args := example_args [] false in
  let ps := [lit "B"; lit "A"] in
  let st := start_state example_fs in
  let st' := fst (combine_tables example_env args ps st) in
  NoDup (encounter_order example_env args ps (fs st))
  /\ sampleNames st' = Dict.keys (taxa st' allfilter superkingdom).
Proof.
  intros args ps st st'.
  apply (sample_names_distinct example_env args ps st st').
  - reflexivity.
  - reflexivity.
  - vm_compute. reflexivity.
Defined.

(* ================================================================== *)
(** * The lines of a names table *)

Lemma set_name_run (method column key value : pystr) (st : state)
  (info : fdict) (d : Dict.t pystr) :
  Dict.get method (namesInfo st) = Some info ->
  Dict.get column info = Some d ->
  set_name method column key value st
  = (set_namesInfo
       (Dict.set method (Dict.set column (Dict.set key value d) info)
          (namesInfo st)) st, Ok tt).
Proof.
  intros H1 H2. unfold set_name, getitem. now rewrite H1, H2.
Qed.

Lemma name_of_set_same (method column key value : pystr) (st : state)
  (info : fdict) (d : Dict.t pystr) :
  name_of (set_namesInfo
             (Dict.set method (Dict.set column (Dict.set key value d) info)
                (namesInfo st)) st) method column key = Some value.
Proof.
  unfold name_of, stored. simpl.
  now rewrite !DictFacts.get_set_same.
Qed.

(** X13.  One line of a names table, for a method whose entry has a
    [Name] column.  With fewer than two fields the line raises [IndexError]
    and stores nothing.  Otherwise the second field is stored as the name of
    the first; and when the entry has a [Path] column as well, the third
    field is stored as its path, or, if the line has no third field,
    [IndexError] is raised with the name already stored. *)
Theorem add_name_line :
  forall (method line : pystr) (st : state) (info : fdict),
    Dict.get method (namesInfo st) = Some info ->
    Dict.mem (lit "Name") info = true ->
    let st' := fst (add_name method line st) in
    let r := snd (add_name method line st) in
    match name_fields line with
    | key :: name :: rest =>
        name_of st' method (lit "Name") key = Some name
        /\ (if Dict.mem (lit "Path") info
            then match rest with
                 | path :: _ =>
                     r = Ok tt
                     /\ name_of st' method (lit "Path") key = Some path
                 | [] => r = Raise IndexError
                 end
            else r = Ok tt)
    | _ => st' = st /\ r = Raise IndexError
    end.
Proof.
  intros method line st info Hinfo Hname. cbv zeta.
  destruct (add_name method line st) as [st' r] eqn:E. simpl fst. simpl snd.
  unfold add_name in E. fold (name_fields line) in E.
  destruct (name_fields line) as [|key [|name rest]].
  - injection E as <- <-. auto.
  - injection E as <- <-. auto.
  - apply DictFacts.mem_get in Hname as [names Hnames].
    unfold index_or_raise, index_pos in E. simpl nth_error in E.
    unfold bind at 1 in E. unfold ret at 1 in E.
    unfold bind at 1 in E. unfold ret at 1 in E.
    unfold bind at 1 in E.
    rewrite (set_name_run _ _ _ _ _ _ _ Hinfo Hnames) in E.
    unfold bind at 1 in E. unfold get_info, getitem in E. simpl namesInfo in E.
    rewrite DictFacts.get_set_same in E.
    rewrite DictFacts.mem_set in E.
    change (str_eqb (lit "Path") (lit "Name")) with false in E. simpl orb in E.
    destruct (Dict.mem (lit "Path") info) eqn:Hp; simpl when in E.
    + destruct rest as [|path rest].
      * injection E as <- <-. split; auto. apply name_of_set_same.
      * apply DictFacts.mem_get in Hp as [paths Hpaths].
        unfold bind at 1 in E. unfold ret at 1 in E.
        unfold bind at 1 in E. unfold ret at 1 in E.
        erewrite set_name_run in E.
        2: { simpl. apply DictFacts.get_set_same. }
        2: { rewrite DictFacts.get_set_other; [exact Hpaths | discriminate]. }
        injection E as <- <-. split; [|split; auto].
        -- unfold name_of, stored. simpl.
           rewrite !DictFacts.get_set_same.
           rewrite DictFacts.get_set_other by discriminate.
           now rewrite !DictFacts.get_set_same.
        -- unfold name_of, stored. simpl.
           now rewrite !DictFacts.get_set_same.
    + injection E as <- <-. split; auto. apply name_of_set_same.
Qed.

Lemma add_name_line_witness :
  let info : fdict := [(lit "Name", Dict.empty); (lit "Path", Dict.empty)] in
  let st := set_namesInfo [(lit "KO", info)] (start_state example_fs) in
  let line := tsv_line [lit "K00001"; lit "some name"; lit "a; b"] in
  let st' := fst (add_name (lit "KO") line st) in
  let r := snd (add_name (lit "KO") line st) in
  match name_fields line with
  | key :: name :: rest =>
      name_of st' (lit "KO") (lit "Name") key = Some name
      /\ (if Dict.mem (lit "Path") info
          then match rest with
               | path :: _ =>
                   r = Ok tt
                   /\ name_of st' (lit "KO") (lit "Path") key = Some path
               | [] => r = Raise IndexError
               end
          else r = Ok tt)
  | _ => st' = st /\ r = Raise IndexError
  end.
Proof.
  intros info st line.
  apply (add_name_line (lit "KO") line st info); reflexivity.
Defined.

(* ================================================================== *)
(** * The files of a run *)

Section Writes.

Variable st0 : state.

Lemma writes_ret {A} (a : A) : writes st0 (ret a) [].
Proof.
  intros L st' r H. unfold ret in H. injection H as <- _.
  exists []. simpl. rewrite app_nil_r. eauto.
Qed.

Lemma writes_bind {A B} (m : M A) (k : A -> M B) (o1 o2 : list pystr) :
  writes st0 m o1 -> (forall a, writes st0 (k a) o2) ->
  writes st0 (bind m k) (o1 ++ o2).
Proof.
  intros Hm Hk L st' r H. unfold bind in H.
  destruct (m (set_log L st0)) as [s1 [a|e]] eqn:E.
  - apply Hm in E as (t1 & -> & _ & F). specialize (F a eq_refl).
    apply (Hk a) in H as (t2 & -> & (rest & P) & F').
    exists (t1 ++ t2). unfold table_events. rewrite !map_app, app_assoc.
    split; auto. rewrite F. split.
    + exists rest. now rewrite P, app_assoc.
    + intros b Hb. now rewrite (F' b Hb).
  - apply Hm in E as (t1 & -> & (rest & P) & _). injection H as <- <-.
    exists t1. split; auto. split; [|discriminate].
    exists (rest ++ o2). now rewrite P, app_assoc.
Qed.

Lemma writes_gets_bind {A B} (f : state -> A) (k : A -> M B) (v : A)
  (o : list pystr) :
  (forall L, f (set_log L st0) = v) -> writes st0 (k v) o ->
  writes st0 (bind (gets f) k) o.
Proof.
  intros Hf Hk L st' r H. unfold bind, gets in H. rewrite Hf in H.
  exact (Hk L st' r H).
Qed.

Lemma writes_when (c : bool) (body : M unit) (o : list pystr) :
  writes st0 body o -> writes st0 (when c body) (if c then o else []).
Proof. destruct c; simpl; auto. intros _. apply writes_ret. Qed.

Lemma writes_for_each {A} (l : list A) (body : A -> M unit)
  (o : A -> list pystr) :
  (forall x, In x l -> writes st0 (body x) (o x)) ->
  writes st0 (for_each l body) (flat_map o l).
Proof.
  induction l as [|x l IH]; simpl; intros H.
  - apply writes_ret.
  - apply writes_bind; auto.
Qed.

Lemma writes_write_feature_dict (names : list pystr) (d : fdict) (out : pystr) :
  writes st0 (write_feature_dict names d out) [out].
Proof.
  intros L st' r H. unfold write_feature_dict, bind, lift, emit, modify in H.
  destruct (feature_frame names d) as [df|e].
  - injection H as <- _. exists [(out, df)]. simpl. split; auto.
    split; auto. now exists [].
  - injection H as <- <-. exists []. simpl. rewrite app_nil_r.
    split; auto. split; [|discriminate]. now exists [out].
Qed.

Lemma writes_get_info_bind {B} (method : pystr) (k : fdict -> M B)
  (o : list pystr) :
  (forall info, writes st0 (k info) o) ->
  writes st0 (bind (get_info method) k) o.
Proof.
  intros Hk. change o with ([] ++ o). apply writes_bind; auto.
  intros L st' r H. unfold get_info in H. injection H as <- <-.
  exists []. simpl. rewrite app_nil_r. split; auto. split; [now exists []|auto].
Qed.

Variable args : arguments.

Lemma writes_write_tax (k : filter_t * rank_t) :
  writes st0 (write_tax args k) [out_prefix args ++ tax_suffix k].
Proof.
  unfold write_tax.
  apply (writes_gets_bind _ _ (sampleNames st0)); [reflexivity|].
  apply (writes_gets_bind _ _ (taxa st0 (fst k) (snd k))); [reflexivity|].
  apply writes_write_feature_dict.
Qed.

Lemma writes_write_fun (m : fmethod) (c : metric) :
  writes st0 (write_fun args m c) [out_prefix args ++ fun_suffix m c].
Proof.
  unfold write_fun.
  apply (writes_gets_bind _ _ (sampleNames st0)); [reflexivity|].
  apply (writes_gets_bind _ _ (funs st0 m c)); [reflexivity|].
  apply writes_write_feature_dict.
Qed.

Lemma flat_map_singleton {A B} (f : A -> B) (l : list A) :
  flat_map (fun x => [f x]) l = map f l.
Proof. induction l; simpl; congruence. Qed.

Lemma writes_metrics (m : fmethod) :
  writes st0
    (write_fun args m abund ;;
     when (negb (sqmreads args))
       (write_fun args m copyNumber ;; write_fun args m tpm))
    (map (app (out_prefix args)) (map (fun_suffix m) (metrics_written args))).
Proof.
  replace (map (app (out_prefix args)) (map (fun_suffix m) (metrics_written args)))
    with ([out_prefix args ++ fun_suffix m abund]
          ++ (if negb (sqmreads args)
              then [out_prefix args ++ fun_suffix m copyNumber]
                   ++ [out_prefix args ++ fun_suffix m tpm]
              else []))
    by (unfold metrics_written; destruct (sqmreads args); reflexivity).
  apply writes_bind; [apply writes_write_fun|]. intros _.
  apply writes_when.
  apply writes_bind; [|intros _]; apply writes_write_fun.
Qed.

Lemma map_if {A B} (f : A -> B) (c : bool) (l : list A) :
  map f (if c then l else []) = if c then map f l else [].
Proof. now destruct c. Qed.

Lemma writes_write_standard :
  writes st0 (write_standard args)
    (map (app (out_prefix args)) (standard_outputs args st0)).
Proof.
  unfold write_standard, standard_outputs. rewrite !map_app, !map_if.
  apply writes_bind.
  { rewrite map_map, <- flat_map_singleton.
    apply writes_for_each. intros k _. apply writes_write_tax. }
  intros _. apply (writes_gets_bind _ _ (hasKEGG st0)); [reflexivity|].
  apply writes_bind; [apply writes_when, writes_metrics|].
  intros _. apply (writes_gets_bind _ _ (hasCOG st0)); [reflexivity|].
  apply writes_bind; [apply writes_when, writes_metrics|].
  intros _. apply (writes_gets_bind _ _ (hasPFAM st0)); [reflexivity|].
  apply writes_when.
  apply (writes_bind _ _ [_] [_; _]); [apply writes_write_fun|]. intros _.
  apply (writes_bind _ _ [_] [_]); [|intros _]; apply writes_write_fun.
Qed.

Lemma map_flat_map {A B C} (g : B -> C) (f : A -> list B) (l : list A) :
  map g (flat_map f l) = flat_map (fun x => map g (f x)) l.
Proof.
  induction l as [|x l IH]; simpl; auto. now rewrite map_app, IH.
Qed.

Lemma writes_write_custom :
  writes st0 (write_custom args)
    (map (app (out_prefix args)) (custom_outputs st0)).
Proof.
  unfold write_custom, custom_outputs.
  apply (writes_gets_bind _ _ (customFunMethods st0)); [reflexivity|].
  rewrite map_flat_map.
  apply writes_for_each. intros mi _.
  rewrite map_map, <- flat_map_singleton.
  apply writes_for_each. intros cd _.
  apply (writes_gets_bind _ _ (sampleNames st0)); [reflexivity|].
  apply writes_write_feature_dict.
Qed.

Lemma writes_write_names :
  writes st0 (write_names args)
    (map (app (out_prefix args)) (names_outputs st0)).
Proof.
  unfold write_names, names_outputs.
  apply (writes_gets_bind _ _ (allMethods st0)); [reflexivity|].
  rewrite map_map, <- flat_map_singleton.
  apply writes_for_each. intros method _.
  apply writes_get_info_bind. intros info.
  apply writes_write_feature_dict.
Qed.

Lemma writes_write_combined :
  writes st0 (write_combined args) (outputs args st0).
Proof.
  unfold write_combined, outputs. rewrite !map_app.
  apply writes_bind; [apply writes_write_standard|]. intros _.
  apply writes_bind; [apply writes_write_custom|]. intros _.
  apply writes_write_names.
Qed.

End Writes.


(** X14.  The writing stage changes nothing but the log, to which it adds
    the writing of tables only.  When it returns these are, in this order:
    the 21 taxonomy tables; for KO and for COG, if its flag is set, the
    abund table and, outside reads mode, the copyNumber and tpm tables; the
    three PFAM tables if the flag is set outside reads mode; one table for
    each metric of each custom method; one names table for each of KO, COG
    (flag set) and the custom methods.  When it raises, the tables written
    before are the first of that list. *)
Theorem written_files :
  forall (args : arguments) (st st' : state) (r : result unit),
    write_combined args st = (st', r) ->
    exists tables,
      st' = set_log (log st ++ table_events tables) st
      /\ (exists rest, outputs args st = map fst tables ++ rest)
      /\ (r = Ok tt -> map fst tables = outputs args st).
Proof.
  intros args st st' r H.
  destruct (writes_write_combined st args (log st) st' r) as (t & E & P & F).
  - now rewrite set_log_same.
  - exists t. split; auto. split; auto. intros ->. now apply (F tt).
Qed.

Lemma written_files_witness :
  let args := example_args [] false in
  let st := fst (for_each [lit "B"; lit "A"] (process_project example_env args)
                   (start_state example_fs)) in
  let st' := fst (write_combined args st) in
  let r := snd (write_combined args st) in
  exists tables,
    st' = set_log (log st ++ table_events tables) st
    /\ (exists rest, outputs args st = map fst tables ++ rest)
    /\ (r = Ok tt -> map fst tables = outputs args st).
Proof.
  intros args st st' r.
  apply (written_files args st st' r). apply surjective_pairing.
Defined.
